(** * go-mtree: keyvals, the updater, the vis wrapper and the gomtree front end

    A shallow embedding of [keywords.go], [update.go], the cgo wrapper
    around [strvis] with the [unvis] return codes, and the [main] function
    of the [gomtree] command, together with the properties of these
    functions that the specification of the repository states.

    Go strings are byte strings: they are modelled by [string], whose
    characters are the bytes.  Go's [int] is taken to be 64 bits wide. *)

From Stdlib Require Import String Ascii List ZArith Bool Lia Arith.
From Stdlib Require Import Permutation Sorted.
Import ListNotations.

Local Open Scope string_scope.
Local Open Scope list_scope.

(* ================================================================== *)
(** * The functions of Go's [strings] package that [keywords.go] calls *)
(* ================================================================== *)

Module GoStrings.

(** [s[n:]] *)
Fixpoint drop (n : nat) (s : string) : string :=
  match n, s with
  | O, _ => s
  | S n', String _ s' => drop n' s'
  | S _, EmptyString => EmptyString
  end.

(** [strings.Contains(s, substr)] *)
Fixpoint Contains (s substr : string) : bool :=
  if String.prefix substr s then true
  else match s with
       | EmptyString => false
       | String _ s' => Contains s' substr
       end.

(** The split of [s] around the first instance of [sep], if there is
    one; [sep] is not empty at any call site. *)
Fixpoint Cut (s sep : string) : option (string * string) :=
  if String.prefix sep s then Some (EmptyString, drop (String.length sep) s)
  else match s with
       | EmptyString => None
       | String c s' =>
           match Cut s' sep with
           | Some (before, after) => Some (String c before, after)
           | None => None
           end
       end.

(** [strings.SplitN(s, sep, 2)] for a separator that is not empty: the
    text before the first separator and the unsplit remainder, or [s]
    alone when it holds no separator. *)
Definition SplitN2 (s sep : string) : list string :=
  match Cut s sep with
  | Some (before, after) => [before; after]
  | None => [s]
  end.

Definition byte (n : nat) : ascii := ascii_of_nat n.

Definition bytes (l : list nat) : list ascii := map byte l.

(** The UTF-8 encodings of the code points for which [unicode.IsSpace]
    holds: U+0009..U+000D, U+0020, U+0085, U+00A0, U+1680,
    U+2000..U+200A, U+2028, U+2029, U+202F, U+205F and U+3000. *)
Definition spaceRunes : list (list ascii) :=
  map bytes
    ([[9]; [10]; [11]; [12]; [13]; [32];
      [194; 133]; [194; 160]; [225; 154; 128]]
     ++ map (fun k => [226; 128; 128 + k]) (seq 0 11)
     ++ [[226; 128; 168]; [226; 128; 169]; [226; 128; 175];
         [226; 129; 159]; [227; 128; 128]]).

Fixpoint isPrefix (p l : list ascii) : bool :=
  match p, l with
  | [], _ => true
  | a :: p', b :: l' => Ascii.eqb a b && isPrefix p' l'
  | _ :: _, [] => false
  end.

(** The input without its first rune, when that rune is one of
    [runes]. *)
Fixpoint stripRune (runes : list (list ascii)) (l : list ascii)
  : option (list ascii) :=
  match runes with
  | [] => None
  | r :: rest =>
      if isPrefix r l then Some (skipn (List.length r) l)
      else stripRune rest l
  end.

Fixpoint trimLeftFuel (fuel : nat) (runes : list (list ascii))
         (l : list ascii) : list ascii :=
  match fuel with
  | O => l
  | S fuel' =>
      match stripRune runes l with
      | Some l' => trimLeftFuel fuel' runes l'
      | None => l
      end
  end.

(** [strings.TrimLeftFunc(s, unicode.IsSpace)] on the bytes of [s]: a
    byte that does not start a well-formed encoding stops the trim. *)
Definition trimLeft (l : list ascii) : list ascii :=
  trimLeftFuel (List.length l) spaceRunes l.

(** [strings.TrimRightFunc(s, unicode.IsSpace)]: the same from the end,
    on the reversed bytes. *)
Definition trimRight (l : list ascii) : list ascii :=
  rev (trimLeftFuel (List.length l) (map (@rev ascii) spaceRunes) (rev l)).

(** [strings.TrimSpace(s)] *)
Definition TrimSpace (s : string) : string :=
  string_of_list_ascii (trimRight (trimLeft (list_ascii_of_string s))).

End GoStrings.

Import GoStrings.

(* ================================================================== *)
(** * keywords.go *)
(* ================================================================== *)

(** [inSlice(a, list)]: the package's membership test on string slices. *)
Fixpoint inSlice (a : string) (list : list string) : bool :=
  match list with
  | [] => false
  | b :: rest => if String.eqb b a then true else inSlice a rest
  end.

(** [type KeyVal string], a "keyword=value". *)
Definition KeyVal := string.

(** [type KeyVals []KeyVal] *)
Definition KeyVals := list KeyVal.

(** An index expression [a[i]] on the result of [SplitN]; every call site
    indexes within bounds (lemma [SplitN2_index_in_range] below), so the
    default is never returned. *)
Definition index (a : list string) (i : nat) : string := nth i a "".

(** [func (kv KeyVal) Keyword() string] *)
Definition Keyword (kv : KeyVal) : string :=
  if negb (Contains kv "=") then ""
  else
    let chunks := index (SplitN2 (TrimSpace kv) "=") 0 in
    if negb (Contains chunks ".") then chunks
    else index (SplitN2 chunks ".") 0.

(** [func (kv KeyVal) KeywordSuffix() string] *)
Definition KeywordSuffix (kv : KeyVal) : string :=
  if negb (Contains kv "=") then ""
  else
    let chunks := index (SplitN2 (TrimSpace kv) "=") 0 in
    if negb (Contains chunks ".") then ""
    else index (SplitN2 chunks ".") 1.

(** [func (kv KeyVal) Value() string] *)
Definition Value (kv : KeyVal) : string :=
  if negb (Contains kv "=") then ""
  else index (SplitN2 (TrimSpace kv) "=") 1.

(** [func (kv KeyVal) ChangeValue(newval string) string] *)
Definition ChangeValue (kv : KeyVal) (newval : string) : string :=
  Keyword kv ++ "=" ++ newval.

(** [func keywordSelector(keyval, words []string) []string] *)
Fixpoint keywordSelector (keyval words : list string) : list string :=
  match keyval with
  | [] => []
  | kv :: rest =>
      if inSlice (Keyword kv) words then kv :: keywordSelector rest words
      else keywordSelector rest words
  end.

(** [func NewKeyVals(keyvals []string) KeyVals] *)
Definition NewKeyVals (keyvals : list string) : KeyVals :=
  map (fun s : string => (s : KeyVal)) keyvals.

(** [var emptyKV = KeyVal("")] *)
Definition emptyKV : KeyVal := "".

(** [func (kvs KeyVals) Has(keyword string) KeyVal] *)
Fixpoint Has (kvs : KeyVals) (keyword : string) : KeyVal :=
  match kvs with
  | [] => emptyKV
  | kv :: rest =>
      if String.eqb (Keyword kv) keyword then kv else Has rest keyword
  end.

(** [retList[i] = v]; the loop of [MergeSet] only writes within bounds. *)
Fixpoint setIndex (l : KeyVals) (i : nat) (v : KeyVal) : KeyVals :=
  match l, i with
  | [], _ => []
  | _ :: rest, O => v :: rest
  | x :: rest, S i' => x :: setIndex rest i' v
  end.

(** The first loop of [MergeSet], [for i := range retList], from index
    [i] for [n] more iterations; the state is [retList] and
    [seenKeywords]. *)
Fixpoint mergeLoop (eKVs : KeyVals) (n i : nat)
         (retList : KeyVals) (seenKeywords : list string)
  : KeyVals * list string :=
  match n with
  | O => (retList, seenKeywords)
  | S n' =>
      let word := Keyword (nth i retList emptyKV) in
      let ekv := Has eKVs word in
      let retList' :=
        if negb (String.eqb ekv emptyKV) then setIndex retList i ekv
        else retList in
      mergeLoop eKVs n' (S i) retList' (seenKeywords ++ [word])
  end.

(** The second loop of [MergeSet], [for i := range eKVs]. *)
Fixpoint appendLoop (rest : KeyVals) (seenKeywords : list string)
         (retList : KeyVals) : KeyVals :=
  match rest with
  | [] => retList
  | ekv :: rest' =>
      if negb (inSlice (Keyword ekv) seenKeywords)
      then appendLoop rest' seenKeywords (retList ++ [ekv])
      else appendLoop rest' seenKeywords retList
  end.

(** [func MergeSet(setKeyVals, entryKeyVals []string) KeyVals] *)
Definition MergeSet (setKeyVals entryKeyVals : list string) : KeyVals :=
  let retList := NewKeyVals ([] ++ setKeyVals) in
  let eKVs := NewKeyVals entryKeyVals in
  let '(retList, seenKeywords) :=
    mergeLoop eKVs (List.length retList) 0 retList [] in
  appendLoop eKVs seenKeywords retList.

(** [DefaultKeywords], [DefaultTarKeywords], [BsdKeywords], [SetKeywords] *)
Definition DefaultKeywords : list string :=
  ["size"; "type"; "uid"; "gid"; "mode"; "link"; "nlink"; "time"].

Definition DefaultTarKeywords : list string :=
  ["size"; "type"; "uid"; "gid"; "mode"; "link"; "tar_time"].

Definition BsdKeywords : list string :=
  ["cksum"; "device"; "flags"; "ignore"; "gid"; "gname"; "link"; "md5";
   "md5digest"; "mode"; "nlink"; "nochange"; "optional";
   "ripemd160digest"; "rmd160"; "rmd160digest"; "sha1"; "sha1digest";
   "sha256"; "sha256digest"; "sha384"; "sha384digest"; "sha512";
   "sha512digest"; "size"; "tags"; "time"; "type"; "uid"; "uname"].

Definition SetKeywords : list string := ["uid"; "gid"].

(** [func (k Keyword) Default() bool] and [func (k Keyword) Bsd() bool] *)
Definition Keyword_Default (k : string) : bool := inSlice k DefaultKeywords.
Definition Keyword_Bsd (k : string) : bool := inSlice k BsdKeywords.

(** ** Notions used to state the properties of [MergeSet] *)

(** A list holds a keyval for keyword [k]. *)
Definition hasKeyword (l : KeyVals) (k : string) : Prop :=
  exists kv, In kv l /\ Keyword kv = k.

(** What the first loop of [MergeSet] leaves at the place of [kv]. *)
Definition winner (eKVs : KeyVals) (kv : KeyVal) : KeyVal :=
  if negb (String.eqb (Has eKVs (Keyword kv)) emptyKV)
  then Has eKVs (Keyword kv) else kv.

(** The test of the second loop of [MergeSet]. *)
Definition unseen (seenKeywords : list string) (ekv : KeyVal) : bool :=
  negb (inSlice (Keyword ekv) seenKeywords).

(* ================================================================== *)
(** * update.go *)
(* ================================================================== *)

(** The kinds of manifest entries. *)
Inductive EntryType : Type :=
| RelativeType | DotDotType | FullType | BlankType | CommentType | SpecialType.

(** A Go [error] that is not nil, by its message; [nil] is [None] of
    [option error]. *)
Definition error := string.

(** [Failure{Path, Keyword, Expected, Got}] *)
Record Failure : Type := mkFailure {
  Failure_Path : string;
  Failure_Keyword : string;
  Failure_Expected : string;
  Failure_Got : string
}.

(** [Result], with its three lists. *)
Record Result (Entry : Type) : Type := mkResult {
  Failures : list Failure;
  Missing : list Entry;
  Extra : list Entry
}.
Arguments mkResult {Entry} _ _ _.
Arguments Failures {Entry} _.
Arguments Missing {Entry} _.
Arguments Extra {Entry} _.

(** [DirectoryHierarchy], by its entries. *)
Record DirectoryHierarchy (Entry : Type) : Type := mkDH {
  Entries : list Entry
}.
Arguments mkDH {Entry} _.
Arguments Entries {Entry} _.

(** One invocation of an update function: the working directory in which
    it ran, its arguments and the error it returned. *)
Record Call : Type := mkCall {
  call_cwd : string;
  call_path : string;
  call_keyword : string;
  call_value : string;
  call_err : option error
}.

(** [var DefaultUpdateKeywords] *)
Definition DefaultUpdateKeywords : list string :=
  ["uid"; "gid"; "mode"; "time"].

(** The [Entry] struct and the sorter [byPos] are declared elsewhere in
    the package.  [Update] reads the fields [Type], [Name] and [Keywords]
    of an entry, sorts the entries on [Pos] through [byPos], and calls the
    method [Path].

    [sort.Sort] is not stable, so no particular algorithm is fixed for
    [sortByPos]: the properties that depend on the order assume its
    contract, a sorted permutation ([sortContract]). *)
Class Manifest : Type := {
  Entry : Type;
  Entry_Type : Entry -> EntryType;
  Entry_Name : Entry -> string;
  Entry_Keywords : Entry -> list string;
  Entry_Pos : Entry -> Z;
  Entry_Path : Entry -> error + string;
  sortByPos : list Entry -> list Entry
}.

(** The process and what it acts on: the working directory, the rest of
    the state of the file system, and the invocations of update functions
    made so far. *)
Record World (FS : Type) : Type := mkWorld {
  cwd : string;
  fs : FS;
  calls : list Call
}.
Arguments mkWorld {FS} _ _ _.
Arguments cwd {FS} _.
Arguments fs {FS} _.
Arguments calls {FS} _.

(** An update function is called with a path and a value; it acts on the
    file system, relative to the working directory, and returns a value
    that [Update] drops together with an error. *)
Definition UpdateKeywordFunc (FS : Type) : Type :=
  string -> string -> string -> FS -> option error * FS.

(** The operating system and the registry [UpdateKeywordFuncs], which is
    declared elsewhere in the package: whether [os.Getwd] fails, whether
    [os.Chdir(dir)] fails or which directory it enters, and the update
    function registered for a keyword. *)
Class Platform : Type := {
  FS : Type;
  Getwd_err : World FS -> option error;
  Chdir_to : string -> World FS -> error + string;
  UpdateKeywordFuncs : string -> option (UpdateKeywordFunc FS)
}.

Section Updater.

Context {M : Manifest} {P : Platform}.

Definition byPos_le (a b : Entry) : Prop := (Entry_Pos a <= Entry_Pos b)%Z.

Definition sortContract : Prop :=
  forall l, Permutation l (sortByPos l)
            /\ StronglySorted byPos_le (sortByPos l).

(** [os.Getwd()] *)
Definition Getwd (w : World FS) : error + string :=
  match Getwd_err w with
  | Some err => inl err
  | None => inr (cwd w)
  end.

(** [os.Chdir(dir)]; a failed call leaves the working directory. *)
Definition Chdir (dir : string) (w : World FS) : option error * World FS :=
  match Chdir_to dir w with
  | inl err => (Some err, w)
  | inr d => (None, mkWorld d (fs w) (calls w))
  end.

(** [ukFunc(pathname, kv.Value())] *)
Definition invoke (ukFunc : UpdateKeywordFunc FS)
           (pathname keyword value : string) (w : World FS)
  : option error * World FS :=
  let '(err, fs') := ukFunc pathname value (cwd w) (fs w) in
  (err, mkWorld (cwd w) fs'
                (calls w ++ [mkCall (cwd w) pathname keyword value err])).

(** [for _, kv := range NewKeyVals(toCheck) { ... }] *)
Fixpoint updateKeyVals (keywords : list string) (pathname : string)
         (kvs : KeyVals) (failures : list Failure) (w : World FS)
  : list Failure * World FS :=
  match kvs with
  | [] => (failures, w)
  | kv :: rest =>
      if negb (inSlice (Keyword kv) keywords)
      then updateKeyVals keywords pathname rest failures w
      else
        match UpdateKeywordFuncs (Keyword kv) with
        | None => updateKeyVals keywords pathname rest failures w
        | Some ukFunc =>
            let '(err, w') :=
              invoke ukFunc pathname (Keyword kv) (Value kv) w in
            match err with
            | Some msg =>
                updateKeyVals keywords pathname rest
                  (failures ++ [mkFailure pathname (Keyword kv) "" msg]) w'
            | None => updateKeyVals keywords pathname rest failures w'
            end
        end
  end.

(** [toCheck], as [Update] builds it with two [append]s. *)
Definition toCheck (curSet : option Entry) (e : Entry) : list string :=
  (match curSet with
   | Some s => [] ++ Entry_Keywords s
   | None => []
   end) ++ Entry_Keywords e.

(** The effect of a special entry on [creator.curSet]. *)
Definition nextSet (curSet : option Entry) (e : Entry) : option Entry :=
  if String.eqb (Entry_Name e) "/set" then Some e
  else if String.eqb (Entry_Name e) "/unset" then None
  else curSet.

(** [for i, e := range creator.DH.Entries { switch e.Type ... }] *)
Fixpoint updateEntries (keywords : list string) (entries : list Entry)
         (curSet : option Entry) (result : Result Entry) (w : World FS)
  : (error + Result Entry) * World FS :=
  match entries with
  | [] => (inr result, w)
  | e :: rest =>
      match Entry_Type e with
      | SpecialType =>
          updateEntries keywords rest (nextSet curSet e) result w
      | RelativeType | FullType =>
          match Entry_Path e with
          | inl err => (inl err, w)
          | inr pathname =>
              let '(failures, w') :=
                updateKeyVals keywords pathname
                  (NewKeyVals (toCheck curSet e)) (Failures result) w in
              updateEntries keywords rest curSet
                (mkResult failures (Missing result) (Extra result)) w'
          end
      | DotDotType | BlankType | CommentType =>
          updateEntries keywords rest curSet result w
      end
  end.

(** [var result Result] *)
Definition zeroResult : Result Entry := mkResult [] [] [].

(** [Update] up to its [return]s, before the deferred call runs. *)
Definition Update_body (root : string) (dh : DirectoryHierarchy Entry)
           (keywords : list string) (w : World FS)
  : (error + Result Entry) * World FS :=
  match Chdir root w with
  | (Some err, w1) => (inl err, w1)
  | (None, w1) =>
      updateEntries keywords (sortByPos (Entries dh)) None zeroResult w1
  end.

(** [if err == nil { defer os.Chdir(curDir) }]: the deferred call, whose
    own error is dropped. *)
Definition Update_deferred (curDir : error + string) (w : World FS) : World FS :=
  match curDir with
  | inr dir => snd (Chdir dir w)
  | inl _ => w
  end.

(** [func Update(root, dh, keywords)], for a [dh] that is not nil.
    Either the error or the result is returned, never both. *)
Definition Update (root : string) (dh : DirectoryHierarchy Entry)
           (keywords : list string) (w : World FS)
  : (error + Result Entry) * World FS :=
  let curDir := Getwd w in
  let '(r, w') := Update_body root dh keywords w in
  (r, Update_deferred curDir w').

(** ** Notions used to state the properties of [Update] *)

(** The arguments of an invocation. *)
Definition site (c : Call) : string * string * string :=
  (call_path c, call_keyword c, call_value c).

(** The keyvals of a list for which an update function is looked up and
    found. *)
Definition selected (keywords : list string) (kv : KeyVal) : bool :=
  inSlice (Keyword kv) keywords
  && match UpdateKeywordFuncs (Keyword kv) with
     | Some _ => true
     | None => false
     end.

Definition sitesOf (keywords : list string) (pathname : string)
           (kvs : KeyVals) : list (string * string * string) :=
  map (fun kv => (pathname, Keyword kv, Value kv))
      (filter (selected keywords) kvs).

(** The invocations that a run over [entries] makes when no [Path] call
    fails: for each relative or full entry, in order, those of the
    keyvals of the active set followed by the entry's own. *)
Fixpoint planned (keywords : list string) (entries : list Entry)
         (curSet : option Entry) : list (string * string * string) :=
  match entries with
  | [] => []
  | e :: rest =>
      match Entry_Type e with
      | SpecialType => planned keywords rest (nextSet curSet e)
      | RelativeType | FullType =>
          match Entry_Path e with
          | inl _ => []
          | inr pathname =>
              sitesOf keywords pathname (toCheck curSet e)
              ++ planned keywords rest curSet
          end
      | DotDotType | BlankType | CommentType =>
          planned keywords rest curSet
      end
  end.

(** The invocations at a sequence of sites, replayed in directory [dir]
    from the file system [f]: each one carries the error that the update
    function registered for its keyword returns, on the file system that
    the invocation before it left.  The result is the invocations and
    the file system after the last. *)
Fixpoint outcomes (sites : list (string * string * string))
         (dir : string) (f : FS) : list Call * FS :=
  match sites with
  | [] => ([], f)
  | (pathname, keyword, value) :: rest =>
      match UpdateKeywordFuncs keyword with
      | Some ukFunc =>
          let '(err, f') := ukFunc pathname value dir f in
          let '(made, f'') := outcomes rest dir f' in
          (mkCall dir pathname keyword value err :: made, f'')
      | None => outcomes rest dir f
      end
  end.

(** The failures that a sequence of invocations gives rise to. *)
Definition failuresOf (made : list Call) : list Failure :=
  flat_map (fun c =>
              match call_err c with
              | Some msg =>
                  [mkFailure (call_path c) (call_keyword c) "" msg]
              | None => []
              end) made.

(** The error of the first [Path] call that fails. *)
Fixpoint pathError (entries : list Entry) : option error :=
  match entries with
  | [] => None
  | e :: rest =>
      match Entry_Type e with
      | RelativeType | FullType =>
          match Entry_Path e with
          | inl err => Some err
          | inr _ => pathError rest
          end
      | _ => pathError rest
      end
  end.

(** The error that [Update] returns, read off its arguments and the
    initial world without running any update function. *)
Definition updateError (root : string) (dh : DirectoryHierarchy Entry)
           (w : World FS) : option error :=
  match Chdir_to root w with
  | inl err => Some err
  | inr _ => pathError (sortByPos (Entries dh))
  end.

(** Modelled after the wording of the specification, for comparison with
    [toCheck]: the effective keyvals of an entry as the merge of the
    active set with the entry's own keyvals. *)
Definition effectiveKeyVals_spec (curSet : option Entry) (e : Entry)
  : KeyVals :=
  match curSet with
  | Some s => MergeSet (Entry_Keywords s) (Entry_Keywords e)
  | None => NewKeyVals (Entry_Keywords e)
  end.

End Updater.

(* ================================================================== *)
(** * The cgo wrapper of [strvis] and the return codes of [unvis] *)
(* ================================================================== *)

Local Open Scope Z_scope.

(** [math.MaxUint32] *)
Definition MaxUint32 : Z := 4294967295.

(** The conversion [uint32(x)] of an integer value: its low 32 bits. *)
Definition uint32 (x : Z) : Z := x mod 2 ^ 32.

(** The value of an [int] expression whose exact value is [x]: arithmetic
    on [int] wraps around in 64-bit two's complement. *)
Definition int (x : Z) : Z := (x + 2 ^ 63) mod 2 ^ 64 - 2 ^ 63.

(** [len(s)] *)
Definition len (s : string) : Z := Z.of_nat (String.length s).

(** [type VisFlag int] *)
Definition VisFlag : Type := Z.

Definition VisOctal : VisFlag := 0x01.
Definition VisCstyle : VisFlag := 0x02.
Definition VisSp : VisFlag := 0x04.
Definition VisTab : VisFlag := 0x08.
Definition VisNl : VisFlag := 0x10.

(** Modelled from the spec: the constants [VIS_SP], [VIS_TAB] and [VIS_NL]
    that the declaration of [VisWhite] names are not declared in vis.go;
    the specification gives White = Sp | Tab | Nl, so they stand for the
    flags "also encode space", "also encode tab" and "also encode
    newline". *)
Definition VIS_SP : VisFlag := 0x04.
Definition VIS_TAB : VisFlag := 0x08.
Definition VIS_NL : VisFlag := 0x10.

Definition VisWhite : VisFlag := Z.lor (Z.lor VIS_SP VIS_TAB) VIS_NL.
Definition VisSafe : VisFlag := 0x20.
Definition VisNoslash : VisFlag := 0x40.
Definition VisHttpstyle : VisFlag := 0x80.
Definition VisGlob : VisFlag := 0x100.

(** [UnvisEnd VisFlag = 1] *)
Definition UnvisEnd : VisFlag := 1.

(** The flags that have a name of their own, other than the union
    [VisWhite]. *)
Definition singleVisFlags : list VisFlag :=
  [VisOctal; VisCstyle; VisSp; VisTab; VisNl; VisSafe; VisNoslash;
   VisHttpstyle; VisGlob].

(** A flag word has (all the bits of) a flag. *)
Definition hasFlag (flags f : VisFlag) : bool := Z.land flags f =? f.

(** The C side of [Vis]: [strvis] of vis.c as a function from the source C
    string and the flags to the C string it leaves in [dst], and
    [strconv.Quote], which formats the [%q] verb of the error message. *)
Class CLib : Type := {
  strvis : string -> Z -> string;
  Quote : string -> string
}.

(** A C string is read up to its first NUL byte: what [C.CString(src)]
    hands to [strvis]. *)
Fixpoint CString (s : string) : string :=
  match s with
  | EmptyString => EmptyString
  | String c s' =>
      if Ascii.eqb c zero then EmptyString else String c (CString s')
  end.

(** The size guard of [Vis], on the length of the source:
    [uint32(len(src)*4+1) >= math.MaxUint32/4]. *)
Definition Vis_guard (n : Z) : bool :=
  uint32 (int (n * 4 + 1)) >=? MaxUint32 / 4.

(** The flags that [Vis] passes to [strvis]. *)
Definition Vis_flags : VisFlag := Z.lor (Z.lor VisWhite VisOctal) VisGlob.

(** [func Vis(src string) (string, error)] *)
Definition Vis {C : CLib} (src : string) : error + string :=
  if Vis_guard (len src) then inl ("failed to encode: " ++ Quote src)%string
  else inr (strvis (CString src) Vis_flags).

(** The size of the output buffer that an input needs, [4*len(src)+1]. *)
Definition requiredSize (src : string) : Z := 4 * len src + 1.

(** A string of [n] bytes [c]. *)
Fixpoint repeatByte (n : nat) (c : ascii) : string :=
  match n with
  | O => EmptyString
  | S n' => String c (repeatByte n' c)
  end.

(** [type UnvisError int] *)
Definition UnvisError : Type := Z.

Definition UnvisErrorValid : UnvisError := 1.
Definition UnvisErrorValidpush : UnvisError := 2.
Definition UnvisErrorNochar : UnvisError := 3.
Definition UnvisErrorSynbad : UnvisError := -1.
Definition UnvisErrorUnrecoverable : UnvisError := -2.

(** Modelled from the spec: the switch of [Error] names a constant
    [UnvisErrorValidPush], which vis.go does not declare; the
    specification takes it to be the declared [UnvisErrorValidpush]. *)
Definition UnvisErrorValidPush : UnvisError := UnvisErrorValidpush.

(** The return codes that the constant block declares. *)
Definition unvisCodes : list UnvisError :=
  [UnvisErrorValid; UnvisErrorValidpush; UnvisErrorNochar;
   UnvisErrorSynbad; UnvisErrorUnrecoverable].

(** [func (ue UnvisError) Error() string] *)
Definition UnvisError_Error (ue : UnvisError) : string :=
  if ue =? UnvisErrorValid then "character valid"
  else if ue =? UnvisErrorValidPush
       then "character valid, push back passed char"
  else if ue =? UnvisErrorNochar
       then "valid sequence, no character produced"
  else if ue =? UnvisErrorSynbad then "unrecognized escape sequence"
  else if ue =? UnvisErrorUnrecoverable
       then "decoder in unknown state (unrecoverable)"
  else "Unknown Error".

Local Close Scope Z_scope.

(* ================================================================== *)
(** * The [gomtree] command: [main] *)
(* ================================================================== *)

Module Gomtree.

(** The values of the command-line flags after [flag.Parse]. *)
Record Flags : Type := mkFlags {
  flCreate : bool;
  flFile : string;
  flPath : string;
  flAddKeywords : string;
  flUseKeywords : string;
  flUpdateAttributes : bool;
  flTar : string;
  flBsdKeywords : bool;
  flDebug : bool;
  flListKeywords : bool;
  flListUsedKeywords : bool;
  flResultFormat : string;
  flVersion : bool
}.

(** What [flag.Parse] makes of the arguments.  The flags are registered
    on the default [flag.CommandLine], which is created with
    [flag.ExitOnError].  Arguments that the parser rejects (a flag that
    is not defined, a flag without its argument, a malformed boolean)
    end the process with status 2 inside [flag.Parse]; [-h] and [-help],
    which [main] does not define, print the usage and end the process
    there with status 0 (since Go 1.15; with status 2 before). *)
Inductive CommandLine : Type :=
| Rejected
| HelpRequested
| Parsed (fl : Flags).

(** ** The parser of package [flag]

    Package [flag] belongs to the Go standard library, not to the
    repository.  This is [FlagSet.Parse] with [FlagSet.parseOne] as the
    library has them, on the flags that [main.go] declares. *)

Inductive FlagKind : Type := BoolFlag | StringFlag.

(** [var ( flCreate = flag.Bool("c", ...) ... )]: the names that are
    declared, those of [flag.Bool] and those of [flag.String]. *)
Definition formal (name : string) : option FlagKind :=
  if existsb (String.eqb name)
             ["c"; "u"; "bsd-keywords"; "debug"; "list-keywords";
              "list-used"; "version"]
  then Some BoolFlag
  else if existsb (String.eqb name)
                  ["f"; "p"; "K"; "k"; "T"; "result-format"]
  then Some StringFlag
  else None.

(** The default values of the declarations. *)
Definition defaults : Flags :=
  mkFlags false "" "" "" "" false "" false false false false "bsd" false.

Definition setBool (name : string) (b : bool) (fl : Flags) : Flags :=
  mkFlags
    (if String.eqb name "c" then b else flCreate fl)
    (flFile fl) (flPath fl) (flAddKeywords fl) (flUseKeywords fl)
    (if String.eqb name "u" then b else flUpdateAttributes fl)
    (flTar fl)
    (if String.eqb name "bsd-keywords" then b else flBsdKeywords fl)
    (if String.eqb name "debug" then b else flDebug fl)
    (if String.eqb name "list-keywords" then b else flListKeywords fl)
    (if String.eqb name "list-used" then b else flListUsedKeywords fl)
    (flResultFormat fl)
    (if String.eqb name "version" then b else flVersion fl).

Definition setString (name value : string) (fl : Flags) : Flags :=
  mkFlags
    (flCreate fl)
    (if String.eqb name "f" then value else flFile fl)
    (if String.eqb name "p" then value else flPath fl)
    (if String.eqb name "K" then value else flAddKeywords fl)
    (if String.eqb name "k" then value else flUseKeywords fl)
    (flUpdateAttributes fl)
    (if String.eqb name "T" then value else flTar fl)
    (flBsdKeywords fl) (flDebug fl) (flListKeywords fl)
    (flListUsedKeywords fl)
    (if String.eqb name "result-format" then value else flResultFormat fl)
    (flVersion fl).

(** [strconv.ParseBool], which sets a boolean flag given as
    [-name=value]. *)
Definition ParseBool (str : string) : option bool :=
  if existsb (String.eqb str) ["1"; "t"; "T"; "TRUE"; "true"; "True"]
  then Some true
  else if existsb (String.eqb str)
                  ["0"; "f"; "F"; "FALSE"; "false"; "False"]
  then Some false
  else None.

(** [for i := 1; i < len(name); i++ { if name[i] == '=' { ... } }]: the
    name and the value of [name=value]; an '=' cannot be first. *)
Definition nameAndValue (name : string) : string * option string :=
  match name with
  | EmptyString => (name, None)
  | String c rest =>
      match Cut rest "=" with
      | Some (before, value) => (String c before, Some value)
      | None => (name, None)
      end
  end.

(** The loop of [FlagSet.Parse] over [parseOne].  An argument that is
    not a flag (shorter than two bytes, or not starting with '-') ends
    the parsing, and so does [--]; the arguments after it are not
    looked at. *)
Fixpoint parseArgs (args : list string) (fl : Flags) : CommandLine :=
  match args with
  | [] => Parsed fl
  | String "-" (String c s') :: rest =>
      if Ascii.eqb c "-" && String.eqb s' "" then Parsed fl
      else
        match (if Ascii.eqb c "-" then s' else String c s') with
        | EmptyString => Rejected           (* bad flag syntax *)
        | String d _ as name =>
            if Ascii.eqb d "-" || Ascii.eqb d "=" then Rejected
            else
              let '(name, value) := nameAndValue name in
              match formal name with
              | None =>
                  if String.eqb name "help" || String.eqb name "h"
                  then HelpRequested
                  else Rejected             (* provided but not defined *)
              | Some BoolFlag =>
                  match value with
                  | Some v =>
                      match ParseBool v with
                      | Some b => parseArgs rest (setBool name b fl)
                      | None => Rejected    (* invalid boolean value *)
                      end
                  | None => parseArgs rest (setBool name true fl)
                  end
              | Some StringFlag =>
                  match value with
                  | Some v => parseArgs rest (setString name v fl)
                  | None =>
                      match rest with
                      | v :: rest' => parseArgs rest' (setString name v fl)
                      | [] => Rejected      (* flag needs an argument *)
                      end
                  end
              end
        end
  | _ :: _ => Parsed fl
  end.

(** [flag.Parse()], on [os.Args[1:]]. *)
Definition flag_Parse (args : list string) : CommandLine :=
  parseArgs args defaults.

(** What the library and the operating system answer to the calls of
    [main].  [DH] is a [*DirectoryHierarchy] and [R] a [*Result], [None]
    being [nil]. *)
Class Frontend : Type := {
  FEntry : Type;
  DH := option (DirectoryHierarchy FEntry);
  R := option (Result FEntry);
  FEntry_Path : FEntry -> error + string;
  os_Open : string -> option error;
  ParseSpec : string -> error + DH;
  CollectUsedKeywords : DH -> list string;
  json_MarshalIndent : string -> list string -> option error;
  tar_Copy : string -> list string -> option error;
  tar_Close : string -> list string -> option error;
  tar_Hierarchy : string -> list string -> error + DH;
  mtree_Walk : string -> list string -> error + DH;
  mtree_Update : string -> DirectoryHierarchy FEntry -> list string
                 -> R * option error;
  mtree_TarCheck : DH -> DH -> list string -> R * option error;
  mtree_Check : string -> DH -> list string -> R * option error;
  renderBsd : Result FEntry -> string;
  renderPath : Result FEntry -> string;
  json_Encode : Result FEntry -> error + string;
  Stdout_Write : string -> option error
}.

(** [io.EOF] *)
Definition io_EOF : error := "EOF".

(** What a run of [main] shows, apart from standard output: the lines
    it logs, and the return of the checker when it is called. *)
Inductive Event {F : Frontend} : Type :=
| Logged (msg : string)
| Checked (res : R) (err : option error).
Arguments Logged {F} _.
Arguments Checked {F} _ _.

(** The calls that [main] defers. *)
Inductive Deferred : Type :=
| DeferExitIfErr    (* func() { if isErr { os.Exit(1) } }() *)
| DeferExit1        (* os.Exit(1) *)
| DeferClose.       (* fh.Close() *)

Record MainState {F : Frontend} : Type := mkMainState {
  isErr : bool;
  deferred : list Deferred;   (* the most recent first *)
  events : list Event
}.
Arguments mkMainState {F} _ _ _.

(** How a statement ends: it falls through with a value, it executes
    [return], or it panics. *)
Inductive Flow (A : Type) : Type :=
| Next (a : A)
| Returns
| Panics.
Arguments Next {A} _.
Arguments Returns {A}.
Arguments Panics {A}.

Section Body.

Context {F : Frontend}.

Definition Main (A : Type) : Type := MainState -> Flow A * MainState.

Definition pure {A : Type} (a : A) : Main A := fun s => (Next a, s).

Definition bind {A B : Type} (m : Main A) (k : A -> Main B) : Main B :=
  fun s =>
    match m s with
    | (Next a, s') => k a s'
    | (Returns, s') => (Returns, s')
    | (Panics, s') => (Panics, s')
    end.

Definition ret {A : Type} : Main A := fun s => (Returns, s).

Definition panic {A : Type} : Main A := fun s => (Panics, s).

Definition setErr : Main unit :=
  fun s => (Next tt, mkMainState true (deferred s) (events s)).

Definition defer (d : Deferred) : Main unit :=
  fun s => (Next tt, mkMainState (isErr s) (d :: deferred s) (events s)).

Definition emit (e : Event) : Main unit :=
  fun s => (Next tt, mkMainState (isErr s) (deferred s) (events s ++ [e])).

Definition when (b : bool) (m : Main unit) : Main unit :=
  if b then m else pure tt.

End Body.

Notation "x <- m ;; k" := (bind m (fun x => k))
  (at level 61, m at next level, right associativity).
Notation "m ;;; k" := (bind m (fun _ => k))
  (at level 61, right associativity).

Section Program.

Context {F : Frontend}.

(** [log.Println(err); isErr = true; return] *)
Definition fail {A : Type} (msg : string) : Main A :=
  emit (Logged msg) ;;; setErr ;;; ret.

(** [strings.Replace(str, ",", " ", -1)] *)
Fixpoint commasToSpaces (l : list ascii) : list ascii :=
  match l with
  | [] => []
  | c :: l' =>
      (if Ascii.eqb c ","%char then " "%char else c) :: commasToSpaces l'
  end.

Definition flush (cur : list ascii) : list string :=
  match cur with
  | [] => []
  | _ :: _ => [string_of_list_ascii (rev cur)]
  end.

Fixpoint fieldsLoop (fuel : nat) (l cur : list ascii) : list string :=
  match fuel with
  | O => flush cur
  | S fuel' =>
      match l with
      | [] => flush cur
      | c :: l' =>
          match stripRune spaceRunes l with
          | Some rest => flush cur ++ fieldsLoop fuel' rest []
          | None => fieldsLoop fuel' l' (c :: cur)
          end
      end
  end.

(** [strings.Fields] on the bytes of a string. *)
Definition Fields (l : list ascii) : list string :=
  fieldsLoop (S (List.length l)) l [].

(** [func splitKeywordsArg(str string) []string] *)
Definition splitKeywordsArg (str : string) : list string :=
  Fields (commasToSpaces (list_ascii_of_string str)).

(** [-K]: the keywords that are not in the list yet are appended. *)
Fixpoint addKeywords (kws tmpKeywords : list string) : list string :=
  match kws with
  | [] => tmpKeywords
  | kw :: rest =>
      if negb (inSlice kw tmpKeywords)
      then addKeywords rest (tmpKeywords ++ [kw])
      else addKeywords rest tmpKeywords
  end.

(** [-bsd-keywords]: only the keywords of upstream mtree(8) stay. *)
Definition onlyBsd (tmpKeywords : list string) : list string :=
  filter Keyword_Bsd tmpKeywords.

Definition tmpKeywordsOf (fl : Flags) : list string :=
  let tmpKeywords :=
    if negb (String.eqb (flUseKeywords fl) "") then
      let tmp := splitKeywordsArg (flUseKeywords fl) in
      if negb (inSlice "type" tmp) then ["type"] ++ tmp else tmp
    else if negb (String.eqb (flTar fl) "") then DefaultTarKeywords
    else DefaultKeywords in
  if negb (String.eqb (flAddKeywords fl) "")
  then addKeywords (splitKeywordsArg (flAddKeywords fl)) tmpKeywords
  else tmpKeywords.

Definition currentKeywordsOf (fl : Flags) : list string :=
  if flBsdKeywords fl then onlyBsd (tmpKeywordsOf fl)
  else tmpKeywordsOf fl.

(** [var formats]: the formatter named "json" panics when the encoder
    returns an error. *)
Definition formats (name : string)
  : option (Result FEntry -> Main string) :=
  if String.eqb name "bsd" then Some (fun r => pure (renderBsd r))
  else if String.eqb name "json" then
    Some (fun r => match json_Encode r with
                   | inl _ => panic
                   | inr out => pure out
                   end)
  else if String.eqb name "path" then Some (fun r => pure (renderPath r))
  else None.

(** [for _, e := range list { p, err := e.Path(); if err != nil {
    log.Println(err); isErr = true; return }; fmt.Printf(...) }] *)
Fixpoint reportPaths (l : list FEntry) : Main unit :=
  match l with
  | [] => pure tt
  | e :: rest =>
      match FEntry_Path e with
      | inl err => fail err
      | inr _ => reportPaths rest
      end
  end.

Definition nonEmpty {A : Type} (l : list A) : bool :=
  match l with [] => false | _ :: _ => true end.

Definition isSome {A : Type} (o : option A) : bool :=
  match o with Some _ => true | None => false end.

(** [-f <file>] *)
Definition loadManifest (fl : Flags) : Main DH :=
  if negb (String.eqb (flFile fl) "") && negb (flCreate fl) then
    match os_Open (flFile fl) with
    | Some err => fail err
    | None =>
        match ParseSpec (flFile fl) with
        | inl err => fail err
        | inr dh => pure dh
        end
    end
  else pure None.

(** [-list-used] *)
Definition listUsed (fl : Flags) (dh : DH) : Main unit :=
  if flListUsedKeywords fl then
    if String.eqb (flFile fl) "" then
      emit (Logged "no specification provided. please provide a validation manifest") ;;;
      defer DeferExit1 ;;; setErr ;;; ret
    else
      let usedKeywords := CollectUsedKeywords dh in
      if String.eqb (flResultFormat fl) "json" then
        match json_MarshalIndent (flFile fl) usedKeywords with
        | Some _ => defer DeferExit1 ;;; setErr ;;; ret
        | None => ret
        end
      else ret
  else pure tt.

(** [-T <tar file>] *)
Definition loadTar (fl : Flags) (currentKeywords : list string)
  : Main DH :=
  if negb (String.eqb (flTar fl) "") then
    (if String.eqb (flTar fl) "-" then pure tt
     else match os_Open (flTar fl) with
          | Some err => fail err
          | None => defer DeferClose
          end) ;;;
    (match tar_Copy (flTar fl) currentKeywords with
     | Some err =>
         if negb (String.eqb err io_EOF) then fail err else pure tt
     | None => pure tt
     end) ;;;
    (match tar_Close (flTar fl) currentKeywords with
     | Some err => fail err
     | None => pure tt
     end) ;;;
    match tar_Hierarchy (flTar fl) currentKeywords with
    | inl err => fail err
    | inr tdh => pure tdh
    end
  else pure None.

(** The branch of [main] that validates. *)
Definition validate (fl : Flags) (formatFunc : Result FEntry -> Main string)
           (rootPath : string) (currentKeywords : list string)
           (tdh dh : DH) : Main unit :=
  let '(res, err) :=
    if negb (String.eqb (flTar fl) "")
    then mtree_TarCheck tdh dh currentKeywords
    else mtree_Check rootPath dh currentKeywords in
  emit (Checked res err) ;;;
  (match err with
   | Some msg => fail msg
   | None => pure tt
   end) ;;;
  (match res with
   | Some r =>
       when (nonEmpty (Failures r))
         (defer DeferExit1 ;;;
          out <- formatFunc r ;;
          match Stdout_Write out with
          | Some msg => fail msg
          | None => pure tt
          end)
   | None => pure tt
   end) ;;;
  match res with
  | Some r =>
      when (nonEmpty (Extra r))
        (defer DeferExit1 ;;; reportPaths (Extra r)) ;;;
      when (nonEmpty (Missing r))
        (defer DeferExit1 ;;; reportPaths (Missing r))
  | None => pure tt
  end.

(** [func main()], after [flag.Parse].  Writing to standard output
    and setting [DEBUG] have no part in the exit status and are left
    out, but for the error of [os.Stdout.Write]. *)
Definition main_body (fl : Flags) : Main unit :=
  defer DeferExitIfErr ;;;
  when (flVersion fl) ret ;;;
  when (flListKeywords fl) ret ;;;
  formatFunc <-
    match formats (flResultFormat fl) with
    | Some f => pure f
    | None =>
        emit (Logged ("invalid output format: " ++ flResultFormat fl)%string) ;;;
        setErr ;;; ret
    end ;;
  let currentKeywords := currentKeywordsOf fl in
  dh <- loadManifest fl ;;
  listUsed fl dh ;;;
  let rootPath :=
    if negb (String.eqb (flPath fl) "") then flPath fl else "." in
  when (flUpdateAttributes fl && negb (String.eqb (flTar fl) ""))
    (fail "ERROR: -u can not be used with -T") ;;;
  tdh <- loadTar fl currentKeywords ;;
  if flCreate fl then
    match tdh with
    | Some _ => pure tt
    | None =>
        match mtree_Walk rootPath currentKeywords with
        | inl err => fail err
        | inr _ => pure tt
        end
    end
  else
    match flUpdateAttributes fl, dh with
    | true, Some d =>
        match mtree_Update rootPath d ["uid"; "gid"; "mode"] with
        | (_, Some err) => fail err
        | (_, None) => pure tt
        end
    | _, _ =>
        if isSome tdh || isSome dh
        then validate fl formatFunc rootPath currentKeywords tdh dh
        else
          emit (Logged "neither validating or creating a manifest. Please provide additional arguments") ;;;
          setErr ;;; defer DeferExit1 ;;; ret
    end.

(** The deferred calls run last-in first-out when [main] returns or
    panics; [os.Exit] ends the process at once.  When none of them
    exits, the status is 0 after a return and 2 after a panic. *)
Fixpoint runDeferred (isErr : bool) (ds : list Deferred) (otherwise : Z)
  : Z :=
  match ds with
  | [] => otherwise
  | DeferExit1 :: _ => 1%Z
  | DeferExitIfErr :: rest =>
      if isErr then 1%Z else runDeferred isErr rest otherwise
  | DeferClose :: rest => runDeferred isErr rest otherwise
  end.

Definition initial : MainState := mkMainState false [] [].

(** The exit status of the process and the events of the run. *)
Definition main (cl : CommandLine) : Z * list Event :=
  match cl with
  | Rejected => (2%Z, [])
  | HelpRequested => (0%Z, [])
  | Parsed fl =>
      let '(flow, s) := main_body fl initial in
      (runDeferred (isErr s) (deferred s)
                   (match flow with Panics => 2%Z | _ => 0%Z end),
       events s)
  end.

(** The command, from its arguments. *)
Definition gomtree (args : list string) : Z * list Event :=
  main (flag_Parse args).

End Program.

End Gomtree.

(* ================================================================== *)
(** * A small instance of the parameters, to run the code on examples *)
(* ================================================================== *)

Module Demo.

(** Entries with the fields that [Update] reads. *)
Record entry : Type := mkEntry {
  pos : Z;
  name : string;
  keywords : list string;
  type : EntryType
}.

(** An insertion sort on [pos], one implementation of the contract of
    [sort.Sort(byPos(...))]. *)
Fixpoint insertByPos (e : entry) (l : list entry) : list entry :=
  match l with
  | [] => [e]
  | x :: rest =>
      if (pos e <=? pos x)%Z then e :: l else x :: insertByPos e rest
  end.

Fixpoint sortEntries (l : list entry) : list entry :=
  match l with
  | [] => []
  | e :: rest => insertByPos e (sortEntries rest)
  end.

(** Every name decodes here, so [Path] returns the name. *)
Definition manifest : Manifest := {|
  Entry := entry;
  Entry_Type := type;
  Entry_Name := name;
  Entry_Keywords := keywords;
  Entry_Pos := pos;
  Entry_Path := fun e => inr (name e);
  sortByPos := sortEntries
|}.

(** A file system: the files that exist under the root, the directories
    that the process may enter, and the attributes set so far. *)
Record fileSystem : Type := mkFS {
  files : list string;
  enterable : list string;
  attrs : list (string * string * string)
}.

(** The owner may search a directory of this mode: the owner digit of
    the octal mode is odd. *)
Definition searchable (mode : string) : bool :=
  match rev (list_ascii_of_string mode) with
  | _ :: _ :: d :: _ => Nat.odd (nat_of_ascii d)
  | _ => false
  end.

Definition join (dir path : string) : string :=
  (dir ++ "/" ++ path)%string.

(** The update function of every keyword: it fails on a path that does
    not exist, and records the attribute otherwise; a mode without the
    search bit of the owner closes the directory to the process. *)
Definition setAttr (keyword : string) : UpdateKeywordFunc fileSystem :=
  fun path value cwd fsys =>
    if inSlice path (files fsys)
    then (None,
          mkFS (files fsys)
               (if String.eqb keyword "mode" && negb (searchable value)
                then remove string_dec (join cwd path) (enterable fsys)
                else enterable fsys)
               (attrs fsys ++ [(path, keyword, value)]))
    else (Some ("lstat " ++ path ++ ": no such file or directory")%string,
          fsys).

Definition platform : Platform := {|
  FS := fileSystem;
  Getwd_err := fun _ => None;
  Chdir_to := fun dir w =>
    if inSlice dir (enterable (fs w)) then inr dir
    else inl ("chdir " ++ dir ++ ": permission denied")%string;
  UpdateKeywordFuncs := fun keyword =>
    if inSlice keyword ["uid"; "gid"; "mode"; "time"]
    then Some (setAttr keyword) else None
|}.

(** [/set uid=0 gid=0], then [foo uid=1000 mode=0644 sha1=abc] and
    [gone mode=0600], listed out of order. *)
Definition setEntry : entry :=
  mkEntry 0 "/set" ["uid=0"; "gid=0"] SpecialType.
Definition fooEntry : entry :=
  mkEntry 1 "foo" ["uid=1000"; "mode=0644"; "sha1=abc"] RelativeType.
Definition goneEntry : entry :=
  mkEntry 2 "gone" ["mode=0600"] RelativeType.

Definition hierarchy : DirectoryHierarchy entry :=
  mkDH [fooEntry; goneEntry; setEntry].

(** A process in [/home/user], which it may enter again. *)
Definition world : World fileSystem :=
  mkWorld "/home/user"
          (mkFS ["foo"] ["/home/user"; "/srv/tree"] []) [].

(** A process in the directory [sub] of the tree, and a manifest that
    gives that directory a mode without search permission. *)
Definition insideWorld : World fileSystem :=
  mkWorld "/srv/tree/sub"
          (mkFS ["sub"] ["/srv/tree"; "/srv/tree/sub"] []) [].

Definition lockingHierarchy : DirectoryHierarchy entry :=
  mkDH [mkEntry 0 "sub" ["type=dir"; "mode=0600"] RelativeType].

(** The digit of the lowest octal place of [n], in ASCII. *)
Definition octalDigit (n : nat) : ascii := ascii_of_nat (48 + n mod 8).

(** A backslash and the three octal digits of a byte. *)
Definition octal (n : nat) : string :=
  String "\"%char
    (String (octalDigit (n / 64))
       (String (octalDigit (n / 8)) (String (octalDigit n) EmptyString))).

(** The byte [n] is written in octal under [flags]. *)
Definition encoded (flags : Z) (n : nat) : bool :=
  (hasFlag flags VisGlob
   && (Nat.eqb n 42 || Nat.eqb n 63 || Nat.eqb n 91 || Nat.eqb n 35))
  || negb ((Nat.leb 33 n && Nat.leb n 126)
           || (negb (hasFlag flags VisSp) && Nat.eqb n 32)
           || (negb (hasFlag flags VisTab) && Nat.eqb n 9)
           || (negb (hasFlag flags VisNl) && Nat.eqb n 10)).

(** Modelled from the spec: [strvis] of the C library behind [Vis], for
    flag words that include Octal.  A byte is written as a backslash and
    three octal digits when it is not graphic, or is a space, a tab or a
    newline that the flags select, or is one of the glob characters and
    the flags include Glob; a backslash is doubled; every other byte
    stands for itself. *)
Fixpoint strvisOctal (src : string) (flags : Z) : string :=
  match src with
  | EmptyString => EmptyString
  | String c rest =>
      let n := nat_of_ascii c in
      ((if encoded flags n then octal n
        else if Nat.eqb n 92 then String c (String c EmptyString)
        else String c EmptyString)
       ++ strvisOctal rest flags)%string
  end.

Definition clib : CLib := {|
  strvis := strvisOctal;
  Quote := fun s =>
    (String (ascii_of_nat 34) s ++ String (ascii_of_nat 34) EmptyString)%string
|}.

Import Gomtree.

(** A front end whose manifest is [hierarchy], whose updater is [Update]
    run in [world], and whose checker finds a tree named "clean" in
    order and reports one failure, one extra and one missing entry for
    any other. *)
Definition checkResult (root : string) : Result entry :=
  if String.eqb root "clean" then mkResult [] [] []
  else mkResult [mkFailure "foo" "mode" "0644" "0600"]
                [goneEntry] [fooEntry].

Definition frontend : Frontend := {|
  FEntry := entry;
  FEntry_Path := fun e => inr (name e);
  os_Open := fun file =>
    if String.eqb file "absent.mtree"
    then Some "open absent.mtree: no such file or directory" else None;
  ParseSpec := fun _ => inr (Some hierarchy);
  CollectUsedKeywords := fun _ => ["uid"; "gid"; "mode"; "sha1"];
  json_MarshalIndent := fun _ _ => None;
  tar_Copy := fun _ _ => None;
  tar_Close := fun _ _ => None;
  tar_Hierarchy := fun _ _ => inr (Some hierarchy);
  mtree_Walk := fun _ _ => inr (Some hierarchy);
  mtree_Update := fun root dh keywords =>
    match fst (@Update manifest platform root dh keywords world) with
    | inl err => (None, Some err)
    | inr result => (Some result, None)
    end;
  mtree_TarCheck := fun _ _ _ => (Some (checkResult "clean"), None);
  mtree_Check := fun root _ _ => (Some (checkResult root), None);
  renderBsd := fun _ => "";
  renderPath := fun _ => "";
  json_Encode := fun _ => inr "{}";
  Stdout_Write := fun _ => None
|}.

(** [gomtree -f manifest.mtree -p <root>] *)
Definition validating (root : string) : Flags :=
  mkFlags false "manifest.mtree" root "" "" false "" false false false
          false "bsd" false.

End Demo.

(* ================================================================== *)
(** * Notions used in the proofs *)
(* ================================================================== *)

(** No rune of the list holds the byte [c]. *)
Definition absentFrom (c : ascii) (runes : list (list ascii)) : bool :=
  forallb (fun r => negb (existsb (Ascii.eqb c) r)) runes.

Section UpdaterNotions.

Context {M : Manifest} {P : Platform}.

(** What a run of a loop adds to the world: invocations [made], all in
    the working directory, which stays. *)
Definition extends (w w' : World FS) (made : list Call) : Prop :=
  calls w' = calls w ++ made
  /\ cwd w' = cwd w
  /\ Forall (fun c => call_cwd c = cwd w) made.

(** The world after the invocations at [sites], one after the other. *)
Definition ran (w : World FS) (sites : list (string * string * string))
  : World FS :=
  mkWorld (cwd w)
          (snd (outcomes sites (cwd w) (fs w)))
          (calls w ++ fst (outcomes sites (cwd w) (fs w))).

(** The outcome of the outer loop: it stops with the error of the first
    [Path] call that fails, and runs to the end otherwise. *)
Definition loopOutcome (keywords : list string) (entries : list Entry)
           (curSet : option Entry) (result : Result Entry)
           (r : error + Result Entry) (made : list Call) : Prop :=
  map site made = planned keywords entries curSet
  /\ match r with
     | inl err => pathError entries = Some err
     | inr res =>
         pathError entries = None
         /\ Failures res = Failures result ++ failuresOf made
         /\ Missing res = Missing result
         /\ Extra res = Extra result
     end.

End UpdaterNotions.

Module GomtreeNotions.

Import Gomtree.

Section Verdicts.

Context {F : Frontend}.

(** A result with nothing to report. *)
Definition clean (r : Result FEntry) : Prop :=
  Failures r = [] /\ Missing r = [] /\ Extra r = [].

(** The exit status of a run that ends in state [s]. *)
Definition status (flow : Flow unit) (s : MainState) : Z :=
  runDeferred (isErr s) (deferred s)
              (match flow with Panics => 2%Z | _ => 0%Z end).

(** The deferred check of [isErr] is in place. *)
Definition Armed (s : MainState) : Prop :=
  In DeferExitIfErr (deferred s).

(** No checker has returned a clean result without error. *)
Definition NoClean (s : MainState) : Prop :=
  forall r, In (Checked (Some r) None) (events s) -> ~ clean r.

(** An exit with status 1 is due: it is deferred, or [isErr] is set
    and will be seen. *)
Definition Bad (s : MainState) : Prop :=
  (In DeferExit1 (deferred s) \/ (isErr s = true /\ Armed s))
  /\ NoClean s.

(** Nothing went wrong. *)
Definition Good (flow : Flow unit) (s : MainState) : Prop :=
  flow <> Panics
  /\ isErr s = false
  /\ ~ In DeferExit1 (deferred s)
  /\ (forall msg, ~ In (Logged msg) (events s))
  /\ (forall r, In (Checked (Some r) None) (events s) -> clean r).

Definition Verdict (flow : Flow unit) (s : MainState) : Prop :=
  Bad s \/ Good flow s.

(** The state of [main] before it calls a checker. *)
Definition Ready (s : MainState) : Prop :=
  isErr s = false /\ Armed s /\ ~ In DeferExit1 (deferred s)
  /\ events s = [].

(** A statement that ends the run leaves a verdict; one that falls
    through establishes [Post]. *)
Definition ends {A : Type} (r : Flow A * MainState)
           (Post : A -> MainState -> Prop) : Prop :=
  match r with
  | (Next a, s) => Post a s
  | (Returns, s) => Verdict Returns s
  | (Panics, s) => Verdict Panics s
  end.

Definition triple {A : Type} (Pre : MainState -> Prop) (m : Main A)
           (Post : A -> MainState -> Prop) : Prop :=
  forall s, Pre s -> ends (m s) Post.

(** A formatter writes nothing to the state: it returns or panics. *)
Definition stateless (f : Result FEntry -> Main string) : Prop :=
  forall r s, (exists out, f r s = (Next out, s)) \/ f r s = (Panics, s).

(** The state of [main] after the checker has returned [r] without
    error: either no exit is deferred and [P] holds of what has been
    looked at, or an exit is deferred and [r] is not clean. *)
Definition Tracking (r : Result FEntry) (P : Prop) (s : MainState)
  : Prop :=
  Armed s /\ isErr s = false
  /\ events s = [Checked (Some r) None]
  /\ ((~ In DeferExit1 (deferred s) /\ P)
      \/ (In DeferExit1 (deferred s) /\ ~ clean r)).

Definition Doomed (r : Result FEntry) (s : MainState) : Prop :=
  Armed s /\ isErr s = false
  /\ events s = [Checked (Some r) None]
  /\ In DeferExit1 (deferred s) /\ ~ clean r.

(** ** What [main] is asked to do, read off the flags and the answers
    of the library *)

(** Neither [-version] nor [-list-keywords] is given: [main] goes on to
    look at the other flags. *)
Definition working (fl : Flags) : Prop :=
  flVersion fl = false /\ flListKeywords fl = false.

(** The result format is one of the three that [formats] holds. *)
Definition knownFormat (fl : Flags) : Prop :=
  In (flResultFormat fl) ["bsd"; "json"; "path"].

(** The manifest that [main] works with: none without [-f] and with
    [-c]; otherwise the parsed file, or the error of opening or parsing
    it. *)
Definition manifestOf (fl : Flags) : error + DH :=
  if String.eqb (flFile fl) "" then inr None
  else if flCreate fl then inr None
  else match os_Open (flFile fl) with
       | Some err => inl err
       | None => ParseSpec (flFile fl)
       end.

(** The hierarchy of the tar archive: none without [-T]; otherwise what
    the streamer returns, or the first error of opening the archive, of
    reading it to the end, of closing the streamer or of the streamer
    itself. *)
Definition archiveOf (fl : Flags) : error + DH :=
  if String.eqb (flTar fl) "" then inr None
  else
    match (if String.eqb (flTar fl) "-" then None
           else os_Open (flTar fl)) with
    | Some err => inl err
    | None =>
        match (match tar_Copy (flTar fl) (currentKeywordsOf fl) with
               | Some err => if String.eqb err io_EOF then None else Some err
               | None => None
               end) with
        | Some err => inl err
        | None =>
            match tar_Close (flTar fl) (currentKeywordsOf fl) with
            | Some err => inl err
            | None => tar_Hierarchy (flTar fl) (currentKeywordsOf fl)
            end
        end
    end.

(** [-p <path>], "." by default. *)
Definition rootPathOf (fl : Flags) : string :=
  if String.eqb (flPath fl) "" then "." else flPath fl.

(** What the checker returns: [mtree.TarCheck] with [-T], [mtree.Check]
    on the root otherwise. *)
Definition checkOf (fl : Flags) (dh tdh : DH) : R * option error :=
  if String.eqb (flTar fl) ""
  then mtree_Check (rootPathOf fl) dh (currentKeywordsOf fl)
  else mtree_TarCheck tdh dh (currentKeywordsOf fl).

(** [main] has its result format and its manifest [dh]. *)
Definition loads (fl : Flags) (dh : DH) : Prop :=
  working fl /\ knownFormat fl /\ manifestOf fl = inr dh.

(** [main] is past [-list-used] and the test of [-u] with [-T], and has
    the hierarchy [tdh] of the archive. *)
Definition proceeds (fl : Flags) (dh tdh : DH) : Prop :=
  loads fl dh
  /\ flListUsedKeywords fl = false
  /\ (flUpdateAttributes fl = false \/ flTar fl = "")
  /\ archiveOf fl = inr tdh.

(** The invocation is a validation: nothing is created or updated, and
    there is a manifest or an archive to check. *)
Definition validates (fl : Flags) (dh tdh : DH) : Prop :=
  proceeds fl dh tdh
  /\ flCreate fl = false
  /\ (flUpdateAttributes fl = false \/ dh = None)
  /\ (dh <> None \/ tdh <> None).

(** A flag name that is looked up as it stands after the '-': it is not
    empty, does not start with '-' or '=', and holds no '='. *)
Definition flagName (name : string) : bool :=
  match name with
  | EmptyString => false
  | String c rest =>
      negb (Ascii.eqb c "-") && negb (Ascii.eqb c "=")
      && negb (Contains rest "=")
  end.

(** ** Notions used in the proofs *)

(** The state after [-T <tar file>]: the archive that was opened is to
    be closed. *)
Definition tarState (fl : Flags) (s : MainState) : MainState :=
  if String.eqb (flTar fl) "" then s
  else if String.eqb (flTar fl) "-" then s
  else match os_Open (flTar fl) with
       | Some _ => s
       | None => mkMainState (isErr s) (DeferClose :: deferred s) (events s)
       end.

(** An exit with status 1 is deferred. *)
Definition Due (s : MainState) : Prop := In DeferExit1 (deferred s).

(** A statement that takes no deferred exit back. *)
Definition keepsDue {A : Type} (m : Main A) : Prop :=
  forall s, Due s -> Due (snd (m s)).

(** A statement that defers an exit with status 1, however it ends. *)
Definition makesDue {A : Type} (m : Main A) : Prop :=
  forall s, Due (snd (m s)).

(** The state of [main] after its first statement, the deferred check
    of [isErr]. *)
Definition armed : MainState := mkMainState false [DeferExitIfErr] [].

End Verdicts.

End GomtreeNotions.

(* ================================================================== *)
(** * Notions used to state further properties *)
(* ================================================================== *)

(** The bytes of a string. *)
Definition bytesOf (s : string) : list ascii := list_ascii_of_string s.

(** The string ends in white space: [strings.TrimSpace] would shorten it
    at the end. *)
Definition endsInSpace (s : string) : bool :=
  match stripRune (map (@rev ascii) spaceRunes) (rev (bytesOf s)) with
  | Some _ => true
  | None => false
  end.

(** The string is white space from end to end: a sequence of code
    points for which [unicode.IsSpace] holds. *)
Definition whiteSpace (s : string) : Prop :=
  exists rs, Forall (fun r => In r spaceRunes) rs /\ bytesOf s = concat rs.

(** A platform on which the working directory cannot be determined, and
    which is the example platform otherwise. *)
Definition lostPlatform : Platform := {|
  FS := Demo.fileSystem;
  Getwd_err := fun _ => Some "getwd: no such file or directory";
  Chdir_to := @Chdir_to Demo.platform;
  UpdateKeywordFuncs := @UpdateKeywordFuncs Demo.platform
|}.

(** A byte that is a white-space rune by itself, or a comma. *)
Definition separates (c : ascii) : Prop :=
  c = ","%char \/ In [c] spaceRunes.

(** The example manifest, with a [Path] that fails to decode a name that
    ends in a lone backslash. *)
Definition endsInBackslash (s : string) : bool :=
  match rev (bytesOf s) with
  | c :: _ => Ascii.eqb c "\"%char
  | [] => false
  end.

Definition strictManifest : Manifest := {|
  Entry := Demo.entry;
  Entry_Type := Demo.type;
  Entry_Name := Demo.name;
  Entry_Keywords := Demo.keywords;
  Entry_Pos := Demo.pos;
  Entry_Path := fun e =>
    if endsInBackslash (Demo.name e)
    then inl "unvis: incomplete escape"
    else inr (Demo.name e);
  sortByPos := Demo.sortEntries
|}.

(** [foo uid=1000], then a name that does not decode, then [gone]. *)
Definition brokenHierarchy : DirectoryHierarchy Demo.entry :=
  mkDH [Demo.mkEntry 0 "foo" ["uid=1000"] RelativeType;
        Demo.mkEntry 1 "bar\" ["uid=0"] RelativeType;
        Demo.mkEntry 2 "gone" ["uid=0"] RelativeType].

(** [gone uid=0], a file that does not exist, then a name that does not
    decode. *)
Definition lossyHierarchy : DirectoryHierarchy Demo.entry :=
  mkDH [Demo.mkEntry 0 "gone" ["uid=0"] RelativeType;
        Demo.mkEntry 1 "bar\" ["uid=0"] RelativeType].
(* ================================================================== *)
(** * Properties of the keyval functions *)
(* ================================================================== *)

Section KeyValFacts.

Lemma inSlice_In (a : string) (l : list string) :
  inSlice a l = true <-> In a l.
Proof.
  induction l as [|b l IH]; simpl.
  - split; [discriminate | tauto].
  - destruct (String.eqb_spec b a) as [->|Hne].
    + split; auto.
    + rewrite IH. split; [auto | intros [H|H]; [contradiction | exact H]].
Qed.

Lemma inSlice_false (a : string) (l : list string) :
  inSlice a l = false <-> ~ In a l.
Proof.
  rewrite <- inSlice_In. destruct (inSlice a l); split; intro H;
    try reflexivity; try discriminate; try (intro; discriminate).
  exfalso. apply H. reflexivity.
Qed.

Lemma Keyword_without_eq (kv : KeyVal) :
  Contains kv "=" = false -> Keyword kv = "".
Proof. unfold Keyword. intros ->. reflexivity. Qed.

Lemma KeywordSuffix_without_eq (kv : KeyVal) :
  Contains kv "=" = false -> KeywordSuffix kv = "".
Proof. unfold KeywordSuffix. intros ->. reflexivity. Qed.

Lemma Value_without_eq (kv : KeyVal) :
  Contains kv "=" = false -> Value kv = "".
Proof. unfold Value. intros ->. reflexivity. Qed.

Lemma Keyword_nonempty_has_eq (kv : KeyVal) :
  Keyword kv <> "" -> Contains kv "=" = true.
Proof.
  intros H. destruct (Contains kv "=") eqn:E; [reflexivity|].
  exfalso. apply H. apply Keyword_without_eq. exact E.
Qed.

Lemma Keyword_emptyKV : Keyword emptyKV = "".
Proof. reflexivity. Qed.

(** [Has] returns the first keyval of the list whose keyword matches. *)
Lemma Has_find (kvs : KeyVals) (k : string) :
  Has kvs k =
  match find (fun kv => String.eqb (Keyword kv) k) kvs with
  | Some kv => kv
  | None => emptyKV
  end.
Proof.
  induction kvs as [|kv rest IH]; simpl; [reflexivity|].
  destruct (String.eqb (Keyword kv) k); [reflexivity | exact IH].
Qed.

Lemma Has_found (kvs : KeyVals) (k : string) :
  Has kvs k <> emptyKV -> In (Has kvs k) kvs /\ Keyword (Has kvs k) = k.
Proof.
  induction kvs as [|kv rest IH]; simpl; intros H.
  - contradiction H. reflexivity.
  - destruct (String.eqb_spec (Keyword kv) k) as [Hk|Hk].
    + split; [left; reflexivity | exact Hk].
    + destruct (IH H) as [Hin Hkw]. split; [right; exact Hin | exact Hkw].
Qed.

Lemma Has_absent (kvs : KeyVals) (k : string) :
  ~ hasKeyword kvs k -> Has kvs k = emptyKV.
Proof.
  induction kvs as [|kv rest IH]; simpl; intros H; [reflexivity|].
  destruct (String.eqb_spec (Keyword kv) k) as [Hk|Hk].
  - exfalso. apply H. exists kv. split; [left; reflexivity | exact Hk].
  - apply IH. intros [kv' [Hin Hkw]]. apply H. exists kv'.
    split; [right; exact Hin | exact Hkw].
Qed.

Lemma Has_present (kvs : KeyVals) (k : string) :
  hasKeyword kvs k -> k <> "" \/ ~ In emptyKV kvs -> Has kvs k <> emptyKV.
Proof.
  induction kvs as [|kv rest IH]; simpl; intros [kv' [Hin Hkw]] Hne.
  - contradiction.
  - destruct (String.eqb_spec (Keyword kv) k) as [Hk|Hk].
    + intros ->. destruct Hne as [Hne|Hne].
      * apply Hne. rewrite <- Hk. reflexivity.
      * apply Hne. left. reflexivity.
    + apply IH.
      * destruct Hin as [->|Hin]; [contradiction|].
        exists kv'. split; assumption.
      * destruct Hne as [Hne|Hne]; [left; exact Hne|].
        right. intro Hin'. apply Hne. right. exact Hin'.
Qed.

Lemma Has_app_present (l1 l2 : KeyVals) (k : string) :
  hasKeyword l1 k -> Has (l1 ++ l2) k = Has l1 k.
Proof.
  induction l1 as [|kv rest IH]; simpl; intros [kv' [Hin Hkw]].
  - contradiction.
  - destruct (String.eqb_spec (Keyword kv) k) as [Hk|Hk]; [reflexivity|].
    apply IH. destruct Hin as [->|Hin]; [contradiction|].
    exists kv'. split; assumption.
Qed.

Lemma Keyword_winner (eKVs : KeyVals) (kv : KeyVal) :
  Keyword (winner eKVs kv) = Keyword kv.
Proof.
  unfold winner.
  destruct (String.eqb_spec (Has eKVs (Keyword kv)) emptyKV) as [He|He];
    simpl; [reflexivity|].
  apply Has_found. exact He.
Qed.

Lemma map_Keyword_winner (eKVs l : KeyVals) :
  map Keyword (map (winner eKVs) l) = map Keyword l.
Proof.
  rewrite map_map. apply map_ext. intro kv. apply Keyword_winner.
Qed.

Lemma Has_map_winner (eKVs l : KeyVals) (k : string) :
  hasKeyword l k -> Has eKVs k <> emptyKV ->
  Has (map (winner eKVs) l) k = Has eKVs k.
Proof.
  induction l as [|kv rest IH]; simpl; intros [kv' [Hin Hkw]] He.
  - contradiction.
  - rewrite Keyword_winner.
    destruct (String.eqb_spec (Keyword kv) k) as [Hk|Hk].
    + unfold winner. rewrite Hk.
      destruct (String.eqb_spec (Has eKVs k) emptyKV) as [H0|H0];
        simpl; [contradiction | reflexivity].
    + apply IH; [|exact He].
      destruct Hin as [->|Hin]; [contradiction|].
      exists kv'. split; assumption.
Qed.

Lemma setIndex_middle (pre post : KeyVals) (x v : KeyVal) :
  setIndex (pre ++ x :: post) (List.length pre) v = pre ++ v :: post.
Proof.
  induction pre as [|p pre IH]; simpl; [reflexivity|].
  rewrite IH. reflexivity.
Qed.

Lemma setIndex_same (pre post : KeyVals) (x : KeyVal) :
  setIndex (pre ++ x :: post) (List.length pre) x = pre ++ x :: post.
Proof. apply setIndex_middle. Qed.

(** The first loop, run over the part [post] of [retList] that it has
    not visited yet. *)
Lemma mergeLoop_spec (eKVs post pre : KeyVals) (seen : list string) :
  mergeLoop eKVs (List.length post) (List.length pre) (pre ++ post) seen
  = (pre ++ map (winner eKVs) post, seen ++ map Keyword post).
Proof.
  revert pre seen.
  induction post as [|x post IH]; intros pre seen; simpl.
  - rewrite !app_nil_r. reflexivity.
  - rewrite nth_middle.
    assert (Hstep :
      (if negb (String.eqb (Has eKVs (Keyword x)) emptyKV)
       then setIndex (pre ++ x :: post) (List.length pre)
                     (Has eKVs (Keyword x))
       else pre ++ x :: post)
      = (pre ++ [winner eKVs x]) ++ post).
    { unfold winner.
      destruct (negb (String.eqb (Has eKVs (Keyword x)) emptyKV)).
      - rewrite setIndex_middle, <- app_assoc. reflexivity.
      - rewrite <- app_assoc. reflexivity. }
    rewrite Hstep.
    replace (S (List.length pre))
      with (List.length (pre ++ [winner eKVs x]))
      by (rewrite length_app; simpl; lia).
    rewrite IH. rewrite <- !app_assoc. reflexivity.
Qed.

Lemma appendLoop_spec (rest : KeyVals) (seen : list string)
      (retList : KeyVals) :
  appendLoop rest seen retList = retList ++ filter (unseen seen) rest.
Proof.
  revert retList.
  induction rest as [|ekv rest IH]; intros retList; simpl.
  - rewrite app_nil_r. reflexivity.
  - unfold unseen at 1.
    destruct (negb (inSlice (Keyword ekv) seen)).
    + rewrite IH, <- app_assoc. reflexivity.
    + apply IH.
Qed.

(** [MergeSet] as one pass over each argument. *)
Lemma MergeSet_spec (S E : list string) :
  MergeSet S E
  = map (winner E) S ++ filter (unseen (map Keyword S)) E.
Proof.
  unfold MergeSet, NewKeyVals. simpl. rewrite !map_id.
  pose proof (mergeLoop_spec E S [] []) as H. simpl in H.
  rewrite H. apply appendLoop_spec.
Qed.

Lemma hasKeyword_map (l : KeyVals) (k : string) :
  hasKeyword l k <-> In k (map Keyword l).
Proof.
  unfold hasKeyword. rewrite in_map_iff. split.
  - intros [kv [Hin Hk]]. exists kv. split; assumption.
  - intros [kv [Hk Hin]]. exists kv. split; assumption.
Qed.

End KeyValFacts.

Example Keyword_uid : Keyword "uid=0" = "uid".
Proof. reflexivity. Qed.

Example Keyword_xattr : Keyword "xattr.security.selinux=dW5j" = "xattr"
  /\ KeywordSuffix "xattr.security.selinux=dW5j" = "security.selinux"
  /\ Value "xattr.security.selinux=dW5j" = "dW5j".
Proof. repeat split. Qed.

Example Keyword_trimmed : Keyword "  mode=0644 " = "mode"
  /\ Value "  mode=0644 " = "0644".
Proof. repeat split. Qed.

Example MergeSet_S6 :
  MergeSet ["uid=0"; "gid=0"] ["type=file"; "mode=0644"; "uid=7"]
  = ["uid=7"; "gid=0"; "type=file"; "mode=0644"].
Proof. reflexivity. Qed.

(** ** The index expressions of [Keyword], [KeywordSuffix] and [Value] *)

Section IndexInRange.

Lemma Contains_cons (c : ascii) (s sep : string) :
  Contains (String c s) sep
  = if String.prefix sep (String c s) then true else Contains s sep.
Proof. reflexivity. Qed.

Lemma Cut_cons (c : ascii) (s sep : string) :
  Cut (String c s) sep
  = if String.prefix sep (String c s)
    then Some (EmptyString, drop (String.length sep) (String c s))
    else match Cut s sep with
         | Some (before, after) => Some (String c before, after)
         | None => None
         end.
Proof. reflexivity. Qed.

Lemma Contains_Cut (s sep : string) :
  Contains s sep = true -> exists p, Cut s sep = Some p.
Proof.
  induction s as [|c s IH].
  - simpl. destruct sep; intros H; [eauto | discriminate H].
  - rewrite Contains_cons, Cut_cons.
    destruct (String.prefix sep (String c s)); [eauto|].
    intros H. destruct (IH H) as [[before after] ->]. eauto.
Qed.

Lemma Contains_byte (c : ascii) (s : string) :
  Contains s (String c EmptyString) = true
  <-> In c (list_ascii_of_string s).
Proof.
  induction s as [|a s IH].
  - simpl. split; [discriminate | tauto].
  - rewrite Contains_cons. simpl.
    destruct (ascii_dec c a) as [->|Hne].
    + destruct s; simpl; split; auto.
    + rewrite IH. split; [auto|].
      intros [H|H]; [congruence | exact H].
Qed.

Lemma isPrefix_split (r l : list ascii) :
  isPrefix r l = true -> l = r ++ skipn (List.length r) l.
Proof.
  revert l. induction r as [|a r IH]; intros l; simpl; [reflexivity|].
  destruct l as [|b l]; [discriminate|].
  intros H. apply andb_true_iff in H. destruct H as [Hab Hr].
  apply Ascii.eqb_eq in Hab. subst b. f_equal. apply IH. exact Hr.
Qed.

Lemma stripRune_split (runes : list (list ascii)) (l l' : list ascii) :
  stripRune runes l = Some l' -> exists r, In r runes /\ l = r ++ l'.
Proof.
  induction runes as [|r runes IH]; simpl; [discriminate|].
  destruct (isPrefix r l) eqn:Hp.
  - intros H. inversion H; subst. exists r. split; [left; reflexivity|].
    apply isPrefix_split. exact Hp.
  - intros H. destruct (IH H) as [r' [Hin Hl]]. exists r'.
    split; [right; exact Hin | exact Hl].
Qed.

(** Trimming drops none of the bytes that occur in no trimmed rune. *)
Lemma trimLeftFuel_keeps (c : ascii) (runes : list (list ascii))
      (fuel : nat) :
  (forall r, In r runes -> ~ In c r) ->
  forall l, In c l -> In c (trimLeftFuel fuel runes l).
Proof.
  intros Hrunes. induction fuel as [|fuel IH]; intros l Hin; simpl.
  - exact Hin.
  - destruct (stripRune runes l) as [l'|] eqn:Hs; [|exact Hin].
    apply IH. destruct (stripRune_split _ _ _ Hs) as [r [Hr ->]].
    apply in_app_or in Hin. destruct Hin as [Hin|Hin]; [|exact Hin].
    exfalso. exact (Hrunes r Hr Hin).
Qed.

Lemma absentFrom_spec (c : ascii) (runes : list (list ascii)) :
  absentFrom c runes = true -> forall r, In r runes -> ~ In c r.
Proof.
  unfold absentFrom. rewrite forallb_forall. intros H r Hr Hin.
  specialize (H r Hr). apply negb_true_iff in H.
  assert (existsb (Ascii.eqb c) r = true) as Hex.
  { apply existsb_exists. exists c. split; [exact Hin|].
    apply Ascii.eqb_refl. }
  congruence.
Qed.

Lemma TrimSpace_keeps (c : ascii) (s : string) :
  absentFrom c spaceRunes = true ->
  In c (list_ascii_of_string s) ->
  In c (list_ascii_of_string (TrimSpace s)).
Proof.
  intros Habs Hin. unfold TrimSpace, trimRight, trimLeft.
  rewrite list_ascii_of_string_of_list_ascii.
  apply in_rev. rewrite rev_involutive.
  apply trimLeftFuel_keeps.
  - intros r Hr Hc. apply in_map_iff in Hr. destruct Hr as [r0 [<- Hr0]].
    apply in_rev in Hc.
    exact (absentFrom_spec c spaceRunes Habs r0 Hr0 Hc).
  - apply in_rev. rewrite rev_involutive.
    apply trimLeftFuel_keeps; [apply absentFrom_spec; exact Habs|].
    exact Hin.
Qed.

(** Where [Keyword], [KeywordSuffix] and [Value] index the result of
    [SplitN], the result has two elements: no index is out of range. *)
Lemma SplitN2_index_in_range :
  (forall kv, Contains kv "=" = true ->
              List.length (SplitN2 (TrimSpace kv) "=") = 2%nat)
  /\ (forall chunks, Contains chunks "." = true ->
                     List.length (SplitN2 chunks ".") = 2%nat).
Proof.
  split.
  - intros kv H. apply Contains_byte in H.
    apply (TrimSpace_keeps "="%char) in H; [|reflexivity].
    apply Contains_byte in H.
    destruct (Contains_Cut _ _ H) as [[before after] Hcut].
    unfold SplitN2. rewrite Hcut. reflexivity.
  - intros chunks H.
    destruct (Contains_Cut _ _ H) as [[before after] Hcut].
    unfold SplitN2. rewrite Hcut. reflexivity.
Qed.

End IndexInRange.

(** ** Precedence in [MergeSet] *)

Section MergeSetClaims.

Lemma filter_unseen_In (S E : KeyVals) (kv : KeyVal) :
  In kv (filter (unseen (map Keyword S)) E)
  <-> In kv E /\ ~ hasKeyword S (Keyword kv).
Proof.
  rewrite filter_In. unfold unseen. rewrite negb_true_iff, inSlice_false.
  rewrite hasKeyword_map. reflexivity.
Qed.

Lemma winner_unshared (E : KeyVals) (kv : KeyVal) :
  ~ hasKeyword E (Keyword kv) -> winner E kv = kv.
Proof.
  intros H. unfold winner. rewrite (Has_absent _ _ H). reflexivity.
Qed.

(** Where the entry does win.  When the set list [S] and the entry
    list [E] both hold a keyval for keyword [k], and [k] is not empty or
    [E] holds no empty string, [Has] finds in [MergeSet S E] the keyval
    that it finds in [E].  A keyval of [S] whose [Keyword] is not that
    of a keyval of [E] keeps its place in the result.  The result is the
    [length S] places of [S] followed by the appended keyvals, which are
    those of [E] whose [Keyword] is not that of a keyval of [S]. *)
Lemma MergeSet_precedence (S E : list string) :
  (forall k, hasKeyword S k -> hasKeyword E k ->
             k <> "" \/ ~ In emptyKV E ->
             Has (MergeSet S E) k = Has E k)
  /\ (forall i kv, nth_error S i = Some kv ->
                   ~ hasKeyword E (Keyword kv) ->
                   nth_error (MergeSet S E) i = Some kv)
  /\ (exists retained appended,
         MergeSet S E = retained ++ appended
         /\ List.length retained = List.length S
         /\ forall kv, In kv appended
                       <-> In kv E /\ ~ hasKeyword S (Keyword kv)).
Proof.
  rewrite MergeSet_spec. split; [|split].
  - intros k HS HE Hne.
    pose proof (Has_present E k HE Hne) as Hfound.
    rewrite Has_app_present.
    + apply Has_map_winner; assumption.
    + destruct HS as [kv [Hin Hk]]. exists (winner E kv). split.
      * apply in_map. exact Hin.
      * rewrite Keyword_winner. exact Hk.
  - intros i kv Hnth Hno.
    rewrite nth_error_app1.
    + rewrite nth_error_map. unfold KeyVal in *. rewrite Hnth. simpl.
      rewrite (winner_unshared _ _ Hno). reflexivity.
    + rewrite length_map. apply nth_error_Some.
      unfold KeyVal in *. rewrite Hnth. discriminate.
  - exists (map (winner E) S), (filter (unseen (map Keyword S)) E).
    split; [reflexivity|]. split; [apply length_map|].
    intro kv. apply filter_unseen_In.
Qed.

(** The lemma at [/set uid=0 gid=0] and an entry with
    [type=file mode=0644 uid=7]. *)
Lemma MergeSet_precedence_witness :
  Has (MergeSet ["uid=0"; "gid=0"] ["type=file"; "mode=0644"; "uid=7"])
      "uid" = "uid=7"
  /\ nth_error
       (MergeSet ["uid=0"; "gid=0"] ["type=file"; "mode=0644"; "uid=7"]) 1
     = Some "gid=0".
Proof.
  destruct (MergeSet_precedence ["uid=0"; "gid=0"]
                                ["type=file"; "mode=0644"; "uid=7"])
    as [Hwin [Hkeep _]].
  split.
  - apply (Hwin "uid").
    + exists "uid=0". split; [simpl; auto | reflexivity].
    + exists "uid=7". split; [simpl; auto | reflexivity].
    + left. discriminate.
  - apply (Hkeep 1%nat "gid=0"); [reflexivity|].
    intros [kv [Hin Hk]]. simpl in Hin.
    destruct Hin as [<-|[<-|[<-|[]]]]; discriminate Hk.
Defined.

(** The answer of [Has] for "not found" is the empty string, and
    [MergeSet] tests for it: when the entry list holds an empty string,
    [Has] returns it for the empty keyword, [MergeSet] takes that answer
    for "not found" and keeps the keyval of the set. *)
Lemma MergeSet_precedence_empty_keyval :
  hasKeyword ["nochange"] ""
  /\ hasKeyword [""; "optional"] ""
  /\ Has (MergeSet ["nochange"] [""; "optional"]) ""
     <> Has [""; "optional"] "".
Proof.
  split; [|split].
  - exists "nochange". split; [simpl; auto | reflexivity].
  - exists "optional". split; [simpl; auto | reflexivity].
  - discriminate.
Qed.

Lemma filter_keeps_distinct_keywords (keep : KeyVal -> bool)
      (kvs : KeyVals) :
  NoDup (map Keyword kvs) -> NoDup (map Keyword (filter keep kvs)).
Proof.
  intros Hdistinct. induction kvs as [|kv rest IH]; simpl in *.
  - constructor.
  - apply NoDup_cons_iff in Hdistinct. destruct Hdistinct as [Hfresh Hrest].
    destruct (keep kv); simpl; [|exact (IH Hrest)].
    apply NoDup_cons_iff. split; [|exact (IH Hrest)].
    intro Hin. apply Hfresh. apply in_map_iff in Hin.
    destruct Hin as [kv' [Hk Hin]]. apply filter_In in Hin.
    apply in_map_iff. exists kv'. tauto.
Qed.

(** With keywords compared the way [MergeSet] compares them, by
    [Keyword], which drops the suffix of an xattr, the merge of two
    lists without repeated keywords has no repeated keyword. *)
Lemma MergeSet_NoDup (S E : list string) :
  NoDup (map Keyword S) -> NoDup (map Keyword E) ->
  NoDup (map Keyword (MergeSet S E)).
Proof.
  intros HS HE. rewrite MergeSet_spec, map_app, map_Keyword_winner.
  apply NoDup_app;
    [exact HS | apply filter_keeps_distinct_keywords; exact HE |].
  intros k HinS HinE. rewrite in_map_iff in HinE.
  destruct HinE as [kv [Hk Hin]]. apply filter_unseen_In in Hin.
  destruct Hin as [_ Hno]. apply Hno. rewrite hasKeyword_map, Hk.
  exact HinS.
Qed.

(** C1: a keyval of the set whose keyword the entry does not have is
    not always retained.  [MergeSet] compares keyvals by [Keyword],
    which is the empty string for every keyword that has no value:
    [nochange] of the set and [optional] of the entry are taken for the
    same keyword, the entry's [optional] replaces the set's [nochange],
    which is lost, and is not appended for itself.  The entry did not
    hold [nochange]; the result does not hold it either, and [Has],
    asked for the keyword of [nochange], answers [optional]. *)
Theorem MergeSet_drops_valueless_keyword :
  MergeSet ["nochange"] ["optional"] = ["optional"]
  /\ MergeSet ["uid=0"; "nochange"] ["mode=0644"; "optional"]
     = ["uid=0"; "optional"; "mode=0644"]
  /\ ~ In "nochange"
         (MergeSet ["uid=0"; "nochange"] ["mode=0644"; "optional"])
  /\ ~ In "nochange" ["mode=0644"; "optional"]
  /\ Keyword "nochange" = "" /\ Keyword "optional" = ""
  /\ Has (MergeSet ["uid=0"; "nochange"] ["mode=0644"; "optional"])
         (Keyword "nochange")
     = "optional".
Proof.
  assert (MergeSet ["uid=0"; "nochange"] ["mode=0644"; "optional"]
          = ["uid=0"; "optional"; "mode=0644"]) as Hmerge
      by (vm_compute; reflexivity).
  split; [vm_compute; reflexivity|]. split; [exact Hmerge|].
  rewrite Hmerge.
  split; [intros [H|[H|[H|[]]]]; discriminate H|].
  split; [intros [H|[H|[]]]; discriminate H|].
  split; [vm_compute; reflexivity|]. split; vm_compute; reflexivity.
Qed.

(** C6: [MergeSet] compares keyvals by [Keyword], which is "xattr" for
    every extended attribute.  The attribute of the entry replaces a
    different attribute of the set, and replaces each of two attributes
    of the set, so that it occurs twice. *)
Theorem MergeSet_xattr_collision :
  MergeSet ["xattr.a.b=x"] ["xattr.c.d=y"] = ["xattr.c.d=y"]
  /\ MergeSet ["xattr.a.b=x"; "xattr.c.d=y"] ["xattr.e.f=z"]
     = ["xattr.e.f=z"; "xattr.e.f=z"]
  /\ Keyword "xattr.a.b=x" = Keyword "xattr.c.d=y"
  /\ KeywordSuffix "xattr.a.b=x" <> KeywordSuffix "xattr.c.d=y".
Proof. repeat split. discriminate. Qed.

End MergeSetClaims.

(** ** Keyvals without a value *)

Section ValuelessClaims.

Lemma keywordSelector_In (keyval words : list string) (kv : string) :
  In kv (keywordSelector keyval words)
  <-> In kv keyval /\ In (Keyword kv) words.
Proof.
  induction keyval as [|x rest IH]; simpl; [tauto|].
  destruct (inSlice (Keyword x) words) eqn:Hx; simpl; rewrite IH.
  - apply inSlice_In in Hx. split.
    + intros [<-|[H1 H2]]; auto.
    + intros [[<-|H1] H2]; auto.
  - apply inSlice_false in Hx. split.
    + intros [H1 H2]; auto.
    + intros [[<-|H1] H2]; [contradiction | auto].
Qed.

(** C10: for a keyval string without '=', [Keyword], [KeywordSuffix]
    and [Value] return the empty string.  Hence, for a keyword that is
    not empty, [Has] returns either its "not found" answer, the empty
    string, or a keyval with '='; and [keywordSelector] with words that
    are not empty selects only keyvals with '='. *)
Theorem valueless_keyvals :
  (forall kv, Contains kv "=" = false ->
              Keyword kv = "" /\ KeywordSuffix kv = "" /\ Value kv = "")
  /\ (forall kvs k, k <> "" -> Has kvs k <> emptyKV ->
                    Contains (Has kvs k) "=" = true)
  /\ (forall keyval words kv, ~ In "" words ->
                              In kv (keywordSelector keyval words) ->
                              Contains kv "=" = true).
Proof.
  split; [|split].
  - intros kv H. split; [|split].
    + apply Keyword_without_eq; exact H.
    + apply KeywordSuffix_without_eq; exact H.
    + apply Value_without_eq; exact H.
  - intros kvs k Hk Hfound. apply Keyword_nonempty_has_eq.
    destruct (Has_found kvs k Hfound) as [_ ->]. exact Hk.
  - intros keyval words kv Hwords Hin.
    apply keywordSelector_In in Hin. destruct Hin as [_ Hin].
    apply Keyword_nonempty_has_eq. intros Hempty. apply Hwords.
    rewrite <- Hempty. exact Hin.
Qed.

(** The theorem at the bare directive [nochange]. *)
Lemma valueless_keyvals_witness :
  (Keyword "nochange" = "" /\ KeywordSuffix "nochange" = ""
   /\ Value "nochange" = "")
  /\ Contains (Has ["nochange"; "uid=0"] "uid") "=" = true
  /\ Contains "uid=0" "=" = true.
Proof.
  destruct valueless_keyvals as [Hbare [Hhas Hsel]].
  split; [|split].
  - apply Hbare. reflexivity.
  - apply Hhas; discriminate.
  - apply (Hsel ["nochange"; "uid=0"] ["uid"; "gid"]).
    + simpl. intros [H|[H|[]]]; discriminate H.
    + simpl. auto.
Defined.

End ValuelessClaims.

(* ================================================================== *)
(** * Properties of the updater *)
(* ================================================================== *)

Section UpdaterFacts.

Context {M : Manifest} {P : Platform}.

Lemma failuresOf_app (a b : list Call) :
  failuresOf (a ++ b) = failuresOf a ++ failuresOf b.
Proof. unfold failuresOf. apply flat_map_app. Qed.

Lemma sitesOf_app (keywords : list string) (pathname : string)
      (a b : KeyVals) :
  sitesOf keywords pathname (a ++ b)
  = sitesOf keywords pathname a ++ sitesOf keywords pathname b.
Proof. unfold sitesOf. rewrite filter_app, map_app. reflexivity. Qed.

Lemma extends_refl (w : World FS) : extends w w [].
Proof.
  split; [rewrite app_nil_r; reflexivity|]. split; [reflexivity|].
  constructor.
Qed.

Lemma extends_trans (w1 w2 w3 : World FS) (m1 m2 : list Call) :
  extends w1 w2 m1 -> extends w2 w3 m2 -> extends w1 w3 (m1 ++ m2).
Proof.
  intros [Hc1 [Hd1 Hf1]] [Hc2 [Hd2 Hf2]]. split; [|split].
  - rewrite Hc2, Hc1, app_assoc. reflexivity.
  - rewrite Hd2. exact Hd1.
  - apply Forall_app. split; [exact Hf1|].
    rewrite Hd1 in Hf2. exact Hf2.
Qed.

Lemma invoke_run (ukFunc : UpdateKeywordFunc FS)
      (pathname keyword value : string) (w : World FS) :
  extends w (snd (invoke ukFunc pathname keyword value w))
          [mkCall (cwd w) pathname keyword value
                  (fst (invoke ukFunc pathname keyword value w))].
Proof.
  unfold invoke.
  destruct (ukFunc pathname value (cwd w) (fs w)) as [err fs'].
  split; [reflexivity|]. split; [reflexivity|].
  constructor; [reflexivity | constructor].
Qed.

(** The inner loop invokes the update function of every selected keyval,
    in order, whatever the earlier invocations returned, and appends one
    failure for each invocation that returned an error. *)
Lemma updateKeyVals_run (keywords : list string) (pathname : string)
      (kvs : KeyVals) :
  forall (failures : list Failure) (w : World FS),
  exists made,
    extends w (snd (updateKeyVals keywords pathname kvs failures w)) made
    /\ map site made = sitesOf keywords pathname kvs
    /\ fst (updateKeyVals keywords pathname kvs failures w)
       = failures ++ failuresOf made.
Proof.
  induction kvs as [|kv rest IH]; intros failures w.
  - exists []. simpl. rewrite app_nil_r.
    split; [apply extends_refl | split; reflexivity].
  - simpl. unfold sitesOf, selected. simpl.
    destruct (inSlice (Keyword kv) keywords) eqn:Hin; simpl.
    2: { apply IH. }
    destruct (UpdateKeywordFuncs (Keyword kv)) as [ukFunc|] eqn:Hreg; simpl.
    2: { apply IH. }
    pose proof (invoke_run ukFunc pathname (Keyword kv) (Value kv) w) as Hi.
    destruct (invoke ukFunc pathname (Keyword kv) (Value kv) w)
      as [err w1] eqn:Hinv.
    simpl in Hi.
    destruct err as [msg|].
    + destruct (IH (failures ++ [mkFailure pathname (Keyword kv) "" msg]) w1)
        as [made [Hext [Hsites Hfail]]].
      exists (mkCall (cwd w) pathname (Keyword kv) (Value kv) (Some msg)
                :: made).
      split; [exact (extends_trans _ _ _ _ _ Hi Hext)|].
      split.
      * simpl. unfold site at 1. simpl. f_equal. exact Hsites.
      * rewrite Hfail. simpl. rewrite <- app_assoc. reflexivity.
    + destruct (IH failures w1) as [made [Hext [Hsites Hfail]]].
      exists (mkCall (cwd w) pathname (Keyword kv) (Value kv) None :: made).
      split; [exact (extends_trans _ _ _ _ _ Hi Hext)|].
      split.
      * simpl. unfold site at 1. simpl. f_equal. exact Hsites.
      * rewrite Hfail. reflexivity.
Qed.

(** The step of the outer loop at a relative or full entry [e]. *)
Ltac entry_step keywords e rest curSet result w IH :=
  destruct (Entry_Path e) as [err|pathname];
  [ exists []; split; [apply extends_refl | split; reflexivity]
  | destruct (updateKeyVals_run keywords pathname
                (NewKeyVals (toCheck curSet e)) (Failures result) w)
      as [m1 [Hext1 [Hsites1 Hfail1]]];
    destruct (updateKeyVals keywords pathname
                (NewKeyVals (toCheck curSet e)) (Failures result) w)
      as [failures w1];
    simpl in Hext1, Hfail1;
    destruct (IH curSet
                 (mkResult failures (Missing result) (Extra result)) w1)
      as [m2 [Hext2 [Hpl Hout]]];
    exists (m1 ++ m2);
    split; [exact (extends_trans _ _ _ _ _ Hext1 Hext2)|];
    split;
    [ rewrite map_app, Hsites1, Hpl; unfold NewKeyVals;
      rewrite map_id; reflexivity
    | destruct (fst (updateEntries keywords rest curSet
                       (mkResult failures (Missing result) (Extra result))
                       w1)) as [err|res]; [exact Hout|];
      destruct Hout as [Hpe [Hf [Hm Hx]]]; simpl in Hf, Hm, Hx;
      split; [exact Hpe|]; split; [|split; assumption];
      rewrite Hf, Hfail1, failuresOf_app, app_assoc; reflexivity ] ].

Lemma updateEntries_run (keywords : list string) (entries : list Entry) :
  forall (curSet : option Entry) (result : Result Entry) (w : World FS),
  exists made,
    extends w (snd (updateEntries keywords entries curSet result w)) made
    /\ loopOutcome keywords entries curSet result
         (fst (updateEntries keywords entries curSet result w)) made.
Proof.
  induction entries as [|e rest IH]; intros curSet result w.
  - exists []. split; [apply extends_refl|]. unfold loopOutcome. simpl.
    rewrite app_nil_r. repeat split.
  - simpl. unfold loopOutcome. simpl.
    destruct (Entry_Type e); try apply IH.
    + entry_step keywords e rest curSet result w IH.
    + entry_step keywords e rest curSet result w IH.
Qed.

Lemma Chdir_calls (dir : string) (w : World FS) :
  calls (snd (Chdir dir w)) = calls w.
Proof. unfold Chdir. destruct (Chdir_to dir w); reflexivity. Qed.

Lemma Update_deferred_calls (curDir : error + string) (w : World FS) :
  calls (Update_deferred curDir w) = calls w.
Proof. destruct curDir; simpl; [reflexivity | apply Chdir_calls]. Qed.

(** The run of [Update_body]: nothing is invoked unless the root was
    entered; then the loop runs in that directory over the sorted
    entries. *)
Lemma Update_body_run (root : string) (dh : DirectoryHierarchy Entry)
      (keywords : list string) (w : World FS) :
  exists made,
    calls (snd (Update_body root dh keywords w)) = calls w ++ made
    /\ match Chdir_to root w with
       | inl err =>
           made = [] /\ Update_body root dh keywords w = (inl err, w)
       | inr d =>
           cwd (snd (Update_body root dh keywords w)) = d
           /\ Forall (fun c => call_cwd c = d) made
           /\ loopOutcome keywords (sortByPos (Entries dh)) None zeroResult
                          (fst (Update_body root dh keywords w)) made
       end.
Proof.
  unfold Update_body, Chdir.
  destruct (Chdir_to root w) as [err|d].
  - exists []. simpl. rewrite app_nil_r. repeat split.
  - destruct (updateEntries_run keywords (sortByPos (Entries dh)) None
                zeroResult (mkWorld d (fs w) (calls w)))
      as [made [[Hc [Hd Hf]] Hout]].
    exists made. simpl in Hc, Hd, Hf.
    split; [exact Hc|]. split; [exact Hd|]. split; [exact Hf | exact Hout].
Qed.

(** The run of [Update]. *)
Lemma Update_run (root : string) (dh : DirectoryHierarchy Entry)
      (keywords : list string) (w : World FS) :
  exists made,
    calls (snd (Update root dh keywords w)) = calls w ++ made
    /\ map site made
       = match Chdir_to root w with
         | inl _ => []
         | inr _ => planned keywords (sortByPos (Entries dh)) None
         end
    /\ match fst (Update root dh keywords w) with
       | inl err => updateError root dh w = Some err
       | inr result =>
           updateError root dh w = None
           /\ Failures result = failuresOf made
           /\ Missing result = [] /\ Extra result = []
       end.
Proof.
  destruct (Update_body_run root dh keywords w) as [made [Hc Hrun]].
  exists made. unfold Update, updateError.
  destruct (Update_body root dh keywords w) as [r w'] eqn:Hbody.
  simpl in *. rewrite Update_deferred_calls.
  split; [exact Hc|].
  destruct (Chdir_to root w) as [err|d].
  - destruct Hrun as [-> Heq]. inversion Heq; subst.
    split; reflexivity.
  - destruct Hrun as [_ [_ [Hpl Hout]]]. split; [exact Hpl|].
    destruct r as [err|res]; [exact Hout|].
    destruct Hout as [Hpe [Hf [Hm Hx]]]. repeat split; assumption.
Qed.

(** ** The run of [Update], invocation by invocation *)

Lemma outcomes_app (a b : list (string * string * string))
      (dir : string) :
  forall f,
    outcomes (a ++ b) dir f
    = (fst (outcomes a dir f)
         ++ fst (outcomes b dir (snd (outcomes a dir f))),
       snd (outcomes b dir (snd (outcomes a dir f)))).
Proof.
  induction a as [|[[p k] v] a IH]; intros f; simpl.
  - destruct (outcomes b dir f); reflexivity.
  - destruct (UpdateKeywordFuncs k) as [ukFunc|]; [|apply IH].
    destruct (ukFunc p v dir f) as [err f1].
    rewrite IH. destruct (outcomes a dir f1) as [m1 f2]. reflexivity.
Qed.

Lemma ran_nil (w : World FS) : ran w [] = w.
Proof. destruct w. unfold ran. simpl. rewrite app_nil_r. reflexivity. Qed.

Lemma ran_app (w : World FS) (a b : list (string * string * string)) :
  ran (ran w a) b = ran w (a ++ b).
Proof.
  unfold ran. simpl. rewrite outcomes_app. simpl.
  rewrite app_assoc. reflexivity.
Qed.

Lemma outcomes_cons (ukFunc : UpdateKeywordFunc FS)
      (p k v : string) (rest : list (string * string * string))
      (dir : string) (f : FS) :
  UpdateKeywordFuncs k = Some ukFunc ->
  outcomes ((p, k, v) :: rest) dir f
  = (mkCall dir p k v (fst (ukFunc p v dir f))
       :: fst (outcomes rest dir (snd (ukFunc p v dir f))),
     snd (outcomes rest dir (snd (ukFunc p v dir f)))).
Proof.
  intros Hreg. simpl. rewrite Hreg.
  destruct (ukFunc p v dir f) as [err f1]. simpl.
  destruct (outcomes rest dir f1) as [made f2]. reflexivity.
Qed.

Lemma sitesOf_cons (keywords : list string) (pathname : string)
      (kv : KeyVal) (rest : KeyVals) :
  sitesOf keywords pathname (kv :: rest)
  = if selected keywords kv
    then (pathname, Keyword kv, Value kv) :: sitesOf keywords pathname rest
    else sitesOf keywords pathname rest.
Proof.
  unfold sitesOf. simpl. destruct (selected keywords kv); reflexivity.
Qed.

(** The inner loop is the replay of its sites: the failures that it
    appends are those of the errors that the update functions return. *)
Lemma updateKeyVals_outcomes (keywords : list string) (pathname : string)
      (kvs : KeyVals) :
  forall (failures : list Failure) (w : World FS),
    updateKeyVals keywords pathname kvs failures w
    = (failures
         ++ failuresOf (fst (outcomes (sitesOf keywords pathname kvs)
                                      (cwd w) (fs w))),
       ran w (sitesOf keywords pathname kvs)).
Proof.
  induction kvs as [|kv rest IH]; intros failures w.
  - simpl. rewrite app_nil_r. unfold sitesOf. simpl. rewrite ran_nil.
    reflexivity.
  - cbn [updateKeyVals]. rewrite sitesOf_cons. unfold selected.
    destruct (inSlice (Keyword kv) keywords); cbn [negb andb];
      [|apply IH].
    destruct (UpdateKeywordFuncs (Keyword kv)) as [ukFunc|] eqn:Hreg;
      [|apply IH].
    unfold ran. rewrite (outcomes_cons ukFunc _ _ _ _ _ _ Hreg).
    unfold invoke.
    destruct (ukFunc pathname (Value kv) (cwd w) (fs w)) as [err f1].
    cbn [fst snd].
    destruct err as [msg|]; rewrite IH; unfold ran; cbn;
      rewrite <- !app_assoc; reflexivity.
Qed.

(** The outer loop is the replay of the planned sites; it returns the
    error of the first [Path] call that fails, and the result with the
    failures of the replay otherwise. *)
Lemma updateEntries_outcomes (keywords : list string)
      (entries : list Entry) :
  forall (curSet : option Entry) (result : Result Entry) (w : World FS),
    updateEntries keywords entries curSet result w
    = (match pathError entries with
       | Some err => inl err
       | None =>
           inr (mkResult
                  (Failures result
                     ++ failuresOf
                          (fst (outcomes (planned keywords entries curSet)
                                         (cwd w) (fs w))))
                  (Missing result) (Extra result))
       end,
       ran w (planned keywords entries curSet)).
Proof.
  induction entries as [|e rest IH]; intros curSet result w.
  - simpl. rewrite app_nil_r, ran_nil. destruct result; reflexivity.
  - simpl.
    destruct (Entry_Type e); try apply IH;
      (destruct (Entry_Path e) as [err|pathname];
       [rewrite ran_nil; reflexivity|];
       rewrite updateKeyVals_outcomes, IH; unfold NewKeyVals;
       rewrite map_id, <- ran_app; simpl;
       rewrite outcomes_app; simpl;
       rewrite failuresOf_app, app_assoc; reflexivity).
Qed.

(** [Update] is the replay of the planned sites in the root, when it
    enters the root, and invokes nothing otherwise. *)
Lemma Update_outcomes (root : string) (dh : DirectoryHierarchy Entry)
      (keywords : list string) (w : World FS) :
  match Chdir_to root w with
  | inl err => Update_body root dh keywords w = (inl err, w)
  | inr d =>
      Update_body root dh keywords w
      = (match pathError (sortByPos (Entries dh)) with
         | Some err => inl err
         | None =>
             inr (mkResult
                    (failuresOf
                       (fst (outcomes
                               (planned keywords (sortByPos (Entries dh))
                                        None)
                               d (fs w))))
                    [] [])
         end,
         ran (mkWorld d (fs w) (calls w))
             (planned keywords (sortByPos (Entries dh)) None))
  end.
Proof.
  unfold Update_body, Chdir.
  destruct (Chdir_to root w) as [err|d]; [reflexivity|].
  rewrite updateEntries_outcomes. reflexivity.
Qed.

Lemma Update_deferred_fs (curDir : error + string) (w : World FS) :
  fs (Update_deferred curDir w) = fs w.
Proof.
  destruct curDir; simpl; [reflexivity|]. unfold Chdir.
  destruct (Chdir_to s w); reflexivity.
Qed.

Lemma sitesOf_selected (keywords : list string) (pathname : string)
      (kvs : KeyVals) (s : string * string * string) :
  In s (sitesOf keywords pathname kvs) ->
  In (snd (fst s)) keywords /\ UpdateKeywordFuncs (snd (fst s)) <> None.
Proof.
  unfold sitesOf. rewrite in_map_iff. intros [kv [<- Hin]].
  apply filter_In in Hin. destruct Hin as [_ Hsel]. unfold selected in Hsel.
  apply andb_true_iff in Hsel. destruct Hsel as [Hk Hreg]. simpl.
  split; [apply inSlice_In; exact Hk|].
  destruct (UpdateKeywordFuncs (Keyword kv)); [discriminate | discriminate].
Qed.

Lemma planned_selected (keywords : list string) (entries : list Entry) :
  forall (curSet : option Entry) (s : string * string * string),
  In s (planned keywords entries curSet) ->
  In (snd (fst s)) keywords /\ UpdateKeywordFuncs (snd (fst s)) <> None.
Proof.
  induction entries as [|e rest IH]; intros curSet s; simpl; [tauto|].
  destruct (Entry_Type e); try apply IH;
    (destruct (Entry_Path e) as [err|pathname]; [simpl; tauto|];
     intros Hin; apply in_app_or in Hin; destruct Hin as [Hin|Hin];
     [exact (sitesOf_selected _ _ _ _ Hin) | exact (IH _ _ Hin)]).
Qed.

Lemma MergeSet_incl (S E : list string) (kv : KeyVal) :
  In kv (MergeSet S E) -> In kv (S ++ E).
Proof.
  rewrite MergeSet_spec. intros H. apply in_app_or in H.
  apply in_or_app. destruct H as [H|H].
  - apply in_map_iff in H. destruct H as [x [<- Hx]]. unfold winner.
    destruct (String.eqb_spec (Has E (Keyword x)) emptyKV) as [He|He]; simpl.
    + left. exact Hx.
    + right. apply Has_found. exact He.
  - right. apply filter_In in H. apply H.
Qed.

(** What the merge of the active set with the keyvals of an entry
    selects is among what [Update] selects from [toCheck]. *)
Lemma effective_sites_invoked (keywords : list string) (pathname : string)
      (curSet : option Entry) (e : Entry) (s : string * string * string) :
  In s (sitesOf keywords pathname (effectiveKeyVals_spec curSet e)) ->
  In s (sitesOf keywords pathname (toCheck curSet e)).
Proof.
  unfold sitesOf. rewrite !in_map_iff. intros [kv [Hs Hin]].
  exists kv. split; [exact Hs|].
  apply filter_In in Hin. destruct Hin as [Hin Hsel].
  apply filter_In. split; [|exact Hsel].
  unfold effectiveKeyVals_spec, toCheck in *.
  destruct curSet as [set|]; simpl.
  - apply MergeSet_incl. exact Hin.
  - unfold NewKeyVals in Hin. rewrite map_id in Hin. exact Hin.
Qed.

End UpdaterFacts.

(** ** The insertion sort of the example instance meets the contract *)

Section DemoSort.

Import Demo.

Lemma insertByPos_perm (e : entry) (l : list entry) :
  Permutation (e :: l) (insertByPos e l).
Proof.
  induction l as [|x rest IH]; simpl; [apply Permutation_refl|].
  destruct (pos e <=? pos x)%Z; [apply Permutation_refl|].
  eapply perm_trans; [apply perm_swap|]. apply perm_skip. exact IH.
Qed.

Lemma sortEntries_perm (l : list entry) : Permutation l (sortEntries l).
Proof.
  induction l as [|e rest IH]; simpl; [constructor|].
  eapply perm_trans; [apply perm_skip; exact IH | apply insertByPos_perm].
Qed.

Lemma insertByPos_sorted (e : entry) (l : list entry) :
  StronglySorted (@byPos_le manifest) l ->
  StronglySorted (@byPos_le manifest) (insertByPos e l).
Proof.
  induction l as [|x rest IH]; simpl; intros Hs.
  - constructor; constructor.
  - inversion Hs as [|y l' Hrest Hall]; subst.
    destruct (pos e <=? pos x)%Z eqn:Hle.
    + apply Z.leb_le in Hle. constructor; [exact Hs|].
      constructor; [exact Hle|].
      eapply Forall_impl; [|exact Hall].
      intros a Ha. unfold byPos_le in *. simpl in *. lia.
    + apply Z.leb_gt in Hle. constructor; [apply IH; exact Hrest|].
      eapply Permutation_Forall; [apply insertByPos_perm|].
      constructor; [|exact Hall]. unfold byPos_le. simpl. lia.
Qed.

Lemma sortEntries_sorted (l : list entry) :
  StronglySorted (@byPos_le manifest) (sortEntries l).
Proof.
  induction l as [|e rest IH]; simpl; [constructor|].
  apply insertByPos_sorted. exact IH.
Qed.

Lemma demo_sortContract : @sortContract manifest.
Proof.
  intro l. split; [apply sortEntries_perm | apply sortEntries_sorted].
Qed.

End DemoSort.

(** ** What [Update] invokes, what it reports and where it leaves the
    process *)

Section UpdaterClaims.

Context {M : Manifest} {P : Platform}.

(** C2, as amended: [Update] does not merge the active set with the
    keyvals of an entry; it walks the keyvals of the active set followed
    by the entry's own ([toCheck]).  Its invocations are, for each
    relative or full entry in turn, those of the keyvals of that list
    whose keyword is in the caller's list and has a registered update
    function, in the order of the list: for a shared keyword the update
    function runs with the value of the set first and with the value of
    the entry last.  What the merge of the active set with the entry's
    keyvals selects is among these invocations.  No update function is
    invoked for a keyword outside the caller's list, whose default is
    uid, gid, mode and time. *)
Theorem Update_applies_set_then_entry (root : string)
        (dh : DirectoryHierarchy Entry) (keywords : list string)
        (w : World FS) :
  DefaultUpdateKeywords = ["uid"; "gid"; "mode"; "time"]
  /\ (forall pathname curSet e,
         sitesOf keywords pathname (toCheck curSet e)
         = match curSet with
           | Some s => sitesOf keywords pathname (Entry_Keywords s)
           | None => []
           end ++ sitesOf keywords pathname (Entry_Keywords e))
  /\ (forall pathname curSet e s,
         In s (sitesOf keywords pathname (effectiveKeyVals_spec curSet e)) ->
         In s (sitesOf keywords pathname (toCheck curSet e)))
  /\ exists made,
       calls (snd (Update root dh keywords w)) = calls w ++ made
       /\ map site made
          = match Chdir_to root w with
            | inl _ => []
            | inr _ => planned keywords (sortByPos (Entries dh)) None
            end
       /\ forall c, In c made ->
                    In (call_keyword c) keywords
                    /\ UpdateKeywordFuncs (call_keyword c) <> None.
Proof.
  split; [reflexivity|]. split; [|split].
  - intros pathname curSet e. unfold toCheck. rewrite sitesOf_app.
    destruct curSet; reflexivity.
  - intros pathname curSet e s. apply effective_sites_invoked.
  - destruct (Update_run root dh keywords w) as [made [Hc [Hsites _]]].
    exists made. split; [exact Hc|]. split; [exact Hsites|].
    intros c Hin.
    assert (In (site c) (map site made)) as Hs by (apply in_map; exact Hin).
    rewrite Hsites in Hs.
    destruct (Chdir_to root w); [contradiction|].
    exact (planned_selected _ _ _ _ Hs).
Qed.

(** C3, as amended: an error of an update function does not end
    [Update], and is recorded.  The invocations that [Update] makes are
    those planned for its entries, each with the error that the update
    function returns, whatever the invocations before it returned.
    Whether [Update] returns an error is decided by [updateError], which
    looks only at entering the root and at the [Path] calls.  When it
    returns none, the failures of the returned result are those of the
    invocations that returned an error, one for each, in order, with the
    path, the keyword and the message of the error; when entering the
    root or a [Path] call fails, that error is returned with no result,
    and the failures recorded before it with it. *)
Theorem Update_failures_not_fatal (root : string)
        (dh : DirectoryHierarchy Entry) (keywords : list string)
        (w : World FS) :
  let sites :=
    match Chdir_to root w with
    | inl _ => []
    | inr _ => planned keywords (sortByPos (Entries dh)) None
    end in
  let dir :=
    match Chdir_to root w with
    | inl _ => cwd w
    | inr d => d
    end in
  let made := fst (outcomes sites dir (fs w)) in
  calls (snd (Update root dh keywords w)) = calls w ++ made
  /\ fs (snd (Update root dh keywords w)) = snd (outcomes sites dir (fs w))
  /\ map site made = sites
  /\ fst (Update root dh keywords w)
     = match updateError root dh w with
       | Some err => inl err
       | None => inr (mkResult (failuresOf made) [] [])
       end
  /\ (forall result c msg,
        fst (Update root dh keywords w) = inr result ->
        In c made -> call_err c = Some msg ->
        In (mkFailure (call_path c) (call_keyword c) "" msg)
           (Failures result)).
Proof.
  intros sites dir made.
  assert (calls (snd (Update root dh keywords w)) = calls w ++ made
          /\ fs (snd (Update root dh keywords w))
             = snd (outcomes sites dir (fs w))
          /\ fst (Update root dh keywords w)
             = match updateError root dh w with
               | Some err => inl err
               | None => inr (mkResult (failuresOf made) [] [])
               end) as [Hcalls [Hfs Hres]].
  { pose proof (Update_outcomes root dh keywords w) as Hrun.
    unfold Update, updateError. subst made sites dir.
    destruct (Chdir_to root w) as [err|d]; rewrite Hrun; simpl;
      rewrite Update_deferred_calls, Update_deferred_fs; simpl.
    - rewrite app_nil_r. repeat split.
    - repeat split. }
  split; [exact Hcalls|]. split; [exact Hfs|].
  split; [|split; [exact Hres|]].
  - destruct (Update_run root dh keywords w) as [made' [Hc [Hsites _]]].
    rewrite Hcalls in Hc. apply app_inv_head in Hc. rewrite Hc.
    exact Hsites.
  - intros result c msg Hr Hin Herr. rewrite Hres in Hr.
    destruct (updateError root dh w); [discriminate|].
    inversion Hr; subst result. simpl. unfold failuresOf.
    apply in_flat_map. exists c. split; [exact Hin|].
    rewrite Herr. left. reflexivity.
Qed.

(** C8, as amended: [Update] invokes nothing unless it has entered the
    root; it then runs in that directory over the entries sorted by
    position.  When the working directory was determined at the start
    and the deferred [os.Chdir] back to it succeeds, the process is in
    its initial working directory when [Update] returns, with a result
    or with an error. *)
Theorem Update_restores_cwd (root : string)
        (dh : DirectoryHierarchy Entry) (keywords : list string)
        (w : World FS) (curDir : string) :
  sortContract ->
  Getwd w = inr curDir ->
  Chdir_to curDir (snd (Update_body root dh keywords w)) = inr curDir ->
  cwd (snd (Update root dh keywords w)) = cwd w
  /\ Permutation (Entries dh) (sortByPos (Entries dh))
  /\ StronglySorted byPos_le (sortByPos (Entries dh))
  /\ exists made,
       calls (snd (Update root dh keywords w)) = calls w ++ made
       /\ match Chdir_to root w with
          | inl err =>
              made = [] /\ fst (Update root dh keywords w) = inl err
          | inr d =>
              Forall (fun c => call_cwd c = d) made
              /\ map site made
                 = planned keywords (sortByPos (Entries dh)) None
          end.
Proof.
  intros Hsort Hwd Hback.
  assert (curDir = cwd w) as Hcur.
  { unfold Getwd in Hwd. destruct (Getwd_err w); congruence. }
  split; [|split; [apply Hsort | split; [apply Hsort|]]].
  - unfold Update. rewrite Hwd.
    destruct (Update_body root dh keywords w) as [r w'].
    simpl in *. unfold Chdir. rewrite Hback. simpl. exact Hcur.
  - destruct (Update_body_run root dh keywords w) as [made [Hc Hrun]].
    exists made. unfold Update.
    destruct (Update_body root dh keywords w) as [r w'] eqn:Hbody.
    simpl in *. rewrite Update_deferred_calls. split; [exact Hc|].
    destruct (Chdir_to root w) as [err|d].
    + destruct Hrun as [-> Heq]. inversion Heq. split; reflexivity.
    + destruct Hrun as [_ [Hf [Hpl _]]]. split; assumption.
Qed.

End UpdaterClaims.

Section UpdaterExamples.

Import Demo.

(** C2 as stated fails: with [/set uid=0 gid=0] active, the entry
    [foo uid=1000 ...] has the effective keyvals uid=1000, gid=0, ...,
    and yet [Update] invokes the update function of uid with the value 0
    of the set on [foo]. *)
Lemma Update_invokes_overridden_set_keyval :
  In (mkCall "/srv/tree" "foo" "uid" "0" None)
     (calls (snd (@Update manifest platform "/srv/tree" hierarchy
                          DefaultUpdateKeywords world)))
  /\ @effectiveKeyVals_spec manifest (Some setEntry) fooEntry
     = ["uid=1000"; "gid=0"; "mode=0644"; "sha1=abc"]
  /\ ~ In "uid=0" (@effectiveKeyVals_spec manifest (Some setEntry) fooEntry).
Proof.
  split; [|split].
  - vm_compute. left. reflexivity.
  - reflexivity.
  - vm_compute. intros [H|[H|[H|[H|[]]]]]; discriminate H.
Qed.

(** The theorem on the example: the invocations of the run, with the
    values of the set before those of the entry. *)
Lemma Update_applies_set_then_entry_witness :
  exists made,
    calls (snd (@Update manifest platform "/srv/tree" hierarchy
                        DefaultUpdateKeywords world)) = made
    /\ map site made
       = [("foo", "uid", "0"); ("foo", "gid", "0"); ("foo", "uid", "1000");
          ("foo", "mode", "0644"); ("gone", "uid", "0"); ("gone", "gid", "0");
          ("gone", "mode", "0600")]
    /\ forall c, In c made -> In (call_keyword c) DefaultUpdateKeywords.
Proof.
  destruct (@Update_applies_set_then_entry manifest platform "/srv/tree"
              hierarchy DefaultUpdateKeywords world)
    as [_ [_ [_ [made [Hcalls [Hsites Honly]]]]]].
  exists made. split; [exact Hcalls|]. split; [exact Hsites|].
  intros c Hin. apply Honly. exact Hin.
Defined.

(** [Update] on the example: the three invocations on the missing file
    fail, are reported, and the run goes on to the end without error. *)
Example Update_reports_failures :
  fst (@Update manifest platform "/srv/tree" hierarchy
               DefaultUpdateKeywords world)
  = inr (mkResult
           [mkFailure "gone" "uid" ""
                      "lstat gone: no such file or directory";
            mkFailure "gone" "gid" ""
                      "lstat gone: no such file or directory";
            mkFailure "gone" "mode" ""
                      "lstat gone: no such file or directory"]
           [] []).
Proof. reflexivity. Qed.

(** C3 as stated fails for the returned result: the update function
    returns an error for [gone], [Update] goes on to the next entry,
    whose name does not decode, and returns that error and no result:
    the failure that it recorded is returned to nobody. *)
Lemma Update_drops_recorded_failures :
  calls (snd (@Update strictManifest platform "/srv/tree" lossyHierarchy
                      ["uid"] world))
  = [mkCall "/srv/tree" "gone" "uid" "0"
            (Some "lstat gone: no such file or directory")]
  /\ fst (@Update strictManifest platform "/srv/tree" lossyHierarchy
                  ["uid"] world)
     = inl "unvis: incomplete escape"
  /\ ~ (exists result,
          fst (@Update strictManifest platform "/srv/tree" lossyHierarchy
                       ["uid"] world) = inr result
          /\ In (mkFailure "gone" "uid" ""
                           "lstat gone: no such file or directory")
                (Failures result)).
Proof.
  assert (fst (@Update strictManifest platform "/srv/tree" lossyHierarchy
                       ["uid"] world)
          = inl "unvis: incomplete escape") as Hres
      by (vm_compute; reflexivity).
  split; [vm_compute; reflexivity|]. split; [exact Hres|].
  intros [result [Hr _]]. rewrite Hres in Hr. discriminate Hr.
Qed.

(** C8 as stated fails: the process starts in the directory [sub] of
    the tree, which is determined; the manifest sets the mode of [sub]
    to 0600; the deferred [os.Chdir] back into [sub] then fails, its
    error is dropped, and the process stays in the root. *)
Lemma Update_leaves_cwd_changed :
  @Getwd platform insideWorld = inr "/srv/tree/sub"
  /\ fst (@Update manifest platform "/srv/tree" lockingHierarchy
                  DefaultUpdateKeywords insideWorld)
     = inr (mkResult [] [] [])
  /\ cwd (snd (@Update manifest platform "/srv/tree" lockingHierarchy
                       DefaultUpdateKeywords insideWorld))
     = "/srv/tree"
  /\ cwd (snd (@Update manifest platform "/srv/tree" lockingHierarchy
                       DefaultUpdateKeywords insideWorld))
     <> cwd insideWorld.
Proof.
  split; [reflexivity|]. split; [reflexivity|].
  split; [reflexivity | discriminate].
Qed.

(** The theorem in the example world, which the process may enter
    again. *)
Lemma Update_restores_cwd_witness :
  @Getwd platform world = inr "/home/user"
  /\ @Chdir_to platform "/home/user"
       (snd (@Update_body manifest platform "/srv/tree" hierarchy
                          DefaultUpdateKeywords world))
     = inr "/home/user"
  /\ cwd (snd (@Update manifest platform "/srv/tree" hierarchy
                       DefaultUpdateKeywords world))
     = cwd world.
Proof.
  split; [reflexivity|]. split; [reflexivity|].
  apply (@Update_restores_cwd manifest platform "/srv/tree" hierarchy
           DefaultUpdateKeywords world "/home/user").
  - exact demo_sortContract.
  - reflexivity.
  - reflexivity.
Defined.

End UpdaterExamples.

(* ================================================================== *)
(** * Properties of the vis wrapper and of the unvis return codes *)
(* ================================================================== *)

Section VisFacts.

Local Open Scope Z_scope.

(** Whatever the width of [int] (32 bits divide 64), the guard compares
    the low 32 bits of the exact size. *)
Lemma uint32_int (x : Z) : uint32 (int x) = x mod 2 ^ 32.
Proof.
  unfold uint32, int.
  rewrite (Z.mod_eq (x + 2 ^ 63) (2 ^ 64)) by lia.
  set (q := (x + 2 ^ 63) / 2 ^ 64).
  replace (x + 2 ^ 63 - 2 ^ 64 * q - 2 ^ 63)
    with (x + (- q * 2 ^ 32) * 2 ^ 32) by lia.
  apply Z_mod_plus_full.
Qed.

Lemma Vis_guard_low32 (n : Z) :
  Vis_guard n = ((4 * n + 1) mod 2 ^ 32 >=? MaxUint32 / 4).
Proof.
  unfold Vis_guard. rewrite uint32_int.
  replace (n * 4 + 1) with (4 * n + 1) by lia. reflexivity.
Qed.

Lemma Vis_guard_exact (n : Z) :
  0 <= 4 * n + 1 < 2 ^ 32 ->
  Vis_guard n = (4 * n + 1 >=? MaxUint32 / 4).
Proof.
  intros H. rewrite Vis_guard_low32, Z.mod_small by exact H. reflexivity.
Qed.

Lemma len_nonneg (s : string) : 0 <= len s.
Proof. unfold len. lia. Qed.

Lemma length_repeatByte (n : nat) (c : ascii) :
  String.length (repeatByte n c) = n.
Proof. induction n as [|n IH]; simpl; [reflexivity | rewrite IH; reflexivity]. Qed.

Lemma len_repeatByte (n : Z) (c : ascii) :
  0 <= n -> len (repeatByte (Z.to_nat n) c) = n.
Proof.
  intros H. unfold len. rewrite length_repeatByte. apply Z2Nat.id. exact H.
Qed.

(** An input of exactly 2^30 bytes passes the guard: the size 2^32 + 1
    that it needs has the low 32 bits 1. *)
Lemma Vis_guard_wraps : Vis_guard 1073741824 = false.
Proof. rewrite Vis_guard_low32. reflexivity. Qed.

Lemma Vis_returns {C : CLib} (src : string) :
  Vis_guard (len src) = false ->
  Vis src = inr (strvis (CString src) Vis_flags).
Proof. intros H. unfold Vis. rewrite H. reflexivity. Qed.

Lemma Vis_fails {C : CLib} (src : string) :
  Vis_guard (len src) = true ->
  Vis src = inl ("failed to encode: " ++ Quote src)%string.
Proof. intros H. unfold Vis. rewrite H. reflexivity. Qed.

End VisFacts.

Section VisClaims.

Local Open Scope Z_scope.

(** What the guard of [Vis] does ensure: an error is returned only for
    an input whose required size [4*len(src)+1] is at or above the bound
    [math.MaxUint32/4]; every input whose required size is below the
    bound is encoded without error; and every input whose required size
    is at or above the bound and below 2^32 is refused. *)
Lemma Vis_error_only_above_bound {C : CLib} (src : string) :
  (requiredSize src < MaxUint32 / 4 -> exists dst, Vis src = inr dst)
  /\ (forall err, Vis src = inl err -> MaxUint32 / 4 <= requiredSize src)
  /\ (MaxUint32 / 4 <= requiredSize src < 2 ^ 32 ->
      exists err, Vis src = inl err).
Proof.
  pose proof (len_nonneg src) as Hlen. unfold requiredSize.
  split; [|split].
  - intros H. eexists. apply Vis_returns.
    rewrite Vis_guard_exact.
    + rewrite Z.geb_leb. apply Z.leb_gt. exact H.
    + change (2 ^ 32) with 4294967296. change (MaxUint32 / 4) with 1073741823 in H.
      lia.
  - intros err H. unfold Vis in H.
    destruct (Vis_guard (len src)) eqn:Hg; [|discriminate].
    rewrite Vis_guard_low32 in Hg. apply Z.geb_le in Hg.
    eapply Z.le_trans; [exact Hg|].
    apply Z.mod_le; [lia | reflexivity].
  - intros H. eexists. apply Vis_fails.
    rewrite Vis_guard_exact by lia. apply Z.geb_le. lia.
Qed.

(** The lemma at a three-byte input and at an input of 2^28 bytes,
    the shortest that is refused. *)
Lemma Vis_error_only_above_bound_witness :
  (exists dst, @Vis Demo.clib "a b" = inr dst)
  /\ exists err,
       @Vis Demo.clib (repeatByte (Z.to_nat 268435456) "a") = inl err.
Proof.
  split.
  - apply (@Vis_error_only_above_bound Demo.clib "a b"). reflexivity.
  - apply (@Vis_error_only_above_bound Demo.clib
             (repeatByte (Z.to_nat 268435456) "a")).
    unfold requiredSize. rewrite len_repeatByte by discriminate.
    split; [discriminate | reflexivity].
Defined.

(** C4: [Vis] does not return an error for every input whose required
    size exceeds the ceiling.  The guard, written to "check appropriate
    size", converts the size to [uint32] before it compares: for the
    input of 2^30 bytes the required size is 2^32 + 1, far above the
    bound [math.MaxUint32/4], its low 32 bits are 1, and [Vis] goes on to
    encode, whatever [strvis] is. *)
Theorem Vis_accepts_oversized :
  len (repeatByte (Z.to_nat (2 ^ 30)) "a") = 2 ^ 30
  /\ requiredSize (repeatByte (Z.to_nat (2 ^ 30)) "a") = 2 ^ 32 + 1
  /\ MaxUint32 / 4 < requiredSize (repeatByte (Z.to_nat (2 ^ 30)) "a")
  /\ uint32 (int (len (repeatByte (Z.to_nat (2 ^ 30)) "a") * 4 + 1)) = 1
  /\ forall C : CLib,
       @Vis C (repeatByte (Z.to_nat (2 ^ 30)) "a")
       = inr (strvis (CString (repeatByte (Z.to_nat (2 ^ 30)) "a"))
                     Vis_flags).
Proof.
  assert (len (repeatByte (Z.to_nat (2 ^ 30)) "a") = 2 ^ 30) as Hlen.
  { apply len_repeatByte. discriminate. }
  unfold requiredSize. rewrite !Hlen.
  split; [reflexivity|]. split; [reflexivity|]. split; [reflexivity|].
  split; [reflexivity|].
  intros C. apply Vis_returns. rewrite Hlen. exact Vis_guard_wraps.
Qed.

Lemma hasFlag_Vis_flags (f : VisFlag) :
  In f singleVisFlags ->
  (hasFlag Vis_flags f = true
   <-> In f [VisSp; VisTab; VisNl; VisOctal; VisGlob]).
Proof.
  simpl.
  intros [<-|[<-|[<-|[<-|[<-|[<-|[<-|[<-|[<-|[]]]]]]]]]];
    vm_compute; split; intros H;
    repeat (destruct H as [H|H]; try discriminate H);
    try discriminate H; try contradiction; auto 10.
Qed.

(** C5: whenever [Vis] encodes, it passes to [strvis] the flags
    White | Octal | Glob, where White is Sp | Tab | Nl: of the flags
    with a name, the word holds Sp, Tab, Nl, Octal and Glob and no
    other. *)
Theorem Vis_flags_White_Octal_Glob {C : CLib} (src dst : string) :
  Vis src = inr dst ->
  dst = strvis (CString src) (Z.lor (Z.lor VisWhite VisOctal) VisGlob)
  /\ VisWhite = Z.lor (Z.lor VisSp VisTab) VisNl
  /\ Z.lor (Z.lor VisWhite VisOctal) VisGlob = 0x11D
  /\ forall f, In f singleVisFlags ->
               (hasFlag (Z.lor (Z.lor VisWhite VisOctal) VisGlob) f = true
                <-> In f [VisSp; VisTab; VisNl; VisOctal; VisGlob]).
Proof.
  intros H. unfold Vis in H.
  destruct (Vis_guard (len src)); [discriminate|].
  inversion H. split; [reflexivity|]. split; [reflexivity|].
  split; [reflexivity|]. exact hasFlag_Vis_flags.
Qed.

(** The theorem at the input of scenario S5, a space, a tab and a
    newline among letters. *)
Lemma Vis_flags_White_Octal_Glob_witness :
  @Vis Demo.clib ("a b" ++ String (ascii_of_nat 9) "c"
                        ++ String (ascii_of_nat 10) "")%string
  = inr "a\040b\011c\012"%string
  /\ "a\040b\011c\012"%string
     = @strvis Demo.clib
         (CString ("a b" ++ String (ascii_of_nat 9) "c"
                         ++ String (ascii_of_nat 10) "")%string)
         (Z.lor (Z.lor VisWhite VisOctal) VisGlob).
Proof.
  split; [reflexivity|].
  apply (@Vis_flags_White_Octal_Glob Demo.clib). reflexivity.
Defined.

Lemma UnvisError_Error_unknown (ue : UnvisError) :
  UnvisError_Error ue = "Unknown Error"%string <-> ~ In ue unvisCodes.
Proof.
  unfold UnvisError_Error, unvisCodes, UnvisErrorValidPush.
  destruct (Z.eqb_spec ue UnvisErrorValid) as [->|H1];
    [split; [discriminate | intros H; exfalso; apply H; simpl; auto]|].
  destruct (Z.eqb_spec ue UnvisErrorValidpush) as [->|H2];
    [split; [discriminate | intros H; exfalso; apply H; simpl; auto]|].
  destruct (Z.eqb_spec ue UnvisErrorNochar) as [->|H3];
    [split; [discriminate | intros H; exfalso; apply H; simpl; auto]|].
  destruct (Z.eqb_spec ue UnvisErrorSynbad) as [->|H4];
    [split; [discriminate | intros H; exfalso; apply H; simpl; auto]|].
  destruct (Z.eqb_spec ue UnvisErrorUnrecoverable) as [->|H5];
    [split; [discriminate | intros H; exfalso; apply H; simpl; auto 6]|].
  split; [|reflexivity]. intros _ [H|[H|[H|[H|[H|[]]]]]]; congruence.
Qed.

(** C7: the constant block declares five return codes, Valid 1,
    ValidPush 2 and NoChar 3, which are positive, and SynBad -1 and
    Unrecoverable -2, which are negative; they are pairwise distinct.
    [Error] returns a message of its own for each of them, and returns
    "Unknown Error" exactly for the values outside the five. *)
Theorem UnvisError_codes :
  unvisCodes = [1; 2; 3; -1; -2]
  /\ NoDup unvisCodes
  /\ 0 < UnvisErrorValid /\ 0 < UnvisErrorValidpush
  /\ 0 < UnvisErrorNochar
  /\ UnvisErrorSynbad < 0 /\ UnvisErrorUnrecoverable < 0
  /\ map UnvisError_Error unvisCodes
     = ["character valid"; "character valid, push back passed char";
        "valid sequence, no character produced";
        "unrecognized escape sequence";
        "decoder in unknown state (unrecoverable)"]%string
  /\ NoDup (map UnvisError_Error unvisCodes)
  /\ forall ue, UnvisError_Error ue = "Unknown Error"%string
                <-> ~ In ue unvisCodes.
Proof.
  split; [reflexivity|].
  split.
  { repeat constructor; simpl; intros H;
      repeat (destruct H as [H|H]; try discriminate H); exact H. }
  repeat (split; [reflexivity|]).
  split.
  { repeat constructor; simpl; intros H;
      repeat (destruct H as [H|H]; try discriminate H); exact H. }
  exact UnvisError_Error_unknown.
Qed.

End VisClaims.

(* ================================================================== *)
(** * Properties of [main] *)
(* ================================================================== *)

Section MainFacts.

Import Gomtree GomtreeNotions.

Context {F : Frontend}.

Lemma runDeferred_exit (isErr : bool) (ds : list Deferred) (o : Z) :
  In DeferExit1 ds -> runDeferred isErr ds o = 1%Z.
Proof.
  induction ds as [|d ds IH]; simpl; [tauto|].
  intros [->|H]; [reflexivity|].
  destruct d; [destruct isErr|..]; auto.
Qed.

Lemma runDeferred_isErr (ds : list Deferred) (o : Z) :
  In DeferExitIfErr ds -> runDeferred true ds o = 1%Z.
Proof.
  induction ds as [|d ds IH]; simpl; [tauto|].
  intros [->|H]; [reflexivity|]. destruct d; auto.
Qed.

Lemma runDeferred_quiet (ds : list Deferred) (o : Z) :
  ~ In DeferExit1 ds -> runDeferred false ds o = o.
Proof.
  induction ds as [|d ds IH]; simpl; [reflexivity|].
  intros H. destruct d; try (apply IH; tauto).
  exfalso. apply H. left. reflexivity.
Qed.

Lemma Bad_status (flow : Flow unit) (s : MainState) :
  Bad s -> status flow s = 1%Z.
Proof.
  intros [[H|[He Ha]] _]; unfold status.
  - apply runDeferred_exit. exact H.
  - rewrite He. apply runDeferred_isErr. exact Ha.
Qed.

Lemma Good_status (flow : Flow unit) (s : MainState) :
  Good flow s -> status flow s = 0%Z.
Proof.
  intros [Hf [He [Hd _]]]. unfold status. rewrite He.
  rewrite runDeferred_quiet by exact Hd.
  destruct flow; [reflexivity | reflexivity | contradiction Hf; reflexivity].
Qed.

Lemma Ready_Good (flow : Flow unit) (s : MainState) :
  flow <> Panics -> Ready s -> Good flow s.
Proof.
  intros Hf [He [_ [Hd Hev]]].
  split; [exact Hf|]. split; [exact He|]. split; [exact Hd|].
  rewrite Hev. simpl. split; [intros msg [] | intros r []].
Qed.

Lemma Ready_NoClean (s : MainState) : Ready s -> NoClean s.
Proof. intros [_ [_ [_ Hev]]] r. rewrite Hev. simpl. tauto. Qed.

Lemma NoClean_Logged (s : MainState) (msg : string) :
  NoClean s ->
  NoClean (mkMainState true (deferred s) (events s ++ [Logged msg])).
Proof.
  intros H r Hin. simpl in Hin. apply in_app_or in Hin.
  destruct Hin as [Hin|[Hin|[]]]; [exact (H r Hin) | discriminate Hin].
Qed.

(** [log.Println(err); isErr = true; return] ends the run with a
    verdict of failure. *)
Lemma fail_ends {A : Type} (msg : string) (s : MainState)
      (Post : A -> MainState -> Prop) :
  Armed s -> NoClean s -> ends (fail msg s) Post.
Proof.
  intros Ha Hn. unfold fail, bind, emit, setErr, ret. simpl. left.
  split; [right; split; [reflexivity | exact Ha]|].
  apply NoClean_Logged. exact Hn.
Qed.

Lemma fail_Ready {A : Type} (msg : string) (s : MainState)
      (Post : A -> MainState -> Prop) :
  Ready s -> ends (fail msg s) Post.
Proof.
  intros H. apply fail_ends; [apply H | apply Ready_NoClean; exact H].
Qed.

Lemma ret_Ready {A : Type} (s : MainState)
      (Post : A -> MainState -> Prop) :
  Ready s -> ends (@ret F A s) Post.
Proof.
  intros H. unfold ret. simpl. right. apply Ready_Good; [discriminate|].
  exact H.
Qed.

Lemma triple_bind {A B : Type} (Pre : MainState -> Prop) (m : Main A)
      (Mid : A -> MainState -> Prop) (k : A -> Main B)
      (Post : B -> MainState -> Prop) :
  triple Pre m Mid -> (forall a, triple (Mid a) (k a) Post) ->
  triple Pre (bind m k) Post.
Proof.
  intros Hm Hk s Hs. specialize (Hm s Hs). unfold bind.
  destruct (m s) as [[a| |] s']; simpl in *; [|exact Hm|exact Hm].
  exact (Hk a s' Hm).
Qed.

Lemma triple_conseq {A : Type} (Pre : MainState -> Prop) (m : Main A)
      (Post Post' : A -> MainState -> Prop) :
  triple Pre m Post -> (forall a s, Post a s -> Post' a s) ->
  triple Pre m Post'.
Proof.
  intros Hm Himp s Hs. specialize (Hm s Hs).
  destruct (m s) as [[a| |] s']; simpl in *; auto.
Qed.

Lemma triple_pure {A : Type} (Pre : MainState -> Prop) (a : A)
      (Post : A -> MainState -> Prop) :
  (forall s, Pre s -> Post a s) -> triple Pre (pure a) Post.
Proof. intros H s Hs. exact (H s Hs). Qed.

Lemma when_ret (b : bool) :
  triple Ready (when b ret) (fun _ => Ready).
Proof.
  intros s Hs. destruct b; [apply ret_Ready|]; exact Hs.
Qed.

Lemma when_fail (b : bool) (msg : string) :
  triple Ready (when b (fail msg)) (fun _ => Ready).
Proof.
  intros s Hs. destruct b; [apply fail_Ready|]; exact Hs.
Qed.

Lemma formats_stateless (name : string)
      (f : Result FEntry -> Main string) :
  formats name = Some f -> stateless f.
Proof.
  unfold formats. intros H r s.
  destruct (String.eqb name "bsd").
  { inversion H. left. eexists. reflexivity. }
  destruct (String.eqb name "json").
  { inversion H. destruct (json_Encode r);
      [right; reflexivity | left; eexists; reflexivity]. }
  destruct (String.eqb name "path"); [|discriminate].
  inversion H. left. eexists. reflexivity.
Qed.

Lemma lookup_format (name : string) :
  triple Ready
    (match formats name with
     | Some f => pure f
     | None =>
         emit (Logged ("invalid output format: " ++ name)%string) ;;;
         setErr ;;; ret
     end)
    (fun f s => Ready s /\ stateless f).
Proof.
  intros s Hs. destruct (formats name) as [f|] eqn:Hf.
  - simpl. split; [exact Hs | exact (formats_stateless _ _ Hf)].
  - apply (fail_Ready (A := Result FEntry -> Main string)). exact Hs.
Qed.

Lemma loadManifest_Ready (fl : Flags) :
  triple Ready (loadManifest fl) (fun _ => Ready).
Proof.
  intros s Hs. unfold loadManifest.
  destruct (negb (String.eqb (flFile fl) "") && negb (flCreate fl));
    [|exact Hs].
  destruct (os_Open (flFile fl)); [apply fail_Ready; exact Hs|].
  destruct (ParseSpec (flFile fl)); [apply fail_Ready|]; exact Hs.
Qed.

Lemma exit1_ends {A : Type} (s : MainState) (flow : Flow unit) :
  Ready s ->
  Verdict flow (mkMainState true (DeferExit1 :: deferred s) (events s)).
Proof.
  intros Hs. left. split; [left; left; reflexivity|].
  apply Ready_NoClean in Hs. exact Hs.
Qed.

Lemma listUsed_Ready (fl : Flags) (dh : DH) :
  triple Ready (listUsed fl dh) (fun _ => Ready).
Proof.
  intros s Hs. unfold listUsed.
  destruct (flListUsedKeywords fl); [|exact Hs].
  destruct (String.eqb (flFile fl) "").
  - unfold bind, emit, defer, setErr, ret. simpl. left.
    split; [left; left; reflexivity|].
    apply (NoClean_Logged s). apply Ready_NoClean. exact Hs.
  - destruct (String.eqb (flResultFormat fl) "json");
      [|apply ret_Ready; exact Hs].
    destruct (json_MarshalIndent (flFile fl) (CollectUsedKeywords dh));
      [|apply ret_Ready; exact Hs].
    unfold bind, defer, setErr, ret. simpl.
    apply (exit1_ends (A := unit)). exact Hs.
Qed.

Lemma defer_Close_Ready (s : MainState) :
  Ready s ->
  Ready (mkMainState (isErr s) (DeferClose :: deferred s) (events s)).
Proof.
  intros [He [Ha [Hd Hev]]]. repeat split; simpl; try assumption.
  - right. exact Ha.
  - intros [H|H]; [discriminate H | exact (Hd H)].
Qed.

Lemma loadTar_Ready (fl : Flags) (currentKeywords : list string) :
  triple Ready (loadTar fl currentKeywords) (fun _ => Ready).
Proof.
  unfold loadTar.
  destruct (negb (String.eqb (flTar fl) ""));
    [|apply triple_pure; auto].
  apply triple_bind with (Mid := fun _ => Ready).
  { intros s Hs. destruct (String.eqb (flTar fl) "-"); [exact Hs|].
    destruct (os_Open (flTar fl)); [apply fail_Ready; exact Hs|].
    apply defer_Close_Ready. exact Hs. }
  intros _. apply triple_bind with (Mid := fun _ => Ready).
  { intros s Hs. destruct (tar_Copy (flTar fl) currentKeywords) as [err|];
      [|exact Hs].
    destruct (negb (String.eqb err io_EOF));
      [apply fail_Ready|]; exact Hs. }
  intros _. apply triple_bind with (Mid := fun _ => Ready).
  { intros s Hs. destruct (tar_Close (flTar fl) currentKeywords);
      [apply fail_Ready|]; exact Hs. }
  intros _ s Hs. destruct (tar_Hierarchy (flTar fl) currentKeywords);
    [apply fail_Ready|]; exact Hs.
Qed.


Lemma Doomed_NoClean (r : Result FEntry) (s : MainState) :
  Doomed r s -> NoClean s.
Proof.
  intros [_ [_ [Hev [_ Hr]]]] r' Hin. rewrite Hev in Hin.
  destruct Hin as [Hin|[]]. inversion Hin; subst. exact Hr.
Qed.

Lemma Doomed_Bad (r : Result FEntry) (s : MainState) :
  Doomed r s -> Bad s.
Proof.
  intros H. split; [left; apply H | exact (Doomed_NoClean r s H)].
Qed.

Lemma fail_Doomed {A : Type} (r : Result FEntry) (msg : string)
      (s : MainState) (Post : A -> MainState -> Prop) :
  Doomed r s -> ends (fail msg s) Post.
Proof.
  intros H. apply fail_ends; [apply H | exact (Doomed_NoClean r s H)].
Qed.

Lemma reportPaths_Doomed (r : Result FEntry) (l : list FEntry) :
  triple (Doomed r) (reportPaths l) (fun _ => Doomed r).
Proof.
  induction l as [|e rest IH]; intros s Hs; simpl; [exact Hs|].
  destruct (FEntry_Path e); [exact (fail_Doomed r _ s _ Hs)|].
  exact (IH s Hs).
Qed.

Lemma write_Doomed (r : Result FEntry)
      (formatFunc : Result FEntry -> Main string) :
  stateless formatFunc ->
  triple (Doomed r)
    (out <- formatFunc r ;;
     match Stdout_Write out with
     | Some msg => fail msg
     | None => pure tt
     end)
    (fun _ => Doomed r).
Proof.
  intros Hf s Hs. unfold bind.
  destruct (Hf r s) as [[out ->]| ->].
  - destruct (Stdout_Write out); [exact (fail_Doomed r _ s _ Hs)|].
    exact Hs.
  - left. exact (Doomed_Bad r s Hs).
Qed.

(** One of the three blocks of the validation branch:
    [if len(list) > 0 { defer os.Exit(1); ... }]. *)
Lemma report_block {T : Type} (r : Result FEntry) (P : Prop)
      (list : list T) (body : Main unit) :
  (list <> [] -> ~ clean r) ->
  triple (Doomed r) body (fun _ => Doomed r) ->
  triple (Tracking r P)
         (when (nonEmpty list) (defer DeferExit1 ;;; body))
         (fun _ => Tracking r (P /\ list = [])).
Proof.
  intros Hlist Hbody s [Ha [He [Hev Hcase]]].
  destruct list as [|x rest]; simpl.
  - split; [exact Ha|]. split; [exact He|]. split; [exact Hev|].
    destruct Hcase as [[Hd HP]|Hd]; [left; tauto | right; exact Hd].
  - unfold bind, defer.
    assert (Doomed r (mkMainState (isErr s) (DeferExit1 :: deferred s)
                                  (events s))) as Hdoomed.
    { split; [right; exact Ha|]. split; [exact He|]. split; [exact Hev|].
      split; [left; reflexivity|]. apply Hlist. discriminate. }
    specialize (Hbody _ Hdoomed).
    destruct (body _) as [[[]| |] s']; simpl in *; try exact Hbody.
    destruct Hbody as [Ha' [He' [Hev' Hd']]].
    split; [exact Ha'|]. split; [exact He'|]. split; [exact Hev'|].
    right. exact Hd'.
Qed.

Lemma Tracking_Verdict (r : Result FEntry) (s : MainState) :
  Tracking r (((True /\ Failures r = []) /\ Extra r = [])
              /\ Missing r = []) s ->
  Verdict (Next tt) s.
Proof.
  intros [Ha [He [Hev [[Hd [[[_ HF] HE] HM]]|[Hd Hr]]]]].
  - right. split; [discriminate|]. split; [exact He|].
    split; [exact Hd|]. rewrite Hev. split.
    + intros msg [H|[]]. discriminate H.
    + intros r' [H|[]]. inversion H; subst. repeat split; assumption.
  - left. split; [left; exact Hd|].
    intros r' Hin. rewrite Hev in Hin. destruct Hin as [Hin|[]].
    inversion Hin; subst. exact Hr.
Qed.

(** The validation branch ends with a verdict. *)
Lemma validate_Verdict (fl : Flags)
      (formatFunc : Result FEntry -> Main string)
      (rootPath : string) (currentKeywords : list string) (tdh dh : DH) :
  stateless formatFunc ->
  triple Ready
         (validate fl formatFunc rootPath currentKeywords tdh dh)
         (fun _ => Verdict (Next tt)).
Proof.
  intros Hf s Hs. unfold validate.
  destruct (if negb (String.eqb (flTar fl) "")
            then mtree_TarCheck tdh dh currentKeywords
            else mtree_Check rootPath dh currentKeywords) as [res err].
  destruct Hs as [He [Ha [Hd Hev]]].
  destruct s as [e ds ev]. simpl in He, Ha, Hd, Hev. subst e ev.
  unfold Armed in Ha. simpl in Ha.
  destruct err as [msg|].
  { unfold bind, emit, fail, setErr, ret. simpl. left.
    split; [right; split; [reflexivity | exact Ha]|].
    intros r [H|[H|[]]]; discriminate H. }
  destruct res as [r|].
  2: { unfold bind, emit, pure. simpl. right.
       split; [discriminate|]. split; [reflexivity|].
       split; [exact Hd|]. simpl.
       split; [intros msg [H|[]] | intros r [H|[]]]; discriminate H. }
  set (s1 := mkMainState false ds [Checked (Some r) None]).
  assert (Tracking r True s1) as Hs1.
  { split; [exact Ha|]. split; [reflexivity|]. split; [reflexivity|].
    left. split; [exact Hd | exact I]. }
  assert (triple (Tracking r True)
            (when (nonEmpty (Failures r))
               (defer DeferExit1 ;;;
                out <- formatFunc r ;;
                match Stdout_Write out with
                | Some msg => fail msg
                | None => pure tt
                end) ;;;
             when (nonEmpty (Extra r))
               (defer DeferExit1 ;;; reportPaths (Extra r)) ;;;
             when (nonEmpty (Missing r))
               (defer DeferExit1 ;;; reportPaths (Missing r)))
            (fun _ => Verdict (Next tt))) as Hrest.
  { eapply triple_bind.
    { apply report_block; [|apply write_Doomed; exact Hf].
      intros HF [HF' _]. exact (HF HF'). }
    intros u1. eapply triple_bind.
    { apply report_block; [|apply reportPaths_Doomed].
      intros HE [_ [_ HE']]. exact (HE HE'). }
    intros u2. eapply triple_conseq.
    { apply report_block; [|apply reportPaths_Doomed].
      intros HM [_ [HM' _]]. exact (HM HM'). }
    intros u3 s' Hs'. exact (Tracking_Verdict r s' Hs'). }
  exact (Hrest s1 Hs1).
Qed.

End MainFacts.
Section MainClaims.

Import Gomtree GomtreeNotions.

Context {F : Frontend}.

(** Every run of [main] on parsed flags ends with a verdict. *)
Lemma main_body_Verdict (fl : Flags) :
  ends (main_body fl initial) (fun _ => Verdict (Next tt)).
Proof.
  assert (triple (eq initial) (main_body fl) (fun _ => Verdict (Next tt)))
    as H; [|exact (H initial eq_refl)].
  unfold main_body.
  apply triple_bind with (Mid := fun _ => Ready).
  { intros s <-. unfold Ready, Armed. simpl.
    split; [reflexivity|]. split; [left; reflexivity|].
    split; [|reflexivity]. intros [H|[]]. discriminate H. }
  intros u0. apply triple_bind with (Mid := fun _ => Ready);
    [apply when_ret|].
  intros u1. apply triple_bind with (Mid := fun _ => Ready);
    [apply when_ret|].
  intros u2. eapply triple_bind; [apply lookup_format|].
  intros formatFunc.
  apply triple_bind with (Mid := fun _ s => Ready s /\ stateless formatFunc).
  { intros s [Hs Hf]. pose proof (loadManifest_Ready fl s Hs) as H.
    destruct (loadManifest fl s) as [[dh| |] s']; simpl in *; auto. }
  intros dh.
  apply triple_bind with (Mid := fun _ s => Ready s /\ stateless formatFunc).
  { intros s [Hs Hf]. pose proof (listUsed_Ready fl dh s Hs) as H.
    destruct (listUsed fl dh s) as [[u| |] s']; simpl in *; auto. }
  intros u3.
  apply triple_bind with (Mid := fun _ s => Ready s /\ stateless formatFunc).
  { intros s [Hs Hf].
    pose proof (when_fail
                  (flUpdateAttributes fl && negb (String.eqb (flTar fl) ""))
                  "ERROR: -u can not be used with -T" s Hs) as H.
    destruct (when _ _ s) as [[u| |] s']; simpl in *; auto. }
  intros u4.
  apply triple_bind with (Mid := fun _ s => Ready s /\ stateless formatFunc).
  { intros s [Hs Hf].
    pose proof (loadTar_Ready fl (currentKeywordsOf fl) s Hs) as H.
    destruct (loadTar fl (currentKeywordsOf fl) s) as [[tdh| |] s'];
      simpl in *; auto. }
  intros tdh s [Hs Hf].
  assert (Verdict (Next tt) s) as Hgood
      by (right; apply Ready_Good; [discriminate | exact Hs]).
  destruct (flCreate fl).
  { destruct tdh; [exact Hgood|].
    destruct (mtree_Walk _ _); [apply fail_Ready; exact Hs | exact Hgood]. }
  assert (ends
            ((if isSome tdh || isSome dh
              then validate fl formatFunc
                     (if negb (String.eqb (flPath fl) "")
                      then flPath fl else ".")
                     (currentKeywordsOf fl) tdh dh
              else
                emit (Logged "neither validating or creating a manifest. Please provide additional arguments") ;;;
                setErr ;;; defer DeferExit1 ;;; ret) s)
            (fun _ => Verdict (Next tt))) as Hlast.
  { destruct (isSome tdh || isSome dh).
    - apply validate_Verdict; assumption.
    - unfold bind, emit, setErr, defer, ret. simpl. left.
      split; [left; left; reflexivity|].
      apply (NoClean_Logged s). apply Ready_NoClean. exact Hs. }
  destruct (flUpdateAttributes fl); [|exact Hlast].
  destruct dh as [d|]; [|exact Hlast].
  destruct (mtree_Update _ d _) as [result [err|]];
    [apply fail_Ready; exact Hs | exact Hgood].
Qed.

Lemma main_Verdict (fl : Flags) :
  exists flow s,
    main (Parsed fl) = (status flow s, events s) /\ Verdict flow s.
Proof.
  pose proof (main_body_Verdict fl) as H. unfold main.
  destruct (main_body fl initial) as [[[]| |] s]; simpl in H.
  - exists (Next tt), s. split; [reflexivity | exact H].
  - exists Returns, s. split; [reflexivity | exact H].
  - exists Panics, s. split; [reflexivity | exact H].
Qed.

(** ** The paths of [main] *)


Lemma formats_known (fl : Flags) :
  knownFormat fl ->
  exists f, formats (flResultFormat fl) = Some f /\ stateless f.
Proof.
  intros Hk.
  assert (exists f, formats (flResultFormat fl) = Some f) as [f Hf].
  { unfold knownFormat in Hk. unfold formats. simpl in Hk.
    destruct Hk as [<-|[<-|[<-|[]]]]; simpl; eexists; reflexivity. }
  exists f. split; [exact Hf | exact (formats_stateless _ _ Hf)].
Qed.

Lemma formats_unknown (fl : Flags) :
  ~ knownFormat fl -> formats (flResultFormat fl) = None.
Proof.
  unfold knownFormat, formats. intros Hk.
  destruct (String.eqb_spec (flResultFormat fl) "bsd") as [H|_];
    [exfalso; apply Hk; rewrite H; simpl; auto|].
  destruct (String.eqb_spec (flResultFormat fl) "json") as [H|_];
    [exfalso; apply Hk; rewrite H; simpl; auto|].
  destruct (String.eqb_spec (flResultFormat fl) "path") as [H|_];
    [exfalso; apply Hk; rewrite H; simpl; auto|].
  reflexivity.
Qed.

Lemma loadManifest_manifestOf (fl : Flags) (s : MainState) :
  loadManifest fl s
  = match manifestOf fl with
    | inl err => fail err s
    | inr dh => (Next dh, s)
    end.
Proof.
  unfold loadManifest, manifestOf.
  destruct (String.eqb (flFile fl) ""); [reflexivity|].
  destruct (flCreate fl); [reflexivity|]. simpl.
  destruct (os_Open (flFile fl)); [reflexivity|].
  destruct (ParseSpec (flFile fl)); reflexivity.
Qed.

Lemma loadTar_archiveOf (fl : Flags) (s : MainState) :
  loadTar fl (currentKeywordsOf fl) s
  = match archiveOf fl with
    | inl err => fail err (tarState fl s)
    | inr tdh => (Next tdh, tarState fl s)
    end.
Proof.
  unfold loadTar, archiveOf, tarState.
  destruct (String.eqb (flTar fl) ""); [reflexivity|]. simpl.
  unfold bind.
  destruct (String.eqb (flTar fl) "-").
  - simpl.
    destruct (tar_Copy (flTar fl) (currentKeywordsOf fl)) as [e|].
    + destruct (String.eqb e io_EOF); simpl; [|reflexivity].
      destruct (tar_Close (flTar fl) (currentKeywordsOf fl));
        [reflexivity|].
      destruct (tar_Hierarchy (flTar fl) (currentKeywordsOf fl));
        reflexivity.
    + simpl.
      destruct (tar_Close (flTar fl) (currentKeywordsOf fl));
        [reflexivity|].
      destruct (tar_Hierarchy (flTar fl) (currentKeywordsOf fl));
        reflexivity.
  - destruct (os_Open (flTar fl)); [reflexivity|]. simpl.
    destruct (tar_Copy (flTar fl) (currentKeywordsOf fl)) as [e|].
    + destruct (String.eqb e io_EOF); simpl; [|reflexivity].
      destruct (tar_Close (flTar fl) (currentKeywordsOf fl));
        [reflexivity|].
      destruct (tar_Hierarchy (flTar fl) (currentKeywordsOf fl));
        reflexivity.
    + simpl.
      destruct (tar_Close (flTar fl) (currentKeywordsOf fl));
        [reflexivity|].
      destruct (tar_Hierarchy (flTar fl) (currentKeywordsOf fl));
        reflexivity.
Qed.


Lemma tarState_isErr (fl : Flags) (s : MainState) :
  isErr (tarState fl s) = isErr s.
Proof.
  unfold tarState. destruct (String.eqb (flTar fl) ""); [reflexivity|].
  destruct (String.eqb (flTar fl) "-"); [reflexivity|].
  destruct (os_Open (flTar fl)); reflexivity.
Qed.

Lemma tarState_events (fl : Flags) (s : MainState) :
  events (tarState fl s) = events s.
Proof.
  unfold tarState. destruct (String.eqb (flTar fl) ""); [reflexivity|].
  destruct (String.eqb (flTar fl) "-"); [reflexivity|].
  destruct (os_Open (flTar fl)); reflexivity.
Qed.

Lemma tarState_deferred (fl : Flags) (s : MainState) (d : Deferred) :
  d <> DeferClose ->
  (In d (deferred (tarState fl s)) <-> In d (deferred s)).
Proof.
  intros Hd. unfold tarState.
  destruct (String.eqb (flTar fl) ""); [reflexivity|].
  destruct (String.eqb (flTar fl) "-"); [reflexivity|].
  destruct (os_Open (flTar fl)); [reflexivity|]. simpl.
  split; [intros [H|H]; [congruence | exact H] | auto].
Qed.

(** ** Deferred exits stay *)

Lemma keepsDue_pure {A : Type} (a : A) : keepsDue (pure a).
Proof. intros s H. exact H. Qed.

Lemma keepsDue_fail {A : Type} (msg : string) : keepsDue (@fail F A msg).
Proof. intros s H. exact H. Qed.

Lemma keepsDue_defer (d : Deferred) : keepsDue (defer d).
Proof. intros s H. right. exact H. Qed.

Lemma keepsDue_bind {A B : Type} (m : Main A) (k : A -> Main B) :
  keepsDue m -> (forall a, keepsDue (k a)) -> keepsDue (bind m k).
Proof.
  intros Hm Hk s Hs. specialize (Hm s Hs). unfold bind.
  destruct (m s) as [[a| |] s']; simpl in *; [|exact Hm|exact Hm].
  exact (Hk a s' Hm).
Qed.

Lemma keepsDue_when (b : bool) (m : Main unit) :
  keepsDue m -> keepsDue (when b m).
Proof. intros Hm. destruct b; [exact Hm | apply keepsDue_pure]. Qed.

Lemma keepsDue_reportPaths (l : list FEntry) : keepsDue (reportPaths l).
Proof.
  induction l as [|e rest IH]; simpl; [apply keepsDue_pure|].
  destruct (FEntry_Path e); [apply keepsDue_fail | exact IH].
Qed.

Lemma keepsDue_write (f : Result FEntry -> Main string)
      (r : Result FEntry) :
  stateless f ->
  keepsDue (out <- f r ;;
            match Stdout_Write out with
            | Some msg => fail msg
            | None => pure tt
            end).
Proof.
  intros Hf s Hs. unfold bind.
  destruct (Hf r s) as [[out ->]| ->]; [|exact Hs].
  destruct (Stdout_Write out); exact Hs.
Qed.

Lemma makesDue_defer (m : Main unit) :
  keepsDue m -> makesDue (defer DeferExit1 ;;; m).
Proof.
  intros Hm s. unfold bind, defer.
  apply (Hm (mkMainState (isErr s) (DeferExit1 :: deferred s) (events s))).
  left. reflexivity.
Qed.

Lemma makesDue_bind {A B : Type} (m : Main A) (k : A -> Main B) :
  makesDue m -> (forall a, keepsDue (k a)) -> makesDue (bind m k).
Proof.
  intros Hm Hk s. specialize (Hm s). unfold bind.
  destruct (m s) as [[a| |] s']; simpl in *; [|exact Hm|exact Hm].
  exact (Hk a s' Hm).
Qed.

Lemma makesDue_status {A : Type} (m : Main A) (s : MainState) (o : Z) :
  makesDue m ->
  runDeferred (isErr (snd (m s))) (deferred (snd (m s))) o = 1%Z.
Proof. intros Hm. apply runDeferred_exit. exact (Hm s). Qed.

Ltac due_status s :=
  match goal with
  | |- context [snd (?m s)] => apply (makesDue_status m s)
  end.

(** The status of the three blocks that report failures, extra and
    missing entries. *)
Lemma report_status (f : Result FEntry -> Main string)
      (r : Result FEntry) (s : MainState) :
  stateless f -> isErr s = false -> ~ Due s ->
  status
    (fst
       ((when (nonEmpty (Failures r))
           (defer DeferExit1 ;;;
            out <- f r ;;
            match Stdout_Write out with
            | Some msg => fail msg
            | None => pure tt
            end) ;;;
         when (nonEmpty (Extra r))
           (defer DeferExit1 ;;; reportPaths (Extra r)) ;;;
         when (nonEmpty (Missing r))
           (defer DeferExit1 ;;; reportPaths (Missing r))) s))
    (snd
       ((when (nonEmpty (Failures r))
           (defer DeferExit1 ;;;
            out <- f r ;;
            match Stdout_Write out with
            | Some msg => fail msg
            | None => pure tt
            end) ;;;
         when (nonEmpty (Extra r))
           (defer DeferExit1 ;;; reportPaths (Extra r)) ;;;
         when (nonEmpty (Missing r))
           (defer DeferExit1 ;;; reportPaths (Missing r))) s))
  = if nonEmpty (Failures r) || nonEmpty (Extra r) || nonEmpty (Missing r)
    then 1%Z else 0%Z.
Proof.
  intros Hf He Hd. unfold status.
  destruct (Failures r) as [|x1 l1]; cbn [nonEmpty when orb].
  2: { due_status s. apply makesDue_bind.
       - apply makesDue_defer. apply keepsDue_write. exact Hf.
       - intros _. apply keepsDue_bind.
         + apply keepsDue_when. apply keepsDue_bind;
             [apply keepsDue_defer | intros _; apply keepsDue_reportPaths].
         + intros _. apply keepsDue_when. apply keepsDue_bind;
             [apply keepsDue_defer | intros _; apply keepsDue_reportPaths]. }
  unfold bind at 1. cbn [pure].
  destruct (Extra r) as [|x2 l2]; cbn [nonEmpty when orb].
  2: { due_status s. apply makesDue_bind.
       - apply makesDue_defer. apply keepsDue_reportPaths.
       - intros _. apply keepsDue_when. apply keepsDue_bind;
           [apply keepsDue_defer | intros _; apply keepsDue_reportPaths]. }
  unfold bind at 1. cbn [pure].
  destruct (Missing r) as [|x3 l3]; cbn [nonEmpty when orb].
  2: { due_status s. apply makesDue_defer.
       apply keepsDue_reportPaths. }
  cbn [pure fst snd]. rewrite He. apply runDeferred_quiet. exact Hd.
Qed.

(** The status of the validation branch, by what the checker returns. *)
Lemma validate_status (fl : Flags) (f : Result FEntry -> Main string)
      (rootPath : string) (currentKeywords : list string) (tdh dh : DH)
      (s : MainState) :
  stateless f -> Armed s -> isErr s = false -> ~ Due s ->
  status (fst (validate fl f rootPath currentKeywords tdh dh s))
         (snd (validate fl f rootPath currentKeywords tdh dh s))
  = match (if negb (String.eqb (flTar fl) "")
           then mtree_TarCheck tdh dh currentKeywords
           else mtree_Check rootPath dh currentKeywords) with
    | (_, Some _) => 1%Z
    | (Some r, None) =>
        if nonEmpty (Failures r) || nonEmpty (Extra r)
           || nonEmpty (Missing r)
        then 1%Z else 0%Z
    | (None, None) => 0%Z
    end.
Proof.
  intros Hf Ha He Hd. unfold validate.
  destruct (if negb (String.eqb (flTar fl) "")
            then mtree_TarCheck tdh dh currentKeywords
            else mtree_Check rootPath dh currentKeywords)
    as [res [msg|]].
  - unfold bind, emit, fail, setErr, ret, status. simpl.
    destruct res; apply runDeferred_isErr; exact Ha.
  - destruct res as [r|].
    + unfold bind at 1. cbn [emit]. unfold bind at 1. cbn [pure].
      apply report_status; [exact Hf | exact He | exact Hd].
    + unfold bind, emit, pure, status. simpl. rewrite He.
      apply runDeferred_quiet. exact Hd.
Qed.

Lemma main_status (fl : Flags) :
  fst (main (Parsed fl))
  = status (fst (main_body fl initial)) (snd (main_body fl initial)).
Proof.
  unfold main. destruct (main_body fl initial) as [flow s]. reflexivity.
Qed.

(** A parsed command line exits with status 0 or 1. *)
Lemma main_status_0_1 (fl : Flags) :
  fst (main (Parsed fl)) = 0%Z \/ fst (main (Parsed fl)) = 1%Z.
Proof.
  destruct (main_Verdict fl) as [flow [s [-> [Hbad|Hgood]]]]; simpl.
  - right. exact (Bad_status flow s Hbad).
  - left. exact (Good_status flow s Hgood).
Qed.

Lemma armed_Armed : Armed armed.
Proof. left. reflexivity. Qed.

Lemma tarState_Armed (fl : Flags) : Armed (tarState fl armed).
Proof.
  apply tarState_deferred; [discriminate | exact armed_Armed].
Qed.

Lemma tarState_not_Due (fl : Flags) : ~ Due (tarState fl armed).
Proof.
  unfold Due. rewrite tarState_deferred by discriminate.
  intros [H|[]]. discriminate H.
Qed.

(** [main] up to its manifest. *)
Ltac to_manifest Hw Hk f Hf Hst :=
  destruct Hw as [Hv Hl];
  destruct (formats_known _ Hk) as [f [Hf Hst]];
  rewrite main_status;
  unfold main_body, bind, when, defer, listUsed;
  rewrite Hv, Hl, Hf; cbn [pure isErr deferred events initial];
  rewrite loadManifest_manifestOf.

Lemma unknown_format_status (fl : Flags) :
  working fl -> ~ knownFormat fl -> fst (main (Parsed fl)) = 1%Z.
Proof.
  intros [Hv Hl] Hk. rewrite main_status.
  unfold main_body, bind, when, defer.
  rewrite Hv, Hl, (formats_unknown fl Hk). reflexivity.
Qed.

Lemma manifest_error_status (fl : Flags) (err : error) :
  working fl -> knownFormat fl -> manifestOf fl = inl err ->
  fst (main (Parsed fl)) = 1%Z.
Proof.
  intros Hw Hk Hm. to_manifest Hw Hk f Hf Hst. rewrite Hm. reflexivity.
Qed.

Lemma list_used_without_file_status (fl : Flags) (dh : DH) :
  loads fl dh -> flListUsedKeywords fl = true -> flFile fl = "" ->
  fst (main (Parsed fl)) = 1%Z.
Proof.
  intros [Hw [Hk Hm]] Hlu Hfile. to_manifest Hw Hk f Hf Hst.
  rewrite Hm, Hlu, Hfile. reflexivity.
Qed.

Lemma update_with_tar_status (fl : Flags) (dh : DH) :
  loads fl dh -> flListUsedKeywords fl = false ->
  flUpdateAttributes fl = true -> flTar fl <> "" ->
  fst (main (Parsed fl)) = 1%Z.
Proof.
  intros [Hw [Hk Hm]] Hlu Hu Htar. to_manifest Hw Hk f Hf Hst.
  apply String.eqb_neq in Htar.
  rewrite Hm, Hlu, Hu, Htar. reflexivity.
Qed.

(** [main] up to its archive. *)
Ltac to_archive Hut :=
  match goal with
  | |- context [flUpdateAttributes ?fl && negb (String.eqb (flTar ?fl) "")] =>
      replace (flUpdateAttributes fl && negb (String.eqb (flTar fl) ""))
        with false
        by (destruct Hut as [Hut|Hut]; rewrite Hut;
            [reflexivity | destruct (flUpdateAttributes fl); reflexivity])
  end;
  cbn [pure]; rewrite loadTar_archiveOf.

Lemma archive_error_status (fl : Flags) (dh : DH) (err : error) :
  loads fl dh -> flListUsedKeywords fl = false ->
  flUpdateAttributes fl = false \/ flTar fl = "" ->
  archiveOf fl = inl err ->
  fst (main (Parsed fl)) = 1%Z.
Proof.
  intros [Hw [Hk Hm]] Hlu Hut Ha. to_manifest Hw Hk f Hf Hst.
  rewrite Hm, Hlu. to_archive Hut. rewrite Ha.
  unfold fail, bind, emit, setErr, ret, status. simpl.
  apply runDeferred_isErr. apply tarState_Armed.
Qed.

Lemma nothing_to_do_status (fl : Flags) (dh tdh : DH) :
  proceeds fl dh tdh -> flCreate fl = false ->
  dh = None -> tdh = None ->
  fst (main (Parsed fl)) = 1%Z.
Proof.
  intros [[Hw [Hk Hm]] [Hlu [Hut Ha]]] Hc -> ->.
  to_manifest Hw Hk f Hf Hst.
  rewrite Hm, Hlu. to_archive Hut. rewrite Ha, Hc.
  destruct (flUpdateAttributes fl); reflexivity.
Qed.

Lemma validation_status (fl : Flags) (dh tdh : DH) :
  validates fl dh tdh ->
  fst (main (Parsed fl))
  = match checkOf fl dh tdh with
    | (_, Some _) => 1%Z
    | (Some r, None) =>
        if nonEmpty (Failures r) || nonEmpty (Extra r)
           || nonEmpty (Missing r)
        then 1%Z else 0%Z
    | (None, None) => 0%Z
    end.
Proof.
  intros [[[Hw [Hk Hm]] [Hlu [Hut Ha]]] [Hc [Hud Hsome]]].
  to_manifest Hw Hk f Hf Hst.
  rewrite Hm, Hlu. to_archive Hut. rewrite Ha, Hc.
  assert (isSome tdh || isSome dh = true) as Hany.
  { destruct Hsome as [H|H]; [destruct dh | destruct tdh];
      try contradiction; [apply orb_true_r | reflexivity]. }
  assert (checkOf fl dh tdh
          = if negb (String.eqb (flTar fl) "")
            then mtree_TarCheck tdh dh (currentKeywordsOf fl)
            else mtree_Check
                   (if negb (String.eqb (flPath fl) "")
                    then flPath fl else ".")
                   dh (currentKeywordsOf fl)) as Hcheck.
  { unfold checkOf, rootPathOf.
    destruct (String.eqb (flTar fl) ""), (String.eqb (flPath fl) "");
      reflexivity. }
  rewrite Hcheck.
  assert (forall s', s' = tarState fl armed ->
            status
              (fst (validate fl f
                      (if negb (String.eqb (flPath fl) "")
                       then flPath fl else ".")
                      (currentKeywordsOf fl) tdh dh s'))
              (snd (validate fl f
                      (if negb (String.eqb (flPath fl) "")
                       then flPath fl else ".")
                      (currentKeywordsOf fl) tdh dh s'))
            = match (if negb (String.eqb (flTar fl) "")
                     then mtree_TarCheck tdh dh (currentKeywordsOf fl)
                     else mtree_Check
                            (if negb (String.eqb (flPath fl) "")
                             then flPath fl else ".")
                            dh (currentKeywordsOf fl)) with
              | (_, Some _) => 1%Z
              | (Some r, None) =>
                  if nonEmpty (Failures r) || nonEmpty (Extra r)
                     || nonEmpty (Missing r)
                  then 1%Z else 0%Z
              | (None, None) => 0%Z
              end) as Hval.
  { intros s' ->. apply validate_status;
      [exact Hst | apply tarState_Armed | | apply tarState_not_Due].
    rewrite tarState_isErr. reflexivity. }
  specialize (Hval _ eq_refl).
  destruct (flUpdateAttributes fl).
  - destruct Hud as [Hud| ->]; [discriminate Hud|].
    rewrite Hany. exact Hval.
  - rewrite Hany. exact Hval.
Qed.

(** ** [flag.Parse] *)

Lemma Cut_none (s sep : string) :
  Contains s sep = false -> Cut s sep = None.
Proof.
  induction s as [|c s IH].
  - destruct sep; simpl; intros H; [discriminate H | reflexivity].
  - rewrite Contains_cons, Cut_cons.
    destruct (String.prefix sep (String c s)); [discriminate|].
    intros H. rewrite (IH H). reflexivity.
Qed.

(** A flag that [main.go] does not declare is rejected, wherever the
    parsing has got to. *)
Lemma parse_undefined (name : string) (rest : list string) (fl : Flags) :
  flagName name = true -> formal name = None ->
  name <> "h" -> name <> "help" ->
  parseArgs (("-" ++ name)%string :: rest) fl = Rejected.
Proof.
  intros Hn Hf Hh Hhelp. destruct name as [|c s']; [discriminate Hn|].
  simpl in Hn. apply andb_true_iff in Hn. destruct Hn as [Hn Heq].
  apply andb_true_iff in Hn. destruct Hn as [Hd He].
  apply negb_true_iff in Hd, He, Heq.
  apply String.eqb_neq in Hh, Hhelp.
  change (("-" ++ String c s')%string) with (String "-" (String c s')).
  cbn [parseArgs]. rewrite Hd. cbn [andb]. rewrite Hd, He. cbn [orb].
  unfold nameAndValue. rewrite (Cut_none _ _ Heq), Hf, Hh, Hhelp.
  reflexivity.
Qed.

(** A flag declared with [flag.String] that comes last, without
    [=value], is rejected. *)
Lemma parse_needs_argument (name : string) (fl : Flags) :
  formal name = Some StringFlag ->
  parseArgs [("-" ++ name)%string] fl = Rejected.
Proof.
  unfold formal. intros Hf.
  destruct (existsb (String.eqb name)
              ["c"; "u"; "bsd-keywords"; "debug"; "list-keywords";
               "list-used"; "version"]); [discriminate Hf|].
  destruct (existsb (String.eqb name)
              ["f"; "p"; "K"; "k"; "T"; "result-format"]) eqn:Hin;
    [|discriminate Hf].
  apply existsb_exists in Hin. destruct Hin as [x [Hx Heq]].
  apply String.eqb_eq in Heq. subst x. simpl in Hx.
  destruct Hx as [<-|[<-|[<-|[<-|[<-|[<-|[]]]]]]]; reflexivity.
Qed.

(** C9, as amended.  For the arguments of the command line:
    a line that [flag.Parse] rejects exits with status 2, as does every
    line that starts with a flag that is not declared, or that consists
    of a string flag without its argument; [-h] and [-help] exit with
    status 0.  For a line that [flag.Parse] accepts the status is 0 or
    1, and
    - a validation exits with status 0 when the checker returns a result
      without failures, missing and extra entries (or no result), and
      with status 1 when one of the three lists is not empty or the
      checker returns an error;
    - past [-version] and [-list-keywords], the status is 1 for an
      unknown result format, for a manifest that cannot be opened or
      parsed, for [-list-used] without [-f], for [-u] with [-T], for an
      archive that cannot be read, and when there is neither a manifest
      nor an archive and nothing to create. *)
Theorem gomtree_exit_status (args : list string) :
  (flag_Parse args = Rejected -> fst (gomtree args) = 2%Z)
  /\ (flag_Parse args = HelpRequested -> fst (gomtree args) = 0%Z)
  /\ (forall name rest,
        args = ("-" ++ name)%string :: rest ->
        flagName name = true -> formal name = None ->
        name <> "h" -> name <> "help" ->
        fst (gomtree args) = 2%Z)
  /\ (forall name,
        args = [("-" ++ name)%string] -> formal name = Some StringFlag ->
        fst (gomtree args) = 2%Z)
  /\ (forall rest,
        args = "-h" :: rest \/ args = "-help" :: rest ->
        fst (gomtree args) = 0%Z)
  /\ (forall fl,
        flag_Parse args = Parsed fl ->
        (fst (gomtree args) = 0%Z \/ fst (gomtree args) = 1%Z)
        /\ (forall dh tdh,
              validates fl dh tdh ->
              match checkOf fl dh tdh with
              | (_, Some _) => fst (gomtree args) = 1%Z
              | (Some r, None) =>
                  (Failures r = [] -> Missing r = [] -> Extra r = [] ->
                   fst (gomtree args) = 0%Z)
                  /\ (Failures r <> [] \/ Missing r <> [] \/ Extra r <> [] ->
                      fst (gomtree args) = 1%Z)
              | (None, None) => fst (gomtree args) = 0%Z
              end)
        /\ (working fl -> ~ knownFormat fl -> fst (gomtree args) = 1%Z)
        /\ (working fl -> knownFormat fl ->
            forall err, manifestOf fl = inl err ->
                        fst (gomtree args) = 1%Z)
        /\ (forall dh,
              loads fl dh -> flListUsedKeywords fl = true ->
              flFile fl = "" ->
              fst (gomtree args) = 1%Z)
        /\ (forall dh,
              loads fl dh -> flListUsedKeywords fl = false ->
              flUpdateAttributes fl = true -> flTar fl <> "" ->
              fst (gomtree args) = 1%Z)
        /\ (forall dh err,
              loads fl dh -> flListUsedKeywords fl = false ->
              flUpdateAttributes fl = false \/ flTar fl = "" ->
              archiveOf fl = inl err ->
              fst (gomtree args) = 1%Z)
        /\ (forall dh tdh,
              proceeds fl dh tdh -> flCreate fl = false ->
              dh = None -> tdh = None ->
              fst (gomtree args) = 1%Z)).
Proof.
  unfold gomtree.
  split; [intros ->; reflexivity|].
  split; [intros ->; reflexivity|].
  split.
  { intros name rest -> Hn Hf Hh Hhelp. unfold flag_Parse.
    rewrite (parse_undefined name rest defaults Hn Hf Hh Hhelp).
    reflexivity. }
  split.
  { intros name -> Hf. unfold flag_Parse.
    rewrite (parse_needs_argument name defaults Hf). reflexivity. }
  split; [intros rest [->| ->]; reflexivity|].
  intros fl ->.
  split; [apply main_status_0_1|].
  split.
  { intros dh tdh Hval. rewrite (validation_status fl dh tdh Hval).
    destruct (checkOf fl dh tdh) as [[r|] [msg|]]; try reflexivity.
    split.
    - intros -> -> ->. reflexivity.
    - intros Hne.
      destruct (Failures r); [|reflexivity].
      destruct (Extra r); [|reflexivity].
      destruct (Missing r); [|reflexivity].
      destruct Hne as [H|[H|H]]; contradiction H; reflexivity. }
  split; [apply unknown_format_status|].
  split; [intros Hw Hk err; apply manifest_error_status; assumption|].
  split; [apply list_used_without_file_status|].
  split; [apply update_with_tar_status|].
  split; [apply archive_error_status | apply nothing_to_do_status].
Qed.

End MainClaims.

Section MainExamples.

Import Gomtree GomtreeNotions Demo.

(** The theorem on the example front end: a clean tree, a tree with
    differences, a manifest that cannot be opened, and a flag that is
    not declared. *)
Lemma gomtree_exit_status_witness :
  fst (@gomtree frontend ["-f"; "manifest.mtree"; "-p"; "clean"]) = 0%Z
  /\ fst (@gomtree frontend ["-f"; "manifest.mtree"; "-p"; "dirty"]) = 1%Z
  /\ fst (@gomtree frontend ["-f"; "absent.mtree"]) = 1%Z
  /\ fst (@gomtree frontend ["-verbose"; "-f"; "manifest.mtree"]) = 2%Z.
Proof.
  assert (forall root,
             @validates frontend (validating root)
                        (Some hierarchy) None) as Hval.
  { intros root. unfold validates, proceeds, loads, working, knownFormat.
    simpl. repeat split; auto; left; discriminate. }
  split; [|split; [|split]].
  - destruct (@gomtree_exit_status frontend
                ["-f"; "manifest.mtree"; "-p"; "clean"])
      as [_ [_ [_ [_ [_ Hparsed]]]]].
    destruct (Hparsed (validating "clean") eq_refl) as [_ [Hcheck _]].
    specialize (Hcheck (Some hierarchy) None (Hval "clean")).
    simpl in Hcheck. destruct Hcheck as [Hclean _].
    apply Hclean; reflexivity.
  - destruct (@gomtree_exit_status frontend
                ["-f"; "manifest.mtree"; "-p"; "dirty"])
      as [_ [_ [_ [_ [_ Hparsed]]]]].
    destruct (Hparsed (validating "dirty") eq_refl) as [_ [Hcheck _]].
    specialize (Hcheck (Some hierarchy) None (Hval "dirty")).
    simpl in Hcheck. destruct Hcheck as [_ Hdirty].
    apply Hdirty. left. discriminate.
  - destruct (@gomtree_exit_status frontend ["-f"; "absent.mtree"])
      as [_ [_ [_ [_ [_ Hparsed]]]]].
    destruct (Hparsed
                (mkFlags false "absent.mtree" "" "" "" false ""
                         false false false false "bsd" false) eq_refl)
      as [_ [_ [_ [Hmanifest _]]]].
    apply (Hmanifest (conj eq_refl eq_refl) (or_introl eq_refl)
                     "open absent.mtree: no such file or directory").
    reflexivity.
  - destruct (@gomtree_exit_status frontend
                ["-verbose"; "-f"; "manifest.mtree"])
      as [_ [_ [Hundefined _]]].
    apply (Hundefined "verbose" ["-f"; "manifest.mtree"]);
      try reflexivity; discriminate.
Defined.

(** C9 as stated fails for "bad flags" and "missing arguments": a flag
    that is not declared, and [-f] without its argument, end the process
    inside [flag.Parse] with status 2, not 1; and [-h], which is not
    declared either, ends it with status 0. *)
Lemma gomtree_bad_flags_exit_2 :
  fst (@gomtree frontend ["-verbose"; "-f"; "manifest.mtree"]) = 2%Z
  /\ fst (@gomtree frontend ["-verbose"; "-f"; "manifest.mtree"]) <> 1%Z
  /\ fst (@gomtree frontend ["-p"; "clean"; "-f"]) = 2%Z
  /\ fst (@gomtree frontend ["-p"; "clean"; "-f"]) <> 1%Z
  /\ fst (@gomtree frontend ["-h"]) = 0%Z.
Proof.
  split; [vm_compute; reflexivity|]. split; [vm_compute; discriminate|].
  split; [vm_compute; reflexivity|]. split; [vm_compute; discriminate|].
  vm_compute; reflexivity.
Qed.

End MainExamples.

(* ================================================================== *)
(** * Further properties of the keyval accessors *)
(* ================================================================== *)

Section AccessorFacts.

Lemma bytesOf_app (a b : string) :
  bytesOf (a ++ b) = bytesOf a ++ bytesOf b.
Proof.
  induction a as [|c a IH]; simpl; [reflexivity|].
  unfold bytesOf in *. simpl. rewrite IH. reflexivity.
Qed.

Lemma string_app_assoc (a b c : string) :
  ((a ++ b) ++ c = a ++ (b ++ c))%string.
Proof. induction a as [|x a IH]; simpl; [reflexivity | rewrite IH; reflexivity]. Qed.

Lemma prefix_drop (p s : string) :
  String.prefix p s = true -> s = (p ++ drop (String.length p) s)%string.
Proof.
  revert s. induction p as [|c p IH]; intros s; [reflexivity|].
  destruct s as [|d s]; simpl; [intros H; discriminate H|].
  destruct (ascii_dec c d) as [Hcd|Hne]; [|intros H; discriminate H].
  subst d. intros H. rewrite <- (IH s H). reflexivity.
Qed.

(** [Cut] splits around an instance of the separator. *)
Lemma Cut_split (s sep before after : string) :
  Cut s sep = Some (before, after) ->
  s = (before ++ sep ++ after)%string.
Proof.
  revert before after. induction s as [|c s IH]; intros before after.
  - simpl. destruct sep; [|discriminate].
    intros H. inversion H. reflexivity.
  - rewrite Cut_cons.
    destruct (String.prefix sep (String c s)) eqn:Hp.
    + intros H. inversion H; subst. simpl. apply prefix_drop. exact Hp.
    + destruct (Cut s sep) as [[b a]|]; [|discriminate].
      intros H. inversion H; subst. simpl. f_equal. apply IH. reflexivity.
Qed.

(** ... the first one: the text before it holds no separator byte. *)
Lemma Cut_before (s before after : string) (c : ascii) :
  Cut s (String c EmptyString) = Some (before, after) ->
  ~ In c (bytesOf before).
Proof.
  revert before after. induction s as [|d s IH]; intros before after.
  - simpl. discriminate.
  - rewrite Cut_cons.
    destruct (String.prefix (String c EmptyString) (String d s)) eqn:Hp.
    + intros H. inversion H. simpl. tauto.
    + destruct (Cut s (String c EmptyString)) as [[b a]|] eqn:Hc;
        [|discriminate].
      intros H. inversion H; subst. simpl. intros [Hd|Hin].
      * subst d. simpl in Hp. destruct (ascii_dec c c); [|contradiction].
        destruct s; discriminate.
      * exact (IH _ _ eq_refl Hin).
Qed.

Lemma not_Contains_byte (c : ascii) (s : string) :
  Contains s (String c EmptyString) = false <-> ~ In c (bytesOf s).
Proof.
  unfold bytesOf. rewrite <- Contains_byte.
  destruct (Contains s (String c EmptyString)); split; intro H;
    try reflexivity; try discriminate.
  exfalso. apply H. reflexivity.
Qed.

(** The three places of a keyval that holds '=': the chunk before the
    first '=' of the trimmed text, and the value after it. *)
Lemma keyval_chunks (kv : KeyVal) :
  Contains kv "=" = true ->
  exists chunks value,
    Cut (TrimSpace kv) "=" = Some (chunks, value)
    /\ TrimSpace kv = (chunks ++ "=" ++ value)%string
    /\ ~ In "="%char (bytesOf chunks).
Proof.
  intros H. apply Contains_byte in H.
  apply (TrimSpace_keeps "="%char) in H; [|reflexivity].
  apply Contains_byte in H.
  destruct (Contains_Cut _ _ H) as [[chunks value] Hcut].
  exists chunks, value. split; [exact Hcut|].
  split; [exact (Cut_split _ _ _ _ Hcut) | exact (Cut_before _ _ _ _ Hcut)].
Qed.

(** What the accessors return, read off the two cuts. *)
Lemma accessors_of_cut (kv : KeyVal) (chunks value : string) :
  Contains kv "=" = true ->
  Cut (TrimSpace kv) "=" = Some (chunks, value) ->
  Value kv = value
  /\ ((Contains chunks "." = false
       /\ Keyword kv = chunks /\ KeywordSuffix kv = "")
      \/ (exists k sfx,
             Cut chunks "." = Some (k, sfx)
             /\ Keyword kv = k /\ KeywordSuffix kv = sfx)).
Proof.
  intros Heq Hcut. unfold Keyword, KeywordSuffix, Value, SplitN2, index.
  rewrite Heq, Hcut. simpl. split; [reflexivity|].
  destruct (Contains chunks ".") eqn:Hdot; simpl.
  - right. destruct (Contains_Cut _ _ Hdot) as [[k sfx] Hc].
    exists k, sfx. rewrite Hc. repeat split.
  - left. repeat split.
Qed.

(** Byte by byte: no '=' and no '.' in the keyword, no '=' in the
    suffix. *)
Lemma accessor_bytes (kv : KeyVal) :
  ~ In "="%char (bytesOf (Keyword kv))
  /\ ~ In "."%char (bytesOf (Keyword kv))
  /\ ~ In "="%char (bytesOf (KeywordSuffix kv)).
Proof.
  destruct (Contains kv "=") eqn:Heq.
  2: { rewrite Keyword_without_eq, KeywordSuffix_without_eq by exact Heq.
       simpl. tauto. }
  destruct (keyval_chunks kv Heq) as [chunks [value [Hcut [_ Hno]]]].
  destruct (accessors_of_cut kv chunks value Heq Hcut)
    as [_ [[Hdot [-> ->]]|[k [sfx [Hc [-> ->]]]]]].
  - split; [exact Hno|]. split; [|simpl; tauto].
    apply not_Contains_byte. exact Hdot.
  - pose proof (Cut_split _ _ _ _ Hc) as Hsplit.
    pose proof (Cut_before _ _ _ _ Hc) as Hk.
    assert (bytesOf chunks = bytesOf k ++ "."%char :: bytesOf sfx) as Hb.
    { rewrite Hsplit, bytesOf_app. reflexivity. }
    rewrite Hb in Hno.
    split; [|split].
    + intro Hin. apply Hno. apply in_or_app. left. exact Hin.
    + exact Hk.
    + intro Hin. apply Hno. apply in_or_app. right. right. exact Hin.
Qed.

(** The trimmed keyval starts with its keyword. *)
Lemma Keyword_begins_trimmed (kv : KeyVal) :
  Contains kv "=" = true ->
  exists rest, TrimSpace kv = (Keyword kv ++ rest)%string.
Proof.
  intros Heq.
  destruct (keyval_chunks kv Heq) as [chunks [value [Hcut [Hsplit _]]]].
  destruct (accessors_of_cut kv chunks value Heq Hcut)
    as [_ [[_ [-> _]]|[k [sfx [Hc [-> _]]]]]].
  - exists ("=" ++ value)%string. exact Hsplit.
  - exists ("." ++ sfx ++ "=" ++ value)%string.
    rewrite Hsplit at 1. rewrite (Cut_split _ _ _ _ Hc) at 1.
    rewrite !string_app_assoc. reflexivity.
Qed.

(** X1: the keyword of a keyval never holds '=' or '.', and its suffix
    never holds '='. *)
Theorem Keyword_has_no_separator (kv : KeyVal) :
  Contains (Keyword kv) "=" = false
  /\ Contains (Keyword kv) "." = false
  /\ Contains (KeywordSuffix kv) "=" = false.
Proof.
  destruct (accessor_bytes kv) as [Hk [Hd Hs]].
  split; [|split]; apply not_Contains_byte; assumption.
Qed.

(** X2: a keyval that holds '=' is, once trimmed, its keyword, then for
    an extended attribute a '.' and the suffix, then '=' and the value;
    without a '.' before the first '=' the suffix is empty. *)
Theorem keyval_parts (kv : KeyVal) :
  Contains kv "=" = true ->
  (TrimSpace kv = (Keyword kv ++ "=" ++ Value kv)%string
   /\ KeywordSuffix kv = "")
  \/ TrimSpace kv
     = (Keyword kv ++ "." ++ KeywordSuffix kv ++ "=" ++ Value kv)%string.
Proof.
  intros Heq.
  destruct (keyval_chunks kv Heq) as [chunks [value [Hcut [Hsplit _]]]].
  destruct (accessors_of_cut kv chunks value Heq Hcut)
    as [-> [[Hdot [-> ->]]|[k [sfx [Hc [-> ->]]]]]].
  - left. split; [exact Hsplit | reflexivity].
  - right. rewrite Hsplit at 1. rewrite (Cut_split _ _ _ _ Hc) at 1.
    rewrite !string_app_assoc. reflexivity.
Qed.

(** The theorem at a plain keyval and at an extended attribute. *)
Lemma keyval_parts_witness :
  ((TrimSpace " mode=0644 " = (Keyword " mode=0644 " ++ "="
                               ++ Value " mode=0644 ")%string
    /\ KeywordSuffix " mode=0644 " = "")
   \/ TrimSpace " mode=0644 "
      = (Keyword " mode=0644 " ++ "." ++ KeywordSuffix " mode=0644 "
         ++ "=" ++ Value " mode=0644 ")%string)
  /\ Keyword "xattr.user.mime=dGV4dA==" = "xattr"
  /\ KeywordSuffix "xattr.user.mime=dGV4dA==" = "user.mime"
  /\ Value "xattr.user.mime=dGV4dA==" = "dGV4dA==".
Proof.
  split; [apply (keyval_parts " mode=0644 "); reflexivity|].
  repeat split.
Defined.

End AccessorFacts.

(** ** [ChangeValue] *)

Section ChangeValueFacts.

Lemma isPrefix_app (r p q : list ascii) :
  isPrefix r p = true -> isPrefix r (p ++ q) = true.
Proof.
  revert p. induction r as [|a r IH]; intros p; simpl; [reflexivity|].
  destruct p as [|b p]; simpl; [discriminate|].
  intros H. apply andb_true_iff in H. destruct H as [Hab Hr].
  rewrite Hab. simpl. apply IH. exact Hr.
Qed.

Lemma isPrefix_self_app (r l : list ascii) : isPrefix r (r ++ l) = true.
Proof.
  induction r as [|a r IH]; simpl; [reflexivity|].
  rewrite Ascii.eqb_refl. exact IH.
Qed.

Lemma stripRune_found (runes : list (list ascii)) (r l : list ascii) :
  In r runes -> isPrefix r l = true -> stripRune runes l <> None.
Proof.
  induction runes as [|x runes IH]; simpl; [tauto|].
  intros [->|Hin] Hp.
  - rewrite Hp. discriminate.
  - destruct (isPrefix x l); [discriminate | exact (IH Hin Hp)].
Qed.

(** A list without leading rune keeps that property in its prefixes. *)
Lemma stripRune_None_prefix (runes : list (list ascii)) (p q : list ascii) :
  stripRune runes (p ++ q) = None -> stripRune runes p = None.
Proof.
  intros H. destruct (stripRune runes p) as [l'|] eqn:Hp; [|reflexivity].
  exfalso. destruct (stripRune_split _ _ _ Hp) as [r [Hr Hl]].
  apply (stripRune_found runes r (p ++ q) Hr); [|exact H].
  apply isPrefix_app. rewrite Hl. apply isPrefix_self_app.
Qed.

(** Where a rune that lacks the byte [c] starts a list that holds [c]
    after [k], the rune lies within [k]. *)
Lemma app_eq_before (c : ascii) (r l' k v : list ascii) :
  ~ In c r -> r ++ l' = k ++ c :: v ->
  exists m, k = r ++ m /\ l' = m ++ c :: v.
Proof.
  revert k. induction r as [|a r IH]; intros k Hc Heq; simpl in *.
  - exists k. split; [reflexivity | exact Heq].
  - destruct k as [|b k]; simpl in Heq.
    + inversion Heq; subst. exfalso. apply Hc. left. reflexivity.
    + inversion Heq; subst.
      destruct (IH k (fun H => Hc (or_intror H)) H1) as [m [-> ->]].
      exists m. split; reflexivity.
Qed.

(** Trimming at the front stops at the latest before a byte that no rune
    holds. *)
Lemma trimLeftFuel_stops (c : ascii) (runes : list (list ascii))
      (tail : list ascii) (fuel : nat) :
  (forall r, In r runes -> ~ In c r) ->
  forall w, exists pre w2,
    w = pre ++ w2
    /\ trimLeftFuel fuel runes (w ++ c :: tail) = w2 ++ c :: tail
    /\ (stripRune runes w = None -> w2 = w).
Proof.
  intros Hrunes. induction fuel as [|fuel IH]; intros w; simpl.
  - exists [], w. repeat split.
  - destruct (stripRune runes (w ++ c :: tail)) as [l'|] eqn:Hs.
    + destruct (stripRune_split _ _ _ Hs) as [r [Hr Heq]].
      destruct (app_eq_before c r l' w tail (Hrunes r Hr) (eq_sym Heq))
        as [m [-> ->]].
      destruct (IH m) as [pre [w2 [-> [Htrim _]]]].
      exists (r ++ pre), w2. rewrite <- app_assoc.
      split; [reflexivity|]. split; [exact Htrim|].
      intros Hnone. exfalso.
      apply (stripRune_found runes r (r ++ pre ++ w2) Hr);
        [apply isPrefix_self_app | exact Hnone].
    + exists [], w. repeat split.
Qed.

Lemma stripRune_shorter (runes : list (list ascii)) (l l' : list ascii) :
  ~ In [] runes ->
  stripRune runes l = Some l' -> (List.length l' < List.length l)%nat.
Proof.
  intros Hne H. destruct (stripRune_split _ _ _ H) as [r [Hr ->]].
  rewrite length_app. destruct r; [contradiction | simpl; lia].
Qed.

(** With fuel for every byte, trimming at the front leaves no leading
    rune. *)
Lemma trimLeftFuel_done (runes : list (list ascii)) (fuel : nat)
      (l : list ascii) :
  ~ In [] runes -> (List.length l <= fuel)%nat ->
  stripRune runes (trimLeftFuel fuel runes l) = None.
Proof.
  intros Hne. revert l. induction fuel as [|fuel IH]; intros l Hlen; simpl.
  - destruct l; [|simpl in Hlen; lia].
    clear Hlen. induction runes as [|r runes IHr]; simpl; [reflexivity|].
    destruct r; [exfalso; apply Hne; left; reflexivity|].
    simpl. apply IHr. intro H. apply Hne. right. exact H.
  - destruct (stripRune runes l) as [l'|] eqn:Hs; [|exact Hs].
    apply IH. apply (stripRune_shorter runes) in Hs; [lia | exact Hne].
Qed.

Lemma spaceRunes_not_empty : ~ In [] spaceRunes.
Proof.
  intros H.
  assert (forallb (fun r => negb (Nat.eqb (List.length r) 0)) spaceRunes
          = true) as Hall by reflexivity.
  rewrite forallb_forall in Hall. specialize (Hall [] H). discriminate Hall.
Qed.

(** Trimming at the end keeps a prefix. *)
Lemma trimRight_prefix (l : list ascii) :
  exists dropped, l = trimRight l ++ dropped.
Proof.
  unfold trimRight.
  assert (forall fuel runes w, exists pre,
             w = pre ++ trimLeftFuel fuel runes w) as Hsuffix.
  { induction fuel as [|fuel IH]; intros runes w; simpl.
    - exists []. reflexivity.
    - destruct (stripRune runes w) as [w'|] eqn:Hs; [|exists []; reflexivity].
      destruct (stripRune_split _ _ _ Hs) as [r [_ ->]].
      destruct (IH runes w') as [pre Hpre].
      exists (r ++ pre). rewrite <- app_assoc, <- Hpre. reflexivity. }
  destruct (Hsuffix (List.length l) (map (@rev ascii) spaceRunes) (rev l))
    as [pre Hpre].
  exists (rev pre). rewrite <- rev_app_distr, <- Hpre, rev_involutive.
  reflexivity.
Qed.

(** The trimmed text of a keyval has no leading white space. *)
Lemma TrimSpace_leftTrimmed (s : string) :
  stripRune spaceRunes (bytesOf (TrimSpace s)) = None.
Proof.
  unfold TrimSpace, bytesOf. rewrite list_ascii_of_string_of_list_ascii.
  destruct (trimRight_prefix (trimLeft (list_ascii_of_string s)))
    as [dropped Hd].
  apply (stripRune_None_prefix _ _ dropped). rewrite <- Hd.
  apply trimLeftFuel_done; [exact spaceRunes_not_empty | apply Nat.le_refl].
Qed.

Lemma Keyword_leftTrimmed (kv : KeyVal) :
  stripRune spaceRunes (bytesOf (Keyword kv)) = None.
Proof.
  destruct (Contains kv "=") eqn:Heq.
  2: { rewrite Keyword_without_eq by exact Heq. reflexivity. }
  pose proof (TrimSpace_leftTrimmed kv) as Ht.
  destruct (Keyword_begins_trimmed kv Heq) as [rest Hparts].
  rewrite Hparts, bytesOf_app in Ht.
  exact (stripRune_None_prefix _ _ _ Ht).
Qed.

Lemma string_of_bytesOf (s : string) : string_of_list_ascii (bytesOf s) = s.
Proof. apply string_of_list_ascii_of_string. Qed.

Lemma string_of_app (a b : list ascii) :
  string_of_list_ascii (a ++ b)
  = (string_of_list_ascii a ++ string_of_list_ascii b)%string.
Proof. induction a as [|x a IH]; simpl; [reflexivity | rewrite IH; reflexivity]. Qed.

(** The first cut of a text whose part before the separator byte lacks
    it. *)
Lemma Cut_first (c : ascii) (a b : string) :
  ~ In c (bytesOf a) ->
  Cut (a ++ String c b) (String c EmptyString) = Some (a, b).
Proof.
  induction a as [|x a IH]; intros Hno.
  - simpl. destruct (ascii_dec c c); [|contradiction].
    destruct b; reflexivity.
  - change ((String x a ++ String c b)%string)
      with (String x (a ++ String c b)).
    rewrite Cut_cons. simpl.
    destruct (ascii_dec c x) as [->|Hne].
    + exfalso. apply Hno. left. reflexivity.
    + rewrite IH; [reflexivity|].
      intro Hin. apply Hno. right. exact Hin.
Qed.

Lemma rev_around (c : ascii) (a b : list ascii) :
  rev (a ++ c :: b) = rev b ++ c :: rev a.
Proof.
  rewrite rev_app_distr. simpl. rewrite <- app_assoc. reflexivity.
Qed.

(** What trimming at the front drops is a sequence of runes. *)
Lemma trimLeftFuel_dropped (runes : list (list ascii)) (fuel : nat) :
  forall w, exists rs,
    Forall (fun r => In r runes) rs
    /\ w = concat rs ++ trimLeftFuel fuel runes w.
Proof.
  induction fuel as [|fuel IH]; intros w; simpl.
  - exists []. split; [constructor | reflexivity].
  - destruct (stripRune runes w) as [w'|] eqn:Hs.
    + destruct (stripRune_split _ _ _ Hs) as [r [Hr ->]].
      destruct (IH w') as [rs [Hrs Hw']].
      exists (r :: rs). split; [constructor; assumption|].
      simpl. rewrite <- app_assoc, <- Hw'. reflexivity.
    + exists []. split; [constructor | reflexivity].
Qed.

(** Runes read backwards, one after the other, are white space read
    backwards. *)
Lemma rev_concat_runes (rs : list (list ascii)) :
  Forall (fun r => In r (map (@rev ascii) spaceRunes)) rs ->
  exists rs', Forall (fun r => In r spaceRunes) rs'
              /\ rev (concat rs) = concat rs'.
Proof.
  induction rs as [|r rs IH]; intros Hall.
  - exists []. split; [constructor | reflexivity].
  - inversion Hall as [|r0 rs0 Hr Hrs]; subst.
    destruct (IH Hrs) as [rs' [Hall' Heq]].
    apply in_map_iff in Hr. destruct Hr as [x [<- Hx]].
    exists (rs' ++ [x]). split.
    + apply Forall_app. split; [exact Hall'|].
      constructor; [exact Hx | constructor].
    + simpl. rewrite rev_app_distr, Heq, rev_involutive, concat_app.
      simpl. rewrite app_nil_r. reflexivity.
Qed.

Lemma revRunes_not_empty : ~ In [] (map (@rev ascii) spaceRunes).
Proof.
  intros H. apply in_map_iff in H. destruct H as [x [Hx Hin]].
  apply spaceRunes_not_empty.
  assert (x = []) as <-; [|exact Hin].
  rewrite <- (rev_involutive x), Hx. reflexivity.
Qed.

(** The trimmed text of [k=v], for a [k] without leading white space:
    only the end of [v] is trimmed, of all its white space and of
    nothing else. *)
Lemma TrimSpace_keyval (k v : string) :
  stripRune spaceRunes (bytesOf k) = None ->
  exists kept dropped,
    v = (kept ++ dropped)%string
    /\ TrimSpace (k ++ "=" ++ v) = (k ++ "=" ++ kept)%string
    /\ (endsInSpace v = false -> kept = v)
    /\ whiteSpace dropped
    /\ endsInSpace kept = false.
Proof.
  intros Hk. unfold TrimSpace.
  change (list_ascii_of_string (k ++ "=" ++ v))
    with (bytesOf (k ++ String "="%char v)).
  rewrite bytesOf_app. change (bytesOf (String "="%char v))
    with ("="%char :: bytesOf v).
  assert (trimLeft (bytesOf k ++ "="%char :: bytesOf v)
          = bytesOf k ++ "="%char :: bytesOf v) as Hleft.
  { unfold trimLeft.
    destruct (trimLeftFuel_stops "="%char spaceRunes (bytesOf v)
                (List.length (bytesOf k ++ "="%char :: bytesOf v))
                (absentFrom_spec "="%char spaceRunes eq_refl) (bytesOf k))
      as [pre [w2 [_ [Htrim Hsame]]]].
    rewrite Htrim, (Hsame Hk). reflexivity. }
  rewrite Hleft. unfold trimRight. rewrite rev_around.
  set (fuel := List.length (bytesOf k ++ "="%char :: bytesOf v)).
  set (revRunes := map (@rev ascii) spaceRunes).
  destruct (trimLeftFuel_stops "="%char revRunes (rev (bytesOf k)) fuel
              (absentFrom_spec "="%char (map (@rev ascii) spaceRunes)
                               eq_refl)
              (rev (bytesOf v)))
    as [pre [w2 [Hw [Htrim Hsame]]]].
  assert (stripRune revRunes w2 = None) as Hdone.
  { apply (stripRune_None_prefix revRunes w2
             ("="%char :: rev (bytesOf k))).
    rewrite <- Htrim. apply trimLeftFuel_done; [exact revRunes_not_empty|].
    unfold fuel. rewrite !length_app. simpl. rewrite !length_rev. lia. }
  assert (exists rs, Forall (fun r => In r revRunes) rs /\ pre = concat rs)
    as [rs [Hrs Hpre]].
  { destruct (trimLeftFuel_dropped revRunes fuel
                (rev (bytesOf v) ++ "="%char :: rev (bytesOf k)))
      as [rs [Hrs Heq]].
    exists rs. split; [exact Hrs|].
    rewrite Htrim, Hw, <- app_assoc in Heq.
    exact (app_inv_tail _ _ _ Heq). }
  rewrite Htrim, rev_around, rev_involutive.
  exists (string_of_list_ascii (rev w2)), (string_of_list_ascii (rev pre)).
  split; [|split; [|split; [|split]]].
  - rewrite <- string_of_app, <- rev_app_distr, <- Hw, rev_involutive.
    symmetry. apply string_of_bytesOf.
  - rewrite string_of_app. simpl. rewrite string_of_bytesOf. reflexivity.
  - unfold endsInSpace. intros Hend.
    rewrite Hsame.
    + rewrite rev_involutive. apply string_of_bytesOf.
    + fold revRunes in Hend.
      destruct (stripRune revRunes (rev (bytesOf v)));
        [discriminate | reflexivity].
  - destruct (rev_concat_runes rs Hrs) as [rs' [Hrs' Heq]].
    exists rs'. split; [exact Hrs'|].
    unfold bytesOf. rewrite list_ascii_of_string_of_list_ascii, Hpre.
    exact Heq.
  - unfold endsInSpace, bytesOf.
    rewrite list_ascii_of_string_of_list_ascii, rev_involutive.
    fold revRunes. rewrite Hdone. reflexivity.
Qed.

(** X3: [ChangeValue] keeps the keyword of a keyval and drops the suffix
    of an extended attribute; the value of the new keyval is the new
    value without its trailing white space: what is cut off the end of
    the new value is white space, and what stays does not end in white
    space. *)
Theorem ChangeValue_accessors (kv : KeyVal) (newval : string) :
  Keyword (ChangeValue kv newval) = Keyword kv
  /\ KeywordSuffix (ChangeValue kv newval) = ""
  /\ (exists dropped,
        newval = (Value (ChangeValue kv newval) ++ dropped)%string
        /\ whiteSpace dropped
        /\ endsInSpace (Value (ChangeValue kv newval)) = false)
  /\ (endsInSpace newval = false ->
      Value (ChangeValue kv newval) = newval).
Proof.
  unfold ChangeValue.
  destruct (TrimSpace_keyval (Keyword kv) newval (Keyword_leftTrimmed kv))
    as [kept [dropped [Hv [Htrim [Hsame [Hwhite Hend]]]]]].
  destruct (accessor_bytes kv) as [Hnoeq [Hnodot _]].
  apply not_Contains_byte in Hnoeq, Hnodot.
  assert (Contains (Keyword kv ++ "=" ++ newval) "=" = true) as Hhas.
  { apply Contains_byte. change (list_ascii_of_string ?s) with (bytesOf s).
    rewrite bytesOf_app. apply in_or_app. right. left. reflexivity. }
  assert (Cut (TrimSpace (Keyword kv ++ "=" ++ newval)) "="
          = Some (Keyword kv, kept)) as Hcut.
  { rewrite Htrim. apply Cut_first. apply not_Contains_byte. exact Hnoeq. }
  destruct (accessors_of_cut _ _ _ Hhas Hcut)
    as [Hval [[_ [Hk Hs]]|[k [sfx [Hc _]]]]].
  - split; [exact Hk|]. split; [exact Hs|]. rewrite Hval.
    split; [|exact Hsame].
    exists dropped. split; [exact Hv|]. split; [exact Hwhite | exact Hend].
  - exfalso. assert (Contains (Keyword kv) "." = true) as Hdot.
    { apply Contains_byte. rewrite (Cut_split _ _ _ _ Hc).
      change (list_ascii_of_string ?s) with (bytesOf s).
      rewrite bytesOf_app. apply in_or_app. right. left. reflexivity. }
    congruence.
Qed.

(** The theorem at the new value of an extended attribute, and at a
    new value that ends in a tab and a no-break space. *)
Lemma ChangeValue_accessors_witness :
  endsInSpace "bmV3" = false
  /\ ChangeValue "xattr.user.mime=dGV4dA==" "bmV3" = "xattr=bmV3"
  /\ Value (ChangeValue "xattr.user.mime=dGV4dA==" "bmV3") = "bmV3"
  /\ Value (ChangeValue "uid=0"
              ("7 7" ++ String (byte 9) (String (byte 194)
                                    (String (byte 160) ""))))
     = "7 7".
Proof.
  split; [reflexivity|]. split; [reflexivity|].
  split; [|vm_compute; reflexivity].
  apply (ChangeValue_accessors "xattr.user.mime=dGV4dA==" "bmV3").
  reflexivity.
Defined.

End ChangeValueFacts.

(** ** [Has], [keywordSelector] and [MergeSet] *)

Section SelectionFacts.

(** X4: [Has] returns the first keyval of the list with the keyword, and
    the empty keyval when the list has none. *)
Theorem Has_first_match (kvs : KeyVals) (k : string) :
  (~ hasKeyword kvs k -> Has kvs k = emptyKV)
  /\ (hasKeyword kvs k ->
      exists pre post,
        kvs = pre ++ Has kvs k :: post
        /\ Keyword (Has kvs k) = k
        /\ ~ hasKeyword pre k).
Proof.
  split; [apply Has_absent|].
  induction kvs as [|kv rest IH]; simpl; intros [x [Hin Hx]].
  - contradiction.
  - destruct (String.eqb_spec (Keyword kv) k) as [Hk|Hk].
    + exists [], rest. split; [reflexivity|]. split; [exact Hk|].
      intros [y [[] _]].
    + destruct Hin as [->|Hin]; [contradiction|].
      destruct (IH (ex_intro _ x (conj Hin Hx)))
        as [pre [post [Heq [Hkw Hpre]]]].
      exists (kv :: pre), post. split; [simpl; f_equal; exact Heq|].
      split; [exact Hkw|].
      intros [y [[<-|Hy] Hky]]; [contradiction|].
      apply Hpre. exists y. split; assumption.
Qed.

(** The theorem on a list with two keyvals for one keyword. *)
Lemma Has_first_match_witness :
  Has ["uid=0"; "mode=0644"; "uid=7"] "uid" = "uid=0"
  /\ Has ["uid=0"; "mode=0644"] "gid" = emptyKV.
Proof.
  split; [reflexivity|].
  apply (Has_first_match ["uid=0"; "mode=0644"] "gid").
  intros [kv [Hin Hk]]. simpl in Hin.
  destruct Hin as [<-|[<-|[]]]; discriminate Hk.
Defined.

Lemma keywordSelector_filter (keyval words : list string) :
  keywordSelector keyval words
  = filter (fun kv => inSlice (Keyword kv) words) keyval.
Proof.
  induction keyval as [|kv rest IH]; simpl; [reflexivity|].
  rewrite IH. reflexivity.
Qed.

(** X5: [keywordSelector] keeps exactly the keyvals whose keyword is one
    of the words; selecting twice with the same words selects nothing
    less, two selections commute, a selection distributes over
    concatenation, and without words nothing is selected. *)
Theorem keywordSelector_laws (keyval more words words' : list string) :
  (forall kv, In kv (keywordSelector keyval words)
              <-> In kv keyval /\ In (Keyword kv) words)
  /\ keywordSelector (keywordSelector keyval words) words
     = keywordSelector keyval words
  /\ keywordSelector (keywordSelector keyval words) words'
     = keywordSelector (keywordSelector keyval words') words
  /\ keywordSelector (keyval ++ more) words
     = keywordSelector keyval words ++ keywordSelector more words
  /\ keywordSelector keyval [] = [].
Proof.
  split; [intro kv; apply keywordSelector_In|].
  rewrite !keywordSelector_filter.
  split; [|split; [|split]].
  - induction keyval as [|kv rest IH]; simpl; [reflexivity|].
    destruct (inSlice (Keyword kv) words) eqn:Hin; simpl;
      [rewrite Hin, IH; reflexivity | exact IH].
  - induction keyval as [|kv rest IH]; simpl; [reflexivity|].
    destruct (inSlice (Keyword kv) words) eqn:Hin;
      destruct (inSlice (Keyword kv) words') eqn:Hin'; simpl;
      rewrite ?Hin, ?Hin', IH; reflexivity.
  - apply filter_app.
  - induction keyval as [|kv rest IH]; simpl; [reflexivity | exact IH].
Qed.

Lemma map_winner_nil (l : KeyVals) : map (winner []) l = l.
Proof.
  induction l as [|kv rest IH]; simpl; [reflexivity|].
  rewrite IH. reflexivity.
Qed.

Lemma filter_unseen_nil (l : KeyVals) : filter (unseen []) l = l.
Proof.
  induction l as [|kv rest IH]; simpl; [reflexivity|].
  rewrite IH. reflexivity.
Qed.

(** X6: merging with no entry keyvals returns the set as it is, and
    merging into an empty set returns the entry keyvals as they are. *)
Theorem MergeSet_identities (l : list string) :
  MergeSet l [] = l /\ MergeSet [] l = l.
Proof.
  rewrite !MergeSet_spec. split.
  - simpl. rewrite app_nil_r. apply map_winner_nil.
  - simpl. apply filter_unseen_nil.
Qed.

(** The keywords of a merge: those of the set, then those of the entry
    that the set lacks. *)
Lemma MergeSet_keyword_list (S E : list string) :
  map Keyword (MergeSet S E)
  = map Keyword S
    ++ filter (fun k => negb (inSlice k (map Keyword S))) (map Keyword E).
Proof.
  rewrite MergeSet_spec, map_app, map_Keyword_winner. f_equal.
  induction E as [|e rest IH]; simpl; [reflexivity|].
  unfold unseen at 1.
  destruct (negb (inSlice (Keyword e) (map Keyword S))); simpl;
    rewrite IH; reflexivity.
Qed.

Lemma MergeSet_keyword_kept (S E : list string) (k : string) :
  In k (map Keyword S) \/ In k (map Keyword E) ->
  In k (map Keyword (MergeSet S E)).
Proof.
  rewrite MergeSet_keyword_list, in_app_iff, filter_In, negb_true_iff,
    inSlice_false.
  intros [H|H]; [tauto|].
  destruct (in_dec string_dec k (map Keyword S)); tauto.
Qed.

(** X7: [MergeSet] invents no keyval; the keywords of the result are
    those of the set, in place, followed by the keywords of the entry
    that the set lacks; the result has between [len(S)] and
    [len(S)+len(E)] keyvals. *)
Theorem MergeSet_keywords (S E : list string) :
  (forall kv, In kv (MergeSet S E) -> In kv S \/ In kv E)
  /\ map Keyword (MergeSet S E)
     = map Keyword S
       ++ filter (fun k => negb (inSlice k (map Keyword S)))
                 (map Keyword E)
  /\ (forall k, In k (map Keyword (MergeSet S E))
                <-> In k (map Keyword S) \/ In k (map Keyword E))
  /\ (List.length S <= List.length (MergeSet S E)
      <= List.length S + List.length E)%nat.
Proof.
  pose proof (MergeSet_keyword_list S E) as Hkw.
  split; [|split; [exact Hkw|split]].
  - intros kv Hin. apply in_app_or. apply MergeSet_incl. exact Hin.
  - intro k. split; [|apply MergeSet_keyword_kept].
    rewrite Hkw, in_app_iff, filter_In. tauto.
  - rewrite MergeSet_spec, length_app, length_map.
    pose proof (filter_length_le (unseen (map Keyword S)) E) as Hle.
    unfold KeyVals, KeyVal in *. lia.
Qed.

Lemma Has_own (E : KeyVals) (e : KeyVal) :
  NoDup (map Keyword E) -> In e E -> Has E (Keyword e) = e.
Proof.
  induction E as [|x rest IH]; simpl; intros Hnd Hin; [contradiction|].
  apply NoDup_cons_iff in Hnd. destruct Hnd as [Hfresh Hnd].
  destruct Hin as [->|Hin].
  - rewrite String.eqb_refl. reflexivity.
  - destruct (String.eqb_spec (Keyword x) (Keyword e)) as [Hk|Hk].
    + exfalso. apply Hfresh. rewrite Hk. apply in_map. exact Hin.
    + exact (IH Hnd Hin).
Qed.

Lemma winner_own (E : KeyVals) (e : KeyVal) :
  NoDup (map Keyword E) -> In e E -> winner E e = e.
Proof.
  intros Hnd Hin. unfold winner. rewrite (Has_own E e Hnd Hin).
  destruct (negb (String.eqb e emptyKV)); reflexivity.
Qed.

Lemma winner_twice (E : KeyVals) (kv : KeyVal) :
  winner E (winner E kv) = winner E kv.
Proof.
  unfold winner at 1. rewrite Keyword_winner. unfold winner.
  destruct (negb (String.eqb (Has E (Keyword kv)) emptyKV)); reflexivity.
Qed.

Lemma all_seen (seen : list string) (E : KeyVals) :
  (forall e, In e E -> inSlice (Keyword e) seen = true) ->
  filter (unseen seen) E = [].
Proof.
  induction E as [|e rest IH]; simpl; intros H; [reflexivity|].
  unfold unseen at 1. rewrite (H e (or_introl eq_refl)). simpl.
  apply IH. intros x Hx. apply H. right. exact Hx.
Qed.

(** X8: merging again the entry keyvals that were merged changes
    nothing, when no two of them share a keyword. *)
Theorem MergeSet_idempotent (S E : list string) :
  NoDup (map Keyword E) ->
  MergeSet (MergeSet S E) E = MergeSet S E.
Proof.
  intros Hnd. rewrite (MergeSet_spec (MergeSet S E) E).
  replace (filter (unseen (map Keyword (MergeSet S E))) E) with (@nil KeyVal).
  - rewrite app_nil_r, MergeSet_spec, map_app. f_equal.
    + rewrite map_map. apply map_ext. intro kv. apply winner_twice.
    + rewrite <- (map_id (filter _ E)) at 2. apply map_ext_in.
      intros e He. apply filter_In in He. apply winner_own; tauto.
  - symmetry. apply all_seen. intros e He. apply inSlice_In.
    apply MergeSet_keyword_kept. right. apply in_map. exact He.
Qed.

(** The theorem at the set and entry of scenario S6. *)
Lemma MergeSet_idempotent_witness :
  NoDup (map Keyword ["type=file"; "mode=0644"; "uid=7"])
  /\ MergeSet (MergeSet ["uid=0"; "gid=0"]
                        ["type=file"; "mode=0644"; "uid=7"])
              ["type=file"; "mode=0644"; "uid=7"]
     = ["uid=7"; "gid=0"; "type=file"; "mode=0644"].
Proof.
  assert (NoDup (map Keyword ["type=file"; "mode=0644"; "uid=7"])) as Hnd.
  { vm_compute. repeat constructor; simpl; intros H;
      repeat (destruct H as [H|H]; try discriminate H); exact H. }
  split; [exact Hnd|].
  rewrite (MergeSet_idempotent ["uid=0"; "gid=0"]
             ["type=file"; "mode=0644"; "uid=7"] Hnd).
  reflexivity.
Defined.

(** X9: when neither the set nor the entry repeats a keyword, the merge
    repeats none, and [Has] finds each keyval of the merge by its
    keyword. *)
Theorem MergeSet_distinct_keywords (S E : list string) :
  NoDup (map Keyword S) -> NoDup (map Keyword E) ->
  NoDup (map Keyword (MergeSet S E))
  /\ (forall kv, In kv (MergeSet S E) ->
                 Has (MergeSet S E) (Keyword kv) = kv).
Proof.
  intros HS HE. pose proof (MergeSet_NoDup S E HS HE) as Hnd.
  split; [exact Hnd|]. intros kv Hin. exact (Has_own _ kv Hnd Hin).
Qed.

(** The theorem on two lists that share the keyword uid. *)
Lemma MergeSet_distinct_keywords_witness :
  NoDup (map Keyword ["uid=0"; "gid=0"])
  /\ NoDup (map Keyword ["mode=0644"; "uid=7"])
  /\ NoDup (map Keyword (MergeSet ["uid=0"; "gid=0"] ["mode=0644"; "uid=7"]))
  /\ Has (MergeSet ["uid=0"; "gid=0"] ["mode=0644"; "uid=7"]) "uid" = "uid=7".
Proof.
  assert (NoDup (map Keyword ["uid=0"; "gid=0"])) as HS.
  { vm_compute. repeat constructor; simpl; intros H;
      repeat (destruct H as [H|H]; try discriminate H); exact H. }
  assert (NoDup (map Keyword ["mode=0644"; "uid=7"])) as HE.
  { vm_compute. repeat constructor; simpl; intros H;
      repeat (destruct H as [H|H]; try discriminate H); exact H. }
  split; [exact HS|]. split; [exact HE|].
  destruct (MergeSet_distinct_keywords _ _ HS HE) as [Hnd Hhas].
  split; [exact Hnd|].
  apply (Hhas "uid=7"). vm_compute. left. reflexivity.
Defined.

End SelectionFacts.

(** ** Further properties of [Update] *)

Section UpdaterMore.

Context {M : Manifest} {P : Platform}.

Lemma failuresOf_In (made : list Call) (f : Failure) :
  In f (failuresOf made) ->
  exists c msg,
    In c made /\ call_err c = Some msg
    /\ f = mkFailure (call_path c) (call_keyword c) "" msg.
Proof.
  unfold failuresOf. rewrite in_flat_map. intros [c [Hc Hf]].
  destruct (call_err c) as [msg|] eqn:He; [|contradiction].
  destruct Hf as [<-|[]]. exists c, msg. repeat split; assumption.
Qed.

(** X10: a result of [Update] holds failures only, no missing and no
    extra entry; every failure is for a keyword of the caller's list with
    a registered update function, and has no expected value. *)
Theorem Update_reports_only_failures (root : string)
        (dh : DirectoryHierarchy Entry) (keywords : list string)
        (w : World FS) (result : Result Entry) :
  fst (Update root dh keywords w) = inr result ->
  Missing result = [] /\ Extra result = []
  /\ forall f, In f (Failures result) ->
               In (Failure_Keyword f) keywords
               /\ UpdateKeywordFuncs (Failure_Keyword f) <> None
               /\ Failure_Expected f = "".
Proof.
  intros Hres.
  destruct (Update_run root dh keywords w) as [made [_ [Hsites Hout]]].
  rewrite Hres in Hout. destruct Hout as [Herr [Hf [Hm Hx]]].
  split; [exact Hm|]. split; [exact Hx|].
  intros f Hin. rewrite Hf in Hin.
  destruct (failuresOf_In made f Hin) as [c [msg [Hc [_ ->]]]]. simpl.
  assert (In (site c) (map site made)) as Hs by (apply in_map; exact Hc).
  rewrite Hsites in Hs. destruct (Chdir_to root w); [contradiction|].
  destruct (planned_selected _ _ _ _ Hs) as [Hk Hreg].
  split; [exact Hk|]. split; [exact Hreg | reflexivity].
Qed.

Lemma updateKeyVals_nothing (pathname : string) (kvs : KeyVals)
      (failures : list Failure) (w : World FS) :
  updateKeyVals [] pathname kvs failures w = (failures, w).
Proof. induction kvs as [|kv rest IH]; simpl; [reflexivity | exact IH]. Qed.

Lemma updateEntries_nothing (entries : list Entry) :
  forall (curSet : option Entry) (result : Result Entry) (w : World FS),
  updateEntries [] entries curSet result w
  = (match pathError entries with
     | Some err => inl err
     | None => inr result
     end, w).
Proof.
  induction entries as [|e rest IH]; intros curSet result w; simpl;
    [reflexivity|].
  destruct (Entry_Type e); try apply IH;
    (destruct (Entry_Path e) as [err|pathname]; [reflexivity|];
     rewrite updateKeyVals_nothing, IH; destruct result; reflexivity).
Qed.

(** X11: with an empty keyword list [Update] invokes nothing and leaves
    the file system as it is; it still enters the root, decodes the path
    of every entry, and returns the error of a path that does not
    decode. *)
Theorem Update_without_keywords (root : string)
        (dh : DirectoryHierarchy Entry) (w : World FS) :
  fst (Update root dh [] w)
  = match updateError root dh w with
    | Some err => inl err
    | None => inr zeroResult
    end
  /\ calls (snd (Update root dh [] w)) = calls w
  /\ fs (snd (Update root dh [] w)) = fs w.
Proof.
  unfold Update, Update_body, updateError, Chdir.
  destruct (Chdir_to root w) as [err|d]; simpl.
  - split; [reflexivity|]. unfold Update_deferred, Chdir.
    destruct (Getwd w) as [e|dir]; [repeat split|].
    destruct (Chdir_to dir w); repeat split.
  - rewrite updateEntries_nothing. simpl. split; [reflexivity|].
    unfold Update_deferred, Chdir.
    destruct (Getwd w) as [e|dir]; [repeat split|].
    destruct (Chdir_to dir _); repeat split.
Qed.

(** X12: when the working directory cannot be determined, nothing is
    deferred: [Update] leaves the process in the root that it entered. *)
Theorem Update_without_cwd (root : string) (dh : DirectoryHierarchy Entry)
        (keywords : list string) (w : World FS) (err : error) (d : string) :
  Getwd w = inl err -> Chdir_to root w = inr d ->
  cwd (snd (Update root dh keywords w)) = d.
Proof.
  intros Hwd Hroot.
  destruct (Update_body_run root dh keywords w) as [made [_ Hrun]].
  rewrite Hroot in Hrun. destruct Hrun as [Hcwd _].
  unfold Update. rewrite Hwd.
  destruct (Update_body root dh keywords w) as [r w']. exact Hcwd.
Qed.

(** Two sorted arrangements of entries with distinct positions are the
    same list. *)
Lemma sorted_unique (l1 : list Entry) :
  forall l2, Permutation l1 l2 -> NoDup (map Entry_Pos l1) ->
  StronglySorted byPos_le l1 -> StronglySorted byPos_le l2 -> l1 = l2.
Proof.
  induction l1 as [|a l1 IH]; intros l2 Hperm Hnd Hs1 Hs2.
  - apply Permutation_nil in Hperm. symmetry. exact Hperm.
  - destruct l2 as [|b l2].
    { apply Permutation_sym, Permutation_nil in Hperm. discriminate. }
    inversion Hs1 as [|x1 y1 Hs1' Hall1]; subst.
    inversion Hs2 as [|x2 y2 Hs2' Hall2]; subst.
    apply NoDup_cons_iff in Hnd. destruct Hnd as [Hfresh Hnd].
    assert (a = b) as Hab.
    { assert (In b (a :: l1)) as Hb
          by (apply (Permutation_in b (Permutation_sym Hperm)); left;
              reflexivity).
      destruct Hb as [Hb|Hb]; [exact Hb|].
      assert (In a (b :: l2)) as Ha
          by (apply (Permutation_in a Hperm); left; reflexivity).
      destruct Ha as [Ha|Ha]; [symmetry; exact Ha|].
      rewrite Forall_forall in Hall1, Hall2.
      pose proof (Hall1 b Hb) as H1. pose proof (Hall2 a Ha) as H2.
      unfold byPos_le in H1, H2.
      exfalso. apply Hfresh.
      replace (Entry_Pos a) with (Entry_Pos b) by lia.
      apply in_map. exact Hb. }
    subst b. f_equal.
    apply IH; try assumption.
    apply Permutation_cons_inv with (a := a). exact Hperm.
Qed.

(** X13: [Update] sorts the entries before it walks them: two manifests
    with the same entries, each at a position of its own, are updated in
    the same way, in whatever order the entries are stored. *)
Theorem Update_order_independent (root : string) (l1 l2 : list Entry)
        (keywords : list string) (w : World FS) :
  sortContract ->
  NoDup (map Entry_Pos l1) -> Permutation l1 l2 ->
  Update root (mkDH l1) keywords w = Update root (mkDH l2) keywords w.
Proof.
  intros Hsort Hnd Hperm.
  assert (sortByPos l1 = sortByPos l2) as Heq.
  { destruct (Hsort l1) as [Hp1 Hs1]. destruct (Hsort l2) as [Hp2 Hs2].
    apply sorted_unique; try assumption.
    - eapply perm_trans; [apply Permutation_sym; exact Hp1|].
      eapply perm_trans; [exact Hperm | exact Hp2].
    - eapply Permutation_NoDup; [|exact Hnd].
      apply Permutation_map. exact Hp1. }
  unfold Update, Update_body. simpl. rewrite Heq. reflexivity.
Qed.

End UpdaterMore.

Section UpdaterMoreExamples.

Import Demo.

(** The theorem on the example: the three failures are for keywords of
    the list. *)
Lemma Update_reports_only_failures_witness :
  exists result,
    fst (@Update manifest platform "/srv/tree" hierarchy
                 DefaultUpdateKeywords world) = inr result
    /\ Missing result = [] /\ Extra result = []
    /\ map Failure_Keyword (Failures result) = ["uid"; "gid"; "mode"].
Proof.
  eexists. split; [reflexivity|].
  destruct (@Update_reports_only_failures manifest platform "/srv/tree"
              hierarchy DefaultUpdateKeywords world _ eq_refl)
    as [Hm [Hx _]].
  split; [exact Hm|]. split; [exact Hx | reflexivity].
Defined.

(** The theorem on the example, on a platform without working
    directory. *)
Lemma Update_without_cwd_witness :
  @Getwd lostPlatform world = inl "getwd: no such file or directory"
  /\ cwd (snd (@Update manifest lostPlatform "/srv/tree" hierarchy
                       DefaultUpdateKeywords world))
     = "/srv/tree".
Proof.
  split; [reflexivity|].
  apply (@Update_without_cwd manifest lostPlatform "/srv/tree" hierarchy
           DefaultUpdateKeywords world
           "getwd: no such file or directory" "/srv/tree");
    reflexivity.
Defined.

(** The theorem on the example: the manifest with its entries in the
    order of their positions. *)
Lemma Update_order_independent_witness :
  @Update manifest platform "/srv/tree" hierarchy DefaultUpdateKeywords world
  = @Update manifest platform "/srv/tree"
            (mkDH [setEntry; fooEntry; goneEntry])
            DefaultUpdateKeywords world.
Proof.
  apply (@Update_order_independent manifest platform "/srv/tree"
           [fooEntry; goneEntry; setEntry] [setEntry; fooEntry; goneEntry]).
  - exact demo_sortContract.
  - repeat constructor; simpl; intros H;
      repeat (destruct H as [H|H]; try discriminate H); exact H.
  - apply Permutation_sym.
    apply (Permutation_cons_app [fooEntry; goneEntry] [] setEntry).
    apply Permutation_refl.
Defined.

End UpdaterMoreExamples.

(** ** Further properties of [Vis] *)

Section VisMore.

Local Open Scope Z_scope.

Lemma low32_of_size (n : Z) :
  (4 * n + 1) mod 2 ^ 32 = 4 * (n mod 2 ^ 30) + 1.
Proof.
  pose proof (Z.div_mod n (2 ^ 30) ltac:(lia)) as Hn.
  pose proof (Z.mod_pos_bound n (2 ^ 30) ltac:(lia)) as Hr.
  symmetry. apply Z.mod_unique with (q := n / 2 ^ 30); lia.
Qed.

(** X14: [Vis] refuses an input exactly when its length, taken modulo
    2^30, is 2^28 or more: lengths wrap around with period 2^30. *)
Theorem Vis_refuses_exactly {C : CLib} (src : string) :
  (exists err, Vis src = inl err) <-> 2 ^ 28 <= len src mod 2 ^ 30.
Proof.
  unfold Vis. rewrite Vis_guard_low32, low32_of_size.
  change (MaxUint32 / 4) with 1073741823.
  destruct (4 * (len src mod 2 ^ 30) + 1 >=? 1073741823) eqn:Hg.
  - apply Z.geb_le in Hg. split; [lia | intros _; eexists; reflexivity].
  - rewrite Z.geb_leb in Hg. apply Z.leb_gt in Hg.
    split; [intros [err H]; discriminate H | lia].
Qed.

Lemma CString_stops (a b : string) :
  ~ In zero (bytesOf a) -> CString (a ++ String zero b) = a.
Proof.
  induction a as [|c a IH]; simpl; intros Hno; [reflexivity|].
  destruct (Ascii.eqb_spec c zero) as [->|Hne].
  - exfalso. apply Hno. left. reflexivity.
  - f_equal. apply IH. intro Hin. apply Hno. right. exact Hin.
Qed.

(** X15: the bytes of the input from its first NUL on are not encoded:
    [Vis] returns for [a], a NUL and [b] what [strvis] makes of [a]. *)
Theorem Vis_stops_at_NUL {C : CLib} (a b : string) :
  ~ In zero (bytesOf a) ->
  Vis_guard (len (a ++ String zero b)) = false ->
  Vis (a ++ String zero b) = inr (strvis a Vis_flags).
Proof.
  intros Hno Hg. rewrite (Vis_returns _ Hg), (CString_stops a b Hno).
  reflexivity.
Qed.

(** The theorem at a name with a NUL in it. *)
Lemma Vis_stops_at_NUL_witness :
  @Vis Demo.clib ("a b" ++ String zero "c d")%string
  = inr "a\040b"%string.
Proof.
  rewrite (@Vis_stops_at_NUL Demo.clib "a b" "c d").
  - reflexivity.
  - simpl. intros [H|[H|[H|[]]]]; discriminate H.
  - reflexivity.
Defined.

End VisMore.

(** ** The keywords that [main] works with *)

Section KeywordArguments.

Import Gomtree.

(** X16: [inSlice] tells whether the string is an element of the
    slice. *)
Theorem inSlice_membership (a : string) (l : list string) :
  (inSlice a l = true <-> In a l) /\ (inSlice a l = false <-> ~ In a l).
Proof. split; [apply inSlice_In | apply inSlice_false]. Qed.

Lemma commasToSpaces_no_comma (l : list ascii) :
  ~ In ","%char (commasToSpaces l).
Proof.
  induction l as [|c l IH]; simpl; [tauto|].
  intros [H|H]; [|exact (IH H)].
  destruct (Ascii.eqb_spec c ","%char) as [->|Hne];
    [discriminate H | contradiction].
Qed.

Lemma flush_fields (cur : list ascii) (f : string) :
  In f (flush cur) -> f <> "" /\ bytesOf f = rev cur.
Proof.
  destruct cur as [|c cur]; simpl; [tauto|].
  intros [<-|[]]. unfold bytesOf.
  rewrite list_ascii_of_string_of_list_ascii. split; [|reflexivity].
  intro H. apply (f_equal list_ascii_of_string) in H.
  rewrite list_ascii_of_string_of_list_ascii in H. simpl in H.
  destruct (rev cur); discriminate H.
Qed.

Lemma fieldsLoop_fields (fuel : nat) :
  forall (l cur : list ascii) (f : string),
  ~ In ","%char l ->
  (forall c, In c cur -> ~ separates c) ->
  In f (fieldsLoop fuel l cur) ->
  f <> "" /\ forall c, In c (bytesOf f) -> ~ separates c.
Proof.
  assert (forall cur f,
             (forall c, In c cur -> ~ separates c) -> In f (flush cur) ->
             f <> "" /\ forall c, In c (bytesOf f) -> ~ separates c)
    as Hflush.
  { intros cur f Hcur Hin. destruct (flush_fields cur f Hin) as [Hne Hb].
    split; [exact Hne|]. intros c Hc. rewrite Hb in Hc.
    apply in_rev in Hc. exact (Hcur c Hc). }
  induction fuel as [|fuel IH]; intros l cur f Hl Hcur Hin.
  - exact (Hflush cur f Hcur Hin).
  - cbn [fieldsLoop] in Hin. destruct l as [|c l'].
    + exact (Hflush cur f Hcur Hin).
    + destruct (stripRune spaceRunes (c :: l')) as [rest|] eqn:Hs.
      * apply in_app_or in Hin. destruct Hin as [Hin|Hin].
        -- exact (Hflush cur f Hcur Hin).
        -- apply (IH rest [] f); [|intros x []|exact Hin].
           destruct (stripRune_split _ _ _ Hs) as [r [_ Heq]].
           intro Hc. apply Hl. rewrite Heq. apply in_or_app. right. exact Hc.
      * apply (IH l' (c :: cur) f); [|  |exact Hin].
        -- intro Hc. apply Hl. right. exact Hc.
        -- intros x [<-|Hx]; [|exact (Hcur x Hx)].
           intros [Hcomma|Hspace].
           ++ apply Hl. left. exact Hcomma.
           ++ apply (stripRune_found spaceRunes [c] (c :: l') Hspace);
                [|exact Hs].
              simpl. rewrite Ascii.eqb_refl. reflexivity.
Qed.

(** X17: the keywords that [splitKeywordsArg] cuts out of an argument are
    not empty and hold no comma, no space and no other byte of ASCII
    white space. *)
Theorem splitKeywordsArg_fields (str f : string) :
  In f (splitKeywordsArg str) ->
  f <> ""
  /\ ~ In ","%char (bytesOf f)
  /\ ~ In " "%char (bytesOf f)
  /\ forall c, In [c] spaceRunes -> ~ In c (bytesOf f).
Proof.
  intros Hin. unfold splitKeywordsArg, Fields in Hin.
  destruct (fieldsLoop_fields _ _ [] f
              (commasToSpaces_no_comma (list_ascii_of_string str))
              (fun c (H : In c []) => match H with end) Hin)
    as [Hne Hsep].
  split; [exact Hne|]. split; [|split].
  - intro Hc. apply (Hsep _ Hc). left. reflexivity.
  - intro Hc. apply (Hsep _ Hc). right. vm_compute. auto 10.
  - intros c Hrune Hc. apply (Hsep _ Hc). right. exact Hrune.
Qed.

(** The theorem at an argument with commas and spaces. *)
Lemma splitKeywordsArg_fields_witness :
  splitKeywordsArg "uid,gid  mode, sha1" = ["uid"; "gid"; "mode"; "sha1"]
  /\ ~ In ","%char (bytesOf "gid").
Proof.
  split; [reflexivity|].
  destruct (splitKeywordsArg_fields "uid,gid  mode, sha1" "gid")
    as [_ [Hcomma _]]; [|exact Hcomma].
  right. left. reflexivity.
Defined.

(** X18: [-K] appends to the keywords, in the order of the argument, each
    keyword of the argument that is not among them yet, once. *)
Theorem addKeywords_appends (kws tmpKeywords : list string) :
  exists added,
    addKeywords kws tmpKeywords = tmpKeywords ++ added
    /\ NoDup added
    /\ (forall k, In k added <-> In k kws /\ ~ In k tmpKeywords).
Proof.
  revert tmpKeywords. induction kws as [|kw rest IH]; intros tmp; simpl.
  - exists []. rewrite app_nil_r. split; [reflexivity|].
    split; [constructor | simpl; tauto].
  - destruct (inSlice kw tmp) eqn:Hin; simpl.
    + apply inSlice_In in Hin.
      destruct (IH tmp) as [added [Heq [Hnd Hiff]]].
      exists added. split; [exact Heq|]. split; [exact Hnd|].
      intro k. rewrite Hiff. split; [tauto|].
      intros [[<-|Hk] Hno]; [contradiction | tauto].
    + apply inSlice_false in Hin.
      destruct (IH (tmp ++ [kw])) as [added [Heq [Hnd Hiff]]].
      exists (kw :: added). split; [rewrite Heq, <- app_assoc; reflexivity|].
      split.
      * constructor; [|exact Hnd]. intro Hk. apply Hiff in Hk.
        destruct Hk as [_ Hno]. apply Hno. apply in_or_app. right.
        left. reflexivity.
      * intro k. simpl. rewrite Hiff, in_app_iff. simpl. split.
        -- intros [<-|[Hk Hno]]; [tauto|]. split; [tauto|].
           intro Ht. apply Hno. left. exact Ht.
        -- intros [[<-|Hk] Hno]; [left; reflexivity|].
           destruct (string_dec kw k) as [->|Hne]; [left; reflexivity|].
           right. split; [exact Hk|]. intros [Ht|[Hx|[]]]; tauto.
Qed.

Lemma Default_is_Bsd (k : string) :
  Keyword_Default k = true -> Keyword_Bsd k = true.
Proof.
  unfold Keyword_Default. rewrite inSlice_In. simpl.
  intros [<-|[<-|[<-|[<-|[<-|[<-|[<-|[<-|[]]]]]]]]]; reflexivity.
Qed.

Lemma onlyBsd_Default : onlyBsd DefaultKeywords = DefaultKeywords.
Proof. reflexivity. Qed.

Lemma addKeywords_keeps (kws tmpKeywords : list string) (k : string) :
  In k tmpKeywords -> In k (addKeywords kws tmpKeywords).
Proof.
  revert tmpKeywords. induction kws as [|kw rest IH]; intros tmp Hin; simpl.
  - exact Hin.
  - destruct (inSlice kw tmp); apply IH; [exact Hin|].
    apply in_or_app. left. exact Hin.
Qed.

(** X19: "type" is among the keywords that [main] works with, whatever
    the flags: [-k] puts it in front when its argument lacks it, the
    default lists hold it, [-K] and [-bsd-keywords] keep it. *)
Theorem type_is_always_current (fl : Flags) :
  In "type" (currentKeywordsOf fl).
Proof.
  assert (In "type" (tmpKeywordsOf fl)) as Htmp.
  { unfold tmpKeywordsOf.
    assert (In "type"
              (if negb (String.eqb (flUseKeywords fl) "")
               then
                 if negb (inSlice "type"
                                  (splitKeywordsArg (flUseKeywords fl)))
                 then ["type"] ++ splitKeywordsArg (flUseKeywords fl)
                 else splitKeywordsArg (flUseKeywords fl)
               else if negb (String.eqb (flTar fl) "")
                    then DefaultTarKeywords else DefaultKeywords)) as Hbase.
    { destruct (negb (String.eqb (flUseKeywords fl) "")).
      - destruct (inSlice "type" (splitKeywordsArg (flUseKeywords fl)))
          eqn:Hin; simpl; [apply inSlice_In; exact Hin | left; reflexivity].
      - destruct (negb (String.eqb (flTar fl) "")); simpl; auto. }
    destruct (negb (String.eqb (flAddKeywords fl) ""));
      [apply addKeywords_keeps|]; exact Hbase. }
  unfold currentKeywordsOf. destruct (flBsdKeywords fl); [|exact Htmp].
  unfold onlyBsd. apply filter_In. split; [exact Htmp | reflexivity].
Qed.

(** X20: with [-bsd-keywords] every keyword that [main] works with is a
    keyword of upstream mtree(8); every default keyword is one, so that
    without [-k], [-K] and [-T] the flag leaves the default keywords as
    they are. *)
Theorem bsd_keywords_only (fl : Flags) :
  (flBsdKeywords fl = true ->
   forall k, In k (currentKeywordsOf fl) -> Keyword_Bsd k = true)
  /\ (forall k, Keyword_Default k = true -> Keyword_Bsd k = true)
  /\ (flUseKeywords fl = "" -> flAddKeywords fl = "" -> flTar fl = "" ->
      currentKeywordsOf fl = DefaultKeywords).
Proof.
  split; [|split; [exact Default_is_Bsd|]].
  - intros Hbsd k. unfold currentKeywordsOf, onlyBsd. rewrite Hbsd.
    intros Hin. apply filter_In in Hin. apply Hin.
  - intros Huse Hadd Htar. unfold currentKeywordsOf, tmpKeywordsOf.
    rewrite Huse, Hadd, Htar. simpl.
    destruct (flBsdKeywords fl); reflexivity.
Qed.

(** The theorem at [gomtree -c -bsd-keywords -K sha1,xattr]. *)
Lemma bsd_keywords_only_witness :
  currentKeywordsOf
    (mkFlags true "" "" "sha1,xattr" "" false "" true false false false
             "bsd" false)
  = DefaultKeywords ++ ["sha1"]
  /\ Keyword_Bsd "sha1" = true.
Proof.
  split; [reflexivity|].
  destruct (bsd_keywords_only
              (mkFlags true "" "" "sha1,xattr" "" false "" true false false
                       false "bsd" false)) as [Hbsd _].
  apply Hbsd; [reflexivity|].
  vm_compute. auto 10.
Defined.



End KeywordArguments.

(** ** [Update] at a path that does not decode, and the early exits of
    [main] *)

Section UpdaterStops.

Context {M : Manifest} {P : Platform}.

Lemma planned_stop (keywords : list string) (bad : Entry) (err : error)
      (post : list Entry) :
  Entry_Type bad = RelativeType \/ Entry_Type bad = FullType ->
  Entry_Path bad = inl err ->
  forall (pre : list Entry) (curSet : option Entry),
  pathError pre = None ->
  planned keywords (pre ++ bad :: post) curSet
  = planned keywords pre curSet
  /\ pathError (pre ++ bad :: post) = Some err.
Proof.
  intros Htype Hpath. induction pre as [|e pre IH]; intros curSet Hpre.
  - simpl. destruct Htype as [-> | ->]; rewrite Hpath; split; reflexivity.
  - simpl in *. destruct (Entry_Type e); try (apply IH; exact Hpre);
      (destruct (Entry_Path e) as [e'|pathname]; [discriminate Hpre|];
       destruct (IH curSet Hpre) as [-> ->]; split; reflexivity).
Qed.

(** X22: [Update] stops at the first entry whose path does not decode:
    it returns that error and no result, the entries before it have been
    updated, the entries after it have not, and the failures recorded on
    the way are not returned. *)
Theorem Update_stops_at_bad_path (root : string)
        (dh : DirectoryHierarchy Entry) (keywords : list string)
        (w : World FS) (d : string) (pre post : list Entry)
        (bad : Entry) (err : error) :
  Chdir_to root w = inr d ->
  sortByPos (Entries dh) = pre ++ bad :: post ->
  pathError pre = None ->
  Entry_Type bad = RelativeType \/ Entry_Type bad = FullType ->
  Entry_Path bad = inl err ->
  fst (Update root dh keywords w) = inl err
  /\ exists made,
       calls (snd (Update root dh keywords w)) = calls w ++ made
       /\ map site made = planned keywords pre None.
Proof.
  intros Hroot Hsorted Hpre Htype Hpath.
  destruct (planned_stop keywords bad err post Htype Hpath pre None Hpre)
    as [Hplanned Herr].
  destruct (Update_run root dh keywords w) as [made [Hc [Hsites Hout]]].
  unfold updateError in Hout. rewrite Hroot, Hsorted in *.
  rewrite Herr in Hout. split.
  - destruct (fst (Update root dh keywords w)) as [e|res].
    + inversion Hout. reflexivity.
    + destruct Hout as [Hnone _]. discriminate Hnone.
  - exists made. split; [exact Hc|]. rewrite Hsites. exact Hplanned.
Qed.

End UpdaterStops.

Section StopsExamples.

Import Demo Gomtree.

(** The theorem on a manifest whose second entry does not decode. *)
Lemma Update_stops_at_bad_path_witness :
  fst (@Update strictManifest platform "/srv/tree" brokenHierarchy
               DefaultUpdateKeywords world)
  = inl "unvis: incomplete escape"
  /\ map site
       (calls (snd (@Update strictManifest platform "/srv/tree"
                            brokenHierarchy DefaultUpdateKeywords world)))
     = [("foo", "uid", "1000")].
Proof.
  split; [|reflexivity].
  apply (@Update_stops_at_bad_path strictManifest platform "/srv/tree"
           brokenHierarchy DefaultUpdateKeywords world "/srv/tree"
           [mkEntry 0 "foo" ["uid=1000"] RelativeType]
           [mkEntry 2 "gone" ["uid=0"] RelativeType]
           (mkEntry 1 "bar\" ["uid=0"] RelativeType)
           "unvis: incomplete escape");
    try reflexivity.
  left. reflexivity.
Defined.



End StopsExamples.
